(** * Urban mobility explorer: trip validation, enrichment and clustering

    A shallow embedding of the algorithmic core of the repository:
    - [scripts/importData.js]: haversine distance, borough lookup,
      coordinate and trip validation, trip-type labelling, and the loop
      that validates, enriches and batches the records of the data file;
    - the server file: the [TripClusterer] class (K-means over
      latitude / longitude / duration feature points), the route that
      serves the clusters, and the queries of the routes that filter trips.

    JavaScript numbers are IEEE 754 binary64 values, modelled by Rocq's
    primitive floats ([PrimFloat.float]), whose operations are specified
    by [FloatAxioms] against the [SpecFloat] reference semantics. *)

From Stdlib Require Import ZArith List String Ascii Bool Lia Permutation.
From Stdlib Require Import Floats DecimalString.
From stdpp Require Import gmap list.

Set Warnings "-inexact-float".
#[local] Set Default Proof Using "Type".

(* ===================================================================== *)
(** * IEEE 754 facts used by the development *)
(* ===================================================================== *)

Module Ieee.

Local Open Scope Z_scope.

(** Sign of a non-NaN specification float. *)
Definition sf_sign (x : spec_float) : option bool :=
  match x with
  | S754_zero s | S754_infinity s | S754_finite s _ _ => Some s
  | S754_nan => None
  end.

(** A specification float that is zero, or positive (finite or infinite). *)
Definition sf_nonneg (x : spec_float) : bool :=
  match x with
  | S754_zero _ | S754_infinity false | S754_finite false _ _ => true
  | _ => false
  end.

Definition sf_is_nan (x : spec_float) : bool :=
  match x with S754_nan => true | _ => false end.

(** Zero or finite, i.e. neither NaN nor an infinity. *)
Definition sf_is_finite (x : spec_float) : bool :=
  match x with S754_zero _ | S754_finite _ _ _ => true | _ => false end.

(** ** The rounding function never invents a NaN *)

Lemma shr_1_nonneg mrs : 0 <= shr_m mrs -> 0 <= shr_m (shr_1 mrs).
Proof.
  destruct mrs as [m r s]; simpl; intros Hm.
  destruct m as [|p|p]; [simpl; lia| |lia].
  destruct p; simpl; lia.
Qed.

Lemma iter_pos_shr_1_nonneg p : forall mrs,
  0 <= shr_m mrs -> 0 <= shr_m (SpecFloat.iter_pos shr_1 p mrs).
Proof.
  induction p as [p IH|p IH|]; intros mrs Hm; simpl.
  - apply IH, IH, shr_1_nonneg, Hm.
  - apply IH, IH, Hm.
  - apply shr_1_nonneg, Hm.
Qed.

Lemma shr_nonneg mrs e n :
  0 <= shr_m mrs -> 0 <= shr_m (fst (shr mrs e n)).
Proof.
  intros Hm; destruct n; simpl; trivial.
  apply iter_pos_shr_1_nonneg, Hm.
Qed.

Lemma shr_fexp_nonneg m e l :
  0 <= m -> 0 <= shr_m (fst (shr_fexp prec emax m e l)).
Proof.
  intros Hm; unfold shr_fexp; apply shr_nonneg.
  destruct l as [|[]]; exact Hm.
Qed.

Lemma round_nearest_even_nonneg m l :
  0 <= m -> 0 <= round_nearest_even m l.
Proof.
  intros Hm; destruct l as [|[]]; simpl; try lia.
  destruct (Z.even m); lia.
Qed.

Lemma binary_round_aux_sign s m e l :
  0 <= m -> sf_sign (binary_round_aux prec emax s m e l) = Some s.
Proof.
  intros Hm; unfold binary_round_aux.
  pose proof (shr_fexp_nonneg m e l Hm) as H1.
  destruct (shr_fexp prec emax m e l) as [mrs' e']; simpl in H1.
  pose proof (shr_fexp_nonneg _ e' loc_Exact
                (round_nearest_even_nonneg _ (loc_of_shr_record mrs') H1)) as H2.
  destruct (shr_fexp prec emax _ e' loc_Exact) as [mrs'' e'']; simpl in H2.
  destruct (shr_m mrs'') as [|p|p]; [reflexivity| |lia].
  destruct (e'' <=? emax - prec); reflexivity.
Qed.

Lemma binary_round_sign s m e :
  sf_sign (binary_round prec emax s m e) = Some s.
Proof.
  unfold binary_round.
  destruct (shl_align m e _) as [mz ez].
  apply binary_round_aux_sign; lia.
Qed.

Lemma sf_sign_nonneg x : sf_sign x = Some false -> sf_nonneg x = true.
Proof. destruct x as [s|s| |s m e]; simpl; intros [= ->]; reflexivity. Qed.

Lemma sf_sign_not_nan x s : sf_sign x = Some s -> sf_is_nan x = false.
Proof. destruct x; simpl; congruence. Qed.

(** ** Operations of the reference semantics *)

Lemma SF64sub_not_nan x y :
  sf_is_finite x = true -> sf_is_nan y = false ->
  sf_is_nan (SF64sub x y) = false.
Proof.
  unfold SF64sub.
  destruct x as [sx|sx| |sx mx ex]; try discriminate;
    destruct y as [sy|sy| |sy my ey]; try discriminate; intros _ _; simpl;
    try reflexivity.
  - destruct sx, sy; reflexivity.
  - set (z := _ - _). destruct z; simpl; trivial;
      eapply sf_sign_not_nan, binary_round_sign.
Qed.

Lemma SF64mul_square x :
  sf_is_nan x = false -> sf_nonneg (SF64mul x x) = true.
Proof.
  unfold SF64mul.
  destruct x as [sx|sx| |sx mx ex]; try discriminate; intros _; simpl.
  - reflexivity.
  - destruct sx; reflexivity.
  - rewrite xorb_nilpotent.
    apply sf_sign_nonneg, binary_round_aux_sign; lia.
Qed.

Lemma SF64add_nonneg x y :
  sf_nonneg x = true -> sf_nonneg y = true -> sf_nonneg (SF64add x y) = true.
Proof.
  unfold SF64add.
  destruct x as [sx|[]| |[] mx ex]; try discriminate;
    destruct y as [sy|[]| |[] my ey]; try discriminate; intros _ _; simpl;
    try reflexivity.
  - destruct sx, sy; reflexivity.
  - apply sf_sign_nonneg, binary_round_sign.
Qed.

Lemma sqrtrem_fst_nonneg m : 0 <= fst (Z.sqrtrem m).
Proof.
  rewrite Z.sqrtrem_sqrt. apply Z.sqrt_nonneg.
Qed.

Lemma SF64sqrt_not_nan x :
  sf_nonneg x = true -> sf_is_nan (SF64sqrt x) = false.
Proof.
  unfold SF64sqrt.
  destruct x as [sx|[]| |[] mx ex]; try discriminate; intros _; simpl;
    try reflexivity.
  unfold SFsqrt_core_binary.
  set (m' := match _ with Z0 => _ | _ => _ end).
  pose proof (sqrtrem_fst_nonneg m') as Hq.
  destruct (Z.sqrtrem m') as [q r]; simpl in Hq.
  eapply sf_sign_not_nan, binary_round_aux_sign, Hq.
Qed.

Lemma SF64sqrt_nonneg x :
  sf_nonneg x = true -> sf_nonneg (SF64sqrt x) = true.
Proof.
  unfold SF64sqrt.
  destruct x as [sx|[]| |[] mx ex]; try discriminate; intros _; simpl;
    try reflexivity.
  unfold SFsqrt_core_binary.
  set (m' := match _ with Z0 => _ | _ => _ end).
  pose proof (sqrtrem_fst_nonneg m') as Hq.
  destruct (Z.sqrtrem m') as [q r]; simpl in Hq.
  eapply sf_sign_nonneg, binary_round_aux_sign, Hq.
Qed.

(** Division by a positive finite constant keeps a number a number. *)
Lemma SF64div_pos_not_nan x my ey :
  sf_is_nan x = false ->
  sf_is_nan (SF64div x (S754_finite false my ey)) = false.
Proof.
  unfold SF64div.
  destruct x as [sx|sx| |sx mx ex]; try discriminate; intros _; simpl;
    try reflexivity.
  unfold SFdiv_core_binary.
  set (m' := match _ with Z0 => _ | _ => _ end).
  assert (Hm' : 0 <= m').
  { unfold m'. destruct (_ - _ - _); try lia.
    rewrite Z.shiftl_mul_pow2 by lia. apply Z.mul_nonneg_nonneg; lia. }
  pose proof (Z.div_pos m' (Z.pos my) Hm' ltac:(lia)) as Hq.
  unfold Z.div in Hq.
  destruct (Z.div_eucl m' (Z.pos my)) as [q r].
  eapply sf_sign_not_nan, binary_round_aux_sign, Hq.
Qed.


(** ** The sign of a zero does not show in a squared difference *)

Definition sf_is_zero (x : spec_float) : bool :=
  match x with S754_zero _ => true | _ => false end.

(** The same number with a zero made positive. *)
Definition sf_unsign_zero (x : spec_float) : spec_float :=
  match x with S754_zero _ => S754_zero false | _ => x end.

(** Equal, or two zeros. *)
Definition sf_eqz (x y : spec_float) : Prop :=
  x = y \/ (sf_is_zero x = true /\ sf_is_zero y = true).

Lemma SF64sub_unsign_zero x y :
  sf_eqz (SF64sub (sf_unsign_zero x) (sf_unsign_zero y)) (SF64sub x y).
Proof.
  unfold sf_eqz, SF64sub.
  destruct x as [sx|sx| |sx mx ex], y as [sy|sy| |sy my ey]; simpl;
    try (left; reflexivity).
  right. destruct sx, sy; split; reflexivity.
Qed.

Lemma SF64div_eqz x y s m e :
  sf_eqz x y ->
  sf_eqz (SF64div x (S754_finite s m e)) (SF64div y (S754_finite s m e)).
Proof.
  intros [->|[Hx Hy]]; [now left|].
  destruct x; try discriminate. destruct y; try discriminate.
  right. split; reflexivity.
Qed.

Lemma SF64mul_eqz x y : sf_eqz x y -> SF64mul x x = SF64mul y y.
Proof.
  intros [->|[Hx Hy]]; [reflexivity|].
  destruct x as [sx| | |]; try discriminate.
  destruct y as [sy| | |]; try discriminate.
  simpl. now rewrite !xorb_nilpotent.
Qed.


(** ** Comparison is antisymmetric *)

Lemma SFcompare_antisym x y :
  SFcompare y x = option_map CompOpp (SFcompare x y).
Proof.
  destruct x as [sx|sx| |sx mx ex], y as [sy|sy| |sy my ey]; simpl;
    try reflexivity;
    try (destruct sx; reflexivity); try (destruct sy; reflexivity);
    try (destruct sx, sy; reflexivity).
  pose proof (Pos.compare_cont_antisym mx my Eq) as Hm. simpl in Hm.
  destruct sx, sy; simpl; try reflexivity;
    rewrite (Z.compare_antisym ex ey);
    destruct (ex ?= ey)%Z eqn:E; simpl; try reflexivity;
    rewrite <- Hm; try reflexivity; now rewrite CompOpp_involutive.
Qed.


(** ** Magnitudes: rounding does not overflow below the largest exponent *)

(** A zero, or a finite number below [2 ^ E] in absolute value. *)
Definition sf_below (E : Z) (x : spec_float) : Prop :=
  match x with
  | S754_zero _ => True
  | S754_finite _ m e => Z.pos (digits2_pos m) + e <= E
  | _ => False
  end.

Lemma sf_below_finite E x : sf_below E x -> sf_is_finite x = true.
Proof. destruct x; simpl; tauto. Qed.

Lemma sf_below_mono E E' x : E <= E' -> sf_below E x -> sf_below E' x.
Proof. destruct x; simpl; trivial; lia. Qed.

Lemma digits2_pos_size p : digits2_pos p = Pos.size p.
Proof. induction p; simpl; congruence. Qed.

Lemma Zdigits2_nonneg z : 0 <= Zdigits2 z.
Proof. destruct z; simpl; lia. Qed.

Lemma pos_lt_pow_digits m : Z.pos m < 2 ^ Z.pos (digits2_pos m).
Proof.
  rewrite digits2_pos_size.
  pose proof (Pos.size_gt m) as H.
  apply Pos2Z.pos_lt_pos in H. now rewrite Pos2Z.inj_pow in H.
Qed.

Lemma pow_digits_le_pos m : 2 ^ Z.pos (digits2_pos m) <= 2 * Z.pos m.
Proof.
  rewrite digits2_pos_size.
  pose proof (Pos.size_le m) as H.
  apply Pos2Z.pos_le_pos in H. now rewrite Pos2Z.inj_pow in H.
Qed.

Lemma Zdigits2_bound z k : 0 <= k -> Z.abs z < 2 ^ k -> Zdigits2 z <= k.
Proof.
  intros Hk Hz.
  assert (H : forall m, Z.pos m < 2 ^ k -> Z.pos (digits2_pos m) <= k).
  { intros m Hm. pose proof (pow_digits_le_pos m) as Hle.
    destruct (Z_le_gt_dec (Z.pos (digits2_pos m)) k) as [|Hgt]; [assumption|].
    exfalso.
    assert (2 ^ (k + 1) <= 2 ^ Z.pos (digits2_pos m))
      by (apply Z.pow_le_mono_r; lia).
    rewrite Z.pow_add_r in * by lia. lia. }
  destruct z as [|m|m]; simpl in *; [lia| |]; now apply H.
Qed.

Lemma shr_1_digits mrs :
  0 <= shr_m mrs ->
  Zdigits2 (shr_m (shr_1 mrs)) = Z.max 0 (Zdigits2 (shr_m mrs) - 1).
Proof.
  destruct mrs as [m r s]; simpl; intros Hm.
  destruct m as [|p|p]; [reflexivity| |lia].
  destruct p; simpl; lia.
Qed.

Lemma iter_shr_1_digits p : forall mrs,
  0 <= shr_m mrs ->
  Zdigits2 (shr_m (SpecFloat.iter_pos shr_1 p mrs))
  = Z.max 0 (Zdigits2 (shr_m mrs) - Z.pos p).
Proof.
  induction p as [p IH|p IH|]; intros mrs Hm; simpl SpecFloat.iter_pos.
  - rewrite IH, IH, shr_1_digits; trivial.
    + lia.
    + now apply shr_1_nonneg.
    + now apply iter_pos_shr_1_nonneg, shr_1_nonneg.
  - rewrite IH, IH; trivial.
    + lia.
    + now apply iter_pos_shr_1_nonneg.
  - now apply shr_1_digits.
Qed.

Lemma shr_digits mrs e n :
  0 <= shr_m mrs ->
  snd (shr mrs e n) = e + Z.max 0 n /\
  Zdigits2 (shr_m (fst (shr mrs e n)))
  = Z.max 0 (Zdigits2 (shr_m mrs) - Z.max 0 n).
Proof.
  intros Hm. pose proof (Zdigits2_nonneg (shr_m mrs)).
  destruct n as [|p|p]; simpl; try (split; lia).
  split; [lia|]. rewrite iter_shr_1_digits by assumption. lia.
Qed.

Lemma shr_fexp_digits m e l :
  0 <= m ->
  let n := fexp prec emax (Zdigits2 m + e) - e in
  snd (shr_fexp prec emax m e l) = e + Z.max 0 n /\
  Zdigits2 (shr_m (fst (shr_fexp prec emax m e l)))
  = Z.max 0 (Zdigits2 m - Z.max 0 n).
Proof.
  intros Hm n. unfold shr_fexp.
  assert (Hrec : shr_m (shr_record_of_loc m l) = m) by (destruct l as [|[]]; reflexivity).
  pose proof (shr_digits (shr_record_of_loc m l) e n) as H.
  rewrite Hrec in H. apply H, Hm.
Qed.

Lemma succ_digits m : 0 <= m -> Zdigits2 (m + 1) <= Zdigits2 m + 1.
Proof.
  intros Hm. apply Zdigits2_bound; [pose proof (Zdigits2_nonneg m); lia|].
  destruct m as [|p|p]; [simpl; lia| |lia].
  pose proof (pos_lt_pow_digits p). simpl Zdigits2.
  rewrite Z.pow_add_r by lia. lia.
Qed.

Lemma round_nearest_even_digits m l :
  0 <= m -> Zdigits2 (round_nearest_even m l) <= Zdigits2 m + 1.
Proof.
  intros Hm. pose proof (succ_digits m Hm).
  destruct l as [|[]]; simpl; try lia.
  destruct (Z.even m); lia.
Qed.

(** The rounded value of [m * 2 ^ e], when that is below [2 ^ E] and
    [E <= 1023]: finite, and below [2 ^ (E + 1)]. *)
Lemma binary_round_aux_below s m e l E :
  0 <= m -> Zdigits2 m + e <= E -> e <= emax - prec ->
  emin <= E -> E <= 1023 ->
  sf_below (E + 1) (binary_round_aux prec emax s m e l).
Proof.
  intros Hm HE He Hmin Hmax. unfold binary_round_aux.
  pose proof (shr_fexp_digits m e l Hm) as [He1 Hd1].
  pose proof (shr_fexp_nonneg m e l Hm) as Hm1.
  destruct (shr_fexp prec emax m e l) as [mrs1 e1]. simpl in He1, Hd1, Hm1.
  set (m2 := round_nearest_even (shr_m mrs1) (loc_of_shr_record mrs1)).
  pose proof (round_nearest_even_digits (shr_m mrs1) (loc_of_shr_record mrs1) Hm1) as Hd2.
  pose proof (round_nearest_even_nonneg (shr_m mrs1) (loc_of_shr_record mrs1) Hm1) as Hm2.
  fold m2 in Hd2, Hm2.
  pose proof (shr_fexp_digits m2 e1 loc_Exact Hm2) as [He2 Hd3].
  pose proof (shr_fexp_nonneg m2 e1 loc_Exact Hm2) as Hm3.
  destruct (shr_fexp prec emax m2 e1 loc_Exact) as [mrs2 e2]. simpl in He2, Hd3, Hm3.
  pose proof (Zdigits2_nonneg m). pose proof (Zdigits2_nonneg m2).
  unfold fexp, SpecFloat.emin, prec, emax in *.
  destruct (shr_m mrs2) as [|m3|m3]; simpl; [trivial| |lia].
  simpl Zdigits2 in Hd3.
  destruct (e2 <=? 1024 - 53) eqn:Ele; simpl.
  - lia.
  - apply Z.leb_gt in Ele. lia.
Qed.


Lemma digits2_pos_iter_xO d : forall m,
  Z.pos (digits2_pos (Pos.iter xO m d)) = Z.pos (digits2_pos m) + Z.pos d.
Proof.
  induction d as [d IH|d IH|]; intros m; simpl Pos.iter.
  - cbn [digits2_pos]. rewrite Pos2Z.inj_succ, IH, IH. lia.
  - rewrite IH, IH. lia.
  - cbn [digits2_pos]. lia.
Qed.

(** Aligning a mantissa to a smaller exponent keeps the magnitude. *)
Lemma shl_align_digits m e e' :
  Z.pos (digits2_pos (fst (shl_align m e e'))) + snd (shl_align m e e')
  = Z.pos (digits2_pos m) + e /\
  snd (shl_align m e e') = Z.min e e'.
Proof.
  unfold shl_align. destruct (e' - e) as [|d|d] eqn:E; simpl; try lia.
  rewrite digits2_pos_iter_xO. lia.
Qed.

Lemma binary_round_below s m e E :
  Z.pos (digits2_pos m) + e <= E -> emin <= E -> E <= 1023 ->
  sf_below (E + 1) (binary_round prec emax s m e).
Proof.
  intros HE Hmin Hmax. unfold binary_round.
  pose proof (shl_align_digits m e (fexp prec emax (Z.pos (digits2_pos m) + e)))
    as [Hd He].
  destruct (shl_align m e _) as [mz ez]; simpl in Hd, He.
  apply binary_round_aux_below; simpl Zdigits2; try lia.
  unfold fexp, SpecFloat.emin, prec, emax in *. lia.
Qed.

Lemma binary_normalize_below z e szero E :
  Zdigits2 z + e <= E -> emin <= E -> E <= 1023 ->
  sf_below (E + 1) (binary_normalize prec emax z e szero).
Proof.
  intros HE Hmin Hmax. destruct z as [|m|m]; simpl; [trivial| |];
    now apply binary_round_below.
Qed.

(** The exact sum or difference of two aligned mantissas. *)
Lemma aligned_sum_digits sx mx ex sy my ey E (sub : bool) :
  Z.pos (digits2_pos mx) + ex <= E -> Z.pos (digits2_pos my) + ey <= E ->
  let ez := Z.min ex ey in
  let a := cond_Zopp sx (Z.pos (fst (shl_align mx ex ez))) in
  let b := cond_Zopp sy (Z.pos (fst (shl_align my ey ez))) in
  Zdigits2 (if sub then a - b else a + b) + ez <= E + 1.
Proof.
  intros Hx Hy ez a b.
  pose proof (shl_align_digits mx ex ez) as [Hdx Hex].
  pose proof (shl_align_digits my ey ez) as [Hdy Hey].
  pose proof (pos_lt_pow_digits (fst (shl_align mx ex ez))) as Hbx.
  pose proof (pos_lt_pow_digits (fst (shl_align my ey ez))) as Hby.
  assert (Hez : snd (shl_align mx ex ez) = ez /\ snd (shl_align my ey ez) = ez)
    by (unfold ez in *; lia).
  destruct Hez as [Hez1 Hez2]. rewrite Hez1 in Hdx. rewrite Hez2 in Hdy.
  set (K := E - ez) in *.
  assert (HK : 1 <= K) by (unfold K; lia).
  assert (Hpx : 2 ^ Z.pos (digits2_pos (fst (shl_align mx ex ez))) <= 2 ^ K)
    by (apply Z.pow_le_mono_r; unfold K; lia).
  assert (Hpy : 2 ^ Z.pos (digits2_pos (fst (shl_align my ey ez))) <= 2 ^ K)
    by (apply Z.pow_le_mono_r; unfold K; lia).
  assert (Hbound : Z.abs (if sub then a - b else a + b) < 2 ^ (K + 1)).
  { rewrite Z.pow_add_r by lia. unfold a, b.
    destruct sub, sx, sy; simpl cond_Zopp; lia. }
  apply Zdigits2_bound in Hbound; [|lia]. unfold K in Hbound. lia.
Qed.

Lemma SF64sub_below E x y :
  sf_below E x -> sf_below E y -> emin <= E -> E <= 1022 ->
  sf_below (E + 2) (SF64sub x y).
Proof.
  intros Hx Hy Hmin Hmax. unfold SF64sub.
  destruct x as [sx|sx| |sx mx ex]; try contradiction;
    destruct y as [sy|sy| |sy my ey]; try contradiction; simpl SFsub.
  - destruct sx, sy; exact I.
  - simpl in *. lia.
  - simpl in *. lia.
  - replace (E + 2) with (E + 1 + 1) by lia.
    apply binary_normalize_below; try lia.
    apply (aligned_sum_digits sx mx ex sy my ey E true); assumption.
Qed.

Lemma SF64add_below E x y :
  sf_below E x -> sf_below E y -> emin <= E -> E <= 1022 ->
  sf_below (E + 2) (SF64add x y).
Proof.
  intros Hx Hy Hmin Hmax. unfold SF64add.
  destruct x as [sx|sx| |sx mx ex]; try contradiction;
    destruct y as [sy|sy| |sy my ey]; try contradiction; simpl SFadd.
  - destruct sx, sy; exact I.
  - simpl in *. lia.
  - simpl in *. lia.
  - replace (E + 2) with (E + 1 + 1) by lia.
    apply binary_normalize_below; try lia.
    apply (aligned_sum_digits sx mx ex sy my ey E false); assumption.
Qed.

Lemma SF64mul_below E x y :
  sf_below E x -> sf_below E y -> -537 <= E -> E <= 486 ->
  sf_below (2 * E + 1) (SF64mul x y).
Proof.
  intros Hx Hy Hmin Hmax. unfold SF64mul.
  destruct x as [sx|sx| |sx mx ex]; try contradiction;
    destruct y as [sy|sy| |sy my ey]; try contradiction; simpl SFmul;
    try exact I.
  simpl in Hx, Hy.
  pose proof (pos_lt_pow_digits mx) as Hbx.
  pose proof (pos_lt_pow_digits my) as Hby.
  assert (Hd : Zdigits2 (Z.pos (mx * my))
               <= Z.pos (digits2_pos mx) + Z.pos (digits2_pos my)).
  { apply Zdigits2_bound; [lia|].
    rewrite Z.pow_add_r by lia. rewrite Pos2Z.inj_mul.
    rewrite Z.abs_eq by lia. apply Z.mul_lt_mono_nonneg; lia. }
  apply binary_round_aux_below; unfold SpecFloat.emin, prec, emax; lia.
Qed.


Lemma shifted_mantissa_bound (mx : positive) (sh : Z) :
  0 <= sh ->
  let m' := match sh with
            | Z.pos _ => Z.shiftl (Z.pos mx) sh
            | Z0 => Z.pos mx
            | Z.neg _ => 0
            end in
  0 <= m' < 2 ^ (Z.pos (digits2_pos mx) + sh).
Proof.
  intros Hsh m'. pose proof (pos_lt_pow_digits mx) as Hb.
  rewrite Z.pow_add_r by lia.
  assert (0 < 2 ^ sh) by (apply Z.pow_pos_nonneg; lia).
  destruct sh as [|p|p]; [| |lia]; unfold m'.
  - rewrite Z.pow_0_r. lia.
  - rewrite Z.shiftl_mul_pow2 by lia. split; [lia|].
    apply Z.mul_lt_mono_pos_r; lia.
Qed.

Lemma SF64div_below E x s my ey :
  sf_below E x -> emin <= E - ey -> E - ey <= 972 ->
  sf_below (E - ey + 1) (SF64div x (S754_finite s my ey)).
Proof.
  intros Hx Hmin Hmax. unfold SF64div.
  destruct x as [sx|sx| |sx mx ex]; try contradiction; simpl SFdiv; [exact I|].
  simpl in Hx. unfold SFdiv_core_binary.
  set (e' := Z.min _ (ex - ey)).
  assert (Hsh : 0 <= ex - ey - e') by (unfold e'; lia).
  pose proof (shifted_mantissa_bound mx (ex - ey - e') Hsh) as Hm'.
  cbv zeta in Hm'.
  set (m' := match ex - ey - e' with Z0 => _ | _ => _ end) in *.
  pose proof (Z.div_pos m' (Z.pos my) ltac:(lia) ltac:(lia)) as Hq0.
  assert (Hq1 : m' / Z.pos my <= m')
    by (apply Z.div_le_upper_bound; nia).
  unfold Z.div in Hq0, Hq1.
  destruct (Z.div_eucl m' (Z.pos my)) as [q r].
  apply binary_round_aux_below; unfold SpecFloat.emin, prec, emax in *; try lia.
  assert (Zdigits2 q <= Z.pos (digits2_pos mx) + (ex - ey - e'))
    by (apply Zdigits2_bound; lia).
  lia.
Qed.

Lemma sqrt_lt_pow2 a K :
  0 <= a < 2 ^ K -> 0 <= K -> Z.sqrt a < 2 ^ ((K + 1) / 2).
Proof.
  intros Ha HK.
  assert (HH : 0 <= (K + 1) / 2 /\ K <= 2 * ((K + 1) / 2))
    by (split; [apply Z.div_pos; lia|]; pose proof (Z.div_mod (K + 1) 2 ltac:(lia));
        pose proof (Z.mod_pos_bound (K + 1) 2 ltac:(lia)); lia).
  destruct HH as [H0 H1].
  apply Z.sqrt_lt_square; [lia|apply Z.pow_nonneg; lia|].
  rewrite <- Z.pow_add_r by lia.
  assert (2 ^ K <= 2 ^ ((K + 1) / 2 + (K + 1) / 2))
    by (apply Z.pow_le_mono_r; lia).
  lia.
Qed.

(** The square root of a number below [2 ^ 1023] is finite. *)
Lemma SF64sqrt_finite E x :
  sf_nonneg x = true -> sf_below E x -> E <= 1023 ->
  sf_is_finite (SF64sqrt x) = true.
Proof.
  intros Hpos Hx Hmax. unfold SF64sqrt.
  destruct x as [sx|sx| |[] mx ex]; try contradiction; try discriminate;
    simpl SFsqrt; [reflexivity|].
  simpl in Hx. unfold SFsqrt_core_binary.
  set (d := Zdigits2 (Z.pos mx)). simpl in d.
  set (e' := Z.min _ (Z.div2 ex)).
  pose proof (Z.div2_odd ex) as Hex.
  assert (Hb : 0 <= Z.b2z (Z.odd ex) <= 1) by (destruct (Z.odd ex); simpl; lia).
  assert (Hsh : 0 <= ex - 2 * e') by (unfold e'; lia).
  pose proof (shifted_mantissa_bound mx (ex - 2 * e') Hsh) as Hm'.
  cbv zeta in Hm'.
  set (m' := match ex - 2 * e' with Z0 => _ | _ => _ end) in *.
  pose proof (sqrtrem_fst_nonneg m') as Hq0.
  pose proof (sqrt_lt_pow2 m' _ Hm' ltac:(lia)) as Hq1.
  rewrite <- Z.sqrtrem_sqrt in Hq1.
  destruct (Z.sqrtrem m') as [q r]. simpl in Hq0, Hq1.
  set (H := (Z.pos (digits2_pos mx) + (ex - 2 * e') + 1) / 2) in *.
  assert (HH : 2 * H <= Z.pos (digits2_pos mx) + (ex - 2 * e') + 1).
  { unfold H. pose proof (Z.div_mod (Z.pos (digits2_pos mx) + (ex - 2 * e') + 1) 2 ltac:(lia)).
    pose proof (Z.mod_pos_bound (Z.pos (digits2_pos mx) + (ex - 2 * e') + 1) 2 ltac:(lia)).
    lia. }
  assert (H0 : 0 <= H) by (apply Z.div_pos; lia).
  assert (Hd : Zdigits2 q <= H) by (apply Zdigits2_bound; lia).
  assert (He' : e' <= Z.max (Z.div2 (d + ex + 1) - 53) (-1074)).
  { unfold e', fexp, SpecFloat.emin, prec, emax. lia. }
  pose proof (Z.div2_odd (d + ex + 1)) as Hde.
  assert (Hb2 : 0 <= Z.b2z (Z.odd (d + ex + 1)) <= 1)
    by (destruct (Z.odd (d + ex + 1)); simpl; lia).
  unfold d in *.
  apply (sf_below_finite (Z.max (H + e') emin + 1)).
  apply binary_round_aux_below; unfold SpecFloat.emin, prec, emax in *; lia.
Qed.

(** ** The same facts on primitive floats *)

Local Open Scope float_scope.

Lemma SFcompare_refl x : SFcompare x x = if sf_is_nan x then None else Some Eq.
Proof.
  destruct x as [s|s| |s m e]; simpl; trivial.
  - destruct s; reflexivity.
  - rewrite Z.compare_refl, Pos.compare_cont_refl. destruct s; reflexivity.
Qed.

Lemma is_nan_spec x : is_nan x = sf_is_nan (Prim2SF x).
Proof.
  unfold is_nan. rewrite FloatAxioms.eqb_spec. unfold SFeqb. rewrite SFcompare_refl.
  destruct (sf_is_nan (Prim2SF x)); reflexivity.
Qed.

Lemma Prim2SF_infinity : Prim2SF infinity = S754_infinity false.
Proof. reflexivity. Qed.

Lemma is_infinity_spec x :
  is_infinity x = match Prim2SF x with S754_infinity _ => true | _ => false end.
Proof.
  unfold is_infinity. rewrite FloatAxioms.eqb_spec, abs_spec, Prim2SF_infinity.
  destruct (Prim2SF x) as [s|s| |s m e]; reflexivity.
Qed.

Lemma is_finite_spec x : is_finite x = sf_is_finite (Prim2SF x).
Proof.
  unfold is_finite. rewrite is_nan_spec, is_infinity_spec.
  destruct (Prim2SF x) as [s|s| |s m e]; reflexivity.
Qed.

Lemma is_finite_not_nan x : is_finite x = true -> is_nan x = false.
Proof.
  rewrite is_finite_spec, is_nan_spec. destruct (Prim2SF x); auto; discriminate.
Qed.

Lemma is_nan_not_finite x : is_nan x = true -> is_finite x = false.
Proof.
  rewrite is_finite_spec, is_nan_spec. destruct (Prim2SF x); auto; discriminate.
Qed.

Lemma is_nan_eq x : is_nan x = true -> x = nan.
Proof.
  rewrite is_nan_spec; intros H. apply Prim2SF_inj.
  destruct (Prim2SF x); try discriminate. reflexivity.
Qed.

(** Zero, or positive (finite or infinite). *)
Definition nonneg (x : float) : bool := sf_nonneg (Prim2SF x).

Lemma nonneg_not_nan x : nonneg x = true -> is_nan x = false.
Proof.
  unfold nonneg. rewrite is_nan_spec. destruct (Prim2SF x); auto; discriminate.
Qed.

Lemma eqb_refl x : is_nan x = false -> (x =? x) = true.
Proof. unfold is_nan. destruct (x =? x); auto; discriminate. Qed.

Lemma sub_not_nan x y :
  is_finite x = true -> is_nan y = false -> is_nan (x - y) = false.
Proof.
  rewrite is_finite_spec, !is_nan_spec, sub_spec. apply SF64sub_not_nan.
Qed.

Lemma mul_square_nonneg x : is_nan x = false -> nonneg (x * x) = true.
Proof.
  unfold nonneg. rewrite is_nan_spec, mul_spec. apply SF64mul_square.
Qed.

Lemma add_nonneg x y :
  nonneg x = true -> nonneg y = true -> nonneg (x + y) = true.
Proof. unfold nonneg. rewrite add_spec. apply SF64add_nonneg. Qed.

Lemma sqrt_not_nan x : nonneg x = true -> is_nan (sqrt x) = false.
Proof.
  unfold nonneg. rewrite is_nan_spec, sqrt_spec. apply SF64sqrt_not_nan.
Qed.

Lemma sqrt_nonneg x : nonneg x = true -> nonneg (sqrt x) = true.
Proof. unfold nonneg. rewrite sqrt_spec. apply SF64sqrt_nonneg. Qed.

Lemma div_pos_not_nan x c m e :
  Prim2SF c = S754_finite false m e ->
  is_nan x = false -> is_nan (x / c) = false.
Proof.
  intros Hc. rewrite !is_nan_spec, div_spec, Hc. apply SF64div_pos_not_nan.
Qed.

(** ** Comparisons against [+Infinity] *)

Lemma infinity_not_ltb x : (infinity <? x) = false.
Proof.
  rewrite FloatAxioms.ltb_spec, Prim2SF_infinity. unfold SFltb.
  destruct (Prim2SF x) as [s|[]| |s m e]; reflexivity.
Qed.

Lemma leb_infinity x : is_nan x = false -> (x <=? infinity) = true.
Proof.
  rewrite is_nan_spec, FloatAxioms.leb_spec, Prim2SF_infinity. unfold SFleb.
  destruct (Prim2SF x) as [s|[]| |s m e]; try discriminate; reflexivity.
Qed.

Lemma not_ltb_infinity x :
  is_nan x = false -> (x <? infinity) = false -> (x =? infinity) = true.
Proof.
  rewrite is_nan_spec, FloatAxioms.ltb_spec, FloatAxioms.eqb_spec, Prim2SF_infinity.
  unfold SFltb, SFeqb.
  destruct (Prim2SF x) as [s|[]| |s m e]; try discriminate; reflexivity.
Qed.

(** ** Propagation of NaN and of infinities *)

Lemma add_nan_l x : nan + x = nan.
Proof. apply Prim2SF_inj. rewrite add_spec. reflexivity. Qed.

Lemma add_nan_r x : x + nan = nan.
Proof.
  apply Prim2SF_inj. rewrite add_spec.
  change (Prim2SF nan) with S754_nan. destruct (Prim2SF x); reflexivity.
Qed.

Lemma mul_nan_l x : nan * x = nan.
Proof. apply Prim2SF_inj. rewrite mul_spec. reflexivity. Qed.

Lemma mul_nan_r x : x * nan = nan.
Proof.
  apply Prim2SF_inj. rewrite mul_spec.
  change (Prim2SF nan) with S754_nan. destruct (Prim2SF x); reflexivity.
Qed.

Lemma sub_nan_r x : x - nan = nan.
Proof.
  apply Prim2SF_inj. rewrite sub_spec.
  change (Prim2SF nan) with S754_nan. destruct (Prim2SF x); reflexivity.
Qed.

Lemma sqrt_nan : sqrt nan = nan.
Proof. reflexivity. Qed.

Lemma sub_not_finite x y :
  is_finite x = false \/ is_finite y = false -> is_finite (x - y) = false.
Proof.
  rewrite !is_finite_spec, sub_spec. unfold SF64sub.
  destruct (Prim2SF x) as [sx|sx| |sx mx ex], (Prim2SF y) as [sy|sy| |sy my ey];
    simpl; intros [H|H]; try discriminate; try reflexivity;
    destruct sx, sy; reflexivity.
Qed.

Lemma mul_finite_not_finite x c s m e :
  Prim2SF c = S754_finite s m e ->
  is_finite x = false -> is_finite (x * c) = false.
Proof.
  intros Hc. rewrite !is_finite_spec, mul_spec, Hc. unfold SF64mul.
  destruct (Prim2SF x) as [sx|sx| |sx mx ex]; simpl; intros H;
    try discriminate; reflexivity.
Qed.

Lemma div_finite_not_finite x c s m e :
  Prim2SF c = S754_finite s m e ->
  is_finite x = false -> is_finite (x / c) = false.
Proof.
  intros Hc. rewrite !is_finite_spec, div_spec, Hc. unfold SF64div.
  destruct (Prim2SF x) as [sx|sx| |sx mx ex]; simpl; intros H;
    try discriminate; reflexivity.
Qed.

(** ** Zeros of either sign *)

Lemma is_zero_spec x : (x =? 0) = sf_is_zero (Prim2SF x).
Proof.
  rewrite FloatAxioms.eqb_spec. change (Prim2SF 0) with (S754_zero false).
  unfold SFeqb. destruct (Prim2SF x) as [s|[]| |[] m e]; reflexivity.
Qed.

Lemma square_sub_eqz x x' y y' :
  Prim2SF x' = sf_unsign_zero (Prim2SF x) ->
  Prim2SF y' = sf_unsign_zero (Prim2SF y) ->
  (x' - y') * (x' - y') = (x - y) * (x - y).
Proof.
  intros Hx Hy. apply Prim2SF_inj.
  rewrite !mul_spec, !sub_spec, Hx, Hy.
  apply SF64mul_eqz, SF64sub_unsign_zero.
Qed.

Lemma square_sub_div_eqz x x' y y' c s m e :
  Prim2SF c = S754_finite s m e ->
  Prim2SF x' = sf_unsign_zero (Prim2SF x) ->
  Prim2SF y' = sf_unsign_zero (Prim2SF y) ->
  ((x' - y') / c) * ((x' - y') / c) = ((x - y) / c) * ((x - y) / c).
Proof.
  intros Hc Hx Hy. apply Prim2SF_inj.
  rewrite !mul_spec, !div_spec, !sub_spec, Hx, Hy, Hc.
  apply SF64mul_eqz, SF64div_eqz, SF64sub_unsign_zero.
Qed.

(** On numbers, [x < y] is the negation of [y <= x]. *)
Lemma ltb_negb_leb x y :
  is_nan x = false -> is_nan y = false -> (x <? y) = negb (y <=? x).
Proof.
  rewrite !is_nan_spec, FloatAxioms.ltb_spec, FloatAxioms.leb_spec.
  unfold SFltb, SFleb. rewrite (SFcompare_antisym (Prim2SF x) (Prim2SF y)).
  intros Hx Hy.
  destruct (SFcompare (Prim2SF x) (Prim2SF y)) as [[]|] eqn:E; try reflexivity.
  destruct (Prim2SF x), (Prim2SF y); discriminate.
Qed.

(** A finite number minus itself is [+0]. *)
Lemma sub_diag_finite x : is_finite x = true -> x - x = 0.
Proof.
  rewrite is_finite_spec. intros Hx. apply Prim2SF_inj.
  rewrite sub_spec. change (Prim2SF 0) with (S754_zero false).
  unfold SF64sub.
  destruct (Prim2SF x) as [s|s| |s m e]; try discriminate; simpl SFsub.
  - destruct s; reflexivity.
  - now rewrite Z.sub_diag.
Qed.

(** ** Magnitudes of primitive floats *)

(** Zero, or finite and below [2 ^ E] in absolute value. *)
Definition below (E : Z) (x : float) : Prop := sf_below E (Prim2SF x).

Lemma below_finite E x : below E x -> is_finite x = true.
Proof. rewrite is_finite_spec. apply sf_below_finite. Qed.

Lemma below_mono E E' x : (E <= E')%Z -> below E x -> below E' x.
Proof. apply sf_below_mono. Qed.

Lemma sub_below E x y :
  below E x -> below E y -> (emin <= E)%Z -> (E <= 1022)%Z ->
  below (E + 2) (x - y).
Proof. unfold below. rewrite sub_spec. apply SF64sub_below. Qed.

Lemma add_below E x y :
  below E x -> below E y -> (emin <= E)%Z -> (E <= 1022)%Z ->
  below (E + 2) (x + y).
Proof. unfold below. rewrite add_spec. apply SF64add_below. Qed.

Lemma mul_below E x y :
  below E x -> below E y -> (-537 <= E)%Z -> (E <= 486)%Z ->
  below (2 * E + 1) (x * y).
Proof. unfold below. rewrite mul_spec. apply SF64mul_below. Qed.

Lemma div_below E x c s m e :
  Prim2SF c = S754_finite s m e ->
  below E x -> (emin <= E - e)%Z -> (E - e <= 972)%Z ->
  below (E - e + 1) (x / c).
Proof. intros Hc. unfold below. rewrite div_spec, Hc. apply SF64div_below. Qed.

Lemma sqrt_finite E x :
  nonneg x = true -> below E x -> (E <= 1023)%Z -> is_finite (sqrt x) = true.
Proof.
  unfold nonneg, below. rewrite is_finite_spec, sqrt_spec. apply SF64sqrt_finite.
Qed.

(** A float that compares at most [b] in absolute value has a mantissa of at
    most 53 bits and an exponent no larger than that of [b]. *)
Lemma leb_below x b mb eb :
  Prim2SF b = S754_finite false mb eb ->
  (abs x <=? b) = true -> below (53 + eb) x.
Proof.
  intros Hb. unfold below.
  rewrite FloatAxioms.leb_spec, abs_spec, Hb.
  pose proof (Prim2SF_valid x) as Hv.
  destruct (Prim2SF x) as [s|s| |s m e]; simpl; try discriminate; [trivial|].
  unfold SFleb. simpl SFcompare.
  unfold valid_binary, bounded, canonical_mantissa in Hv.
  apply andb_true_iff in Hv as [Hc _]. apply Z.eqb_eq in Hc.
  unfold fexp, SpecFloat.emin, prec, emax in Hc.
  destruct (Z.compare_spec e eb); try discriminate; intros _; lia.
Qed.

End Ieee.

(* ===================================================================== *)
(** * The JavaScript built-ins the source relies on *)
(* ===================================================================== *)

Module JS.

Local Open Scope float_scope.

(** The values stored in the fields the code reads: absent ([undefined]),
    [null], a number, or a string (CSV cells and SQL numerics arrive as
    strings). *)
Inductive value : Type :=
  | Undefined
  | Null
  | Num (x : float)
  | Str (s : string).

(** How a call completes: normally with a value, or abruptly with an error. *)
Inductive error : Type := InvalidInputError | TypeError | RangeError.

Inductive completion (A : Type) : Type :=
  | Return (v : A)
  | Throw (e : error).
Arguments Return {A} v.
Arguments Throw {A} e.

Definition bind {A B} (c : completion A) (k : A -> completion B) : completion B :=
  match c with
  | Return v => k v
  | Throw e => Throw e
  end.

Notation "'let*' x ':=' c 'in' k" := (bind c (fun x => k))
  (at level 10, x name, c at level 100, k at level 200).

(** ** Numbers from text *)

(** The Number nearest to an integer (ties to even). *)
Definition of_Z (z : Z) : float := SF2Prim (binary_normalize prec emax z 0 false).

(** The Number nearest to [mant * 10 ^ e10], for [0 <= mant].  For a negative
    exponent the quotient is computed with 64 extra bits and a sticky bit,
    which rounds like the exact value. *)
Definition of_decimal (mant e10 : Z) : float :=
  if (mant =? 0)%Z then zero
  else if (0 <=? e10)%Z then
    if (400 <? e10)%Z then infinity else of_Z (mant * 10 ^ e10)
  else if (Z.log2 mant / 3 + 1 + e10 <? -330)%Z then zero
  else
    let d := (10 ^ (- e10))%Z in
    let s := (Z.log2 d + 64)%Z in
    let (q, r) := Z.div_eucl (mant * 2 ^ s) d in
    let sticky := if (r =? 0)%Z then 0%Z else 1%Z in
    SF2Prim (binary_normalize prec emax (2 * q + sticky) (- s - 1) false).

Definition signed (neg : bool) (x : float) : float := if neg then - x else x.

Definition is_space (c : ascii) : bool :=
  let n := nat_of_ascii c in
  ((9 <=? n) && (n <=? 13) || (n =? 32))%nat.

Definition is_digit (c : ascii) : bool :=
  let n := nat_of_ascii c in ((48 <=? n) && (n <=? 57))%nat.

Definition digit_val (c : ascii) : Z := (Z.of_nat (nat_of_ascii c) - 48)%Z.

Definition hex_val (c : ascii) : option Z :=
  let n := nat_of_ascii c in
  if ((48 <=? n) && (n <=? 57))%nat then Some (Z.of_nat n - 48)%Z
  else if ((65 <=? n) && (n <=? 70))%nat then Some (Z.of_nat n - 55)%Z
  else if ((97 <=? n) && (n <=? 102))%nat then Some (Z.of_nat n - 87)%Z
  else None.

Fixpoint trim_start (s : string) : string :=
  match s with
  | String c r => if is_space c then trim_start r else s
  | EmptyString => s
  end.

Definition read_sign (s : string) : bool * string :=
  match s with
  | String "-" r => (true, r)
  | String "+" r => (false, r)
  | _ => (false, s)
  end.

(** Reads the longest run of decimal digits: the value accumulated on top of
    [acc], the number of digits read, and the rest of the text. *)
Fixpoint read_digits (acc n : Z) (s : string) : Z * Z * string :=
  match s with
  | String c r =>
      if is_digit c then read_digits (10 * acc + digit_val c) (n + 1) r
      else (acc, n, s)
  | EmptyString => (acc, n, s)
  end.

Fixpoint read_hex (acc n : Z) (s : string) : Z * Z :=
  match s with
  | String c r =>
      match hex_val c with
      | Some d => read_hex (16 * acc + d) (n + 1) r
      | None => (acc, n)
      end
  | EmptyString => (acc, n)
  end.

(** The exponent part [e±ddd], counted only when it is complete. *)
Definition read_exponent (s : string) : Z :=
  match s with
  | String c r =>
      if (Ascii.eqb c "e" || Ascii.eqb c "E")%bool then
        let '(neg, r1) := read_sign r in
        let '(v, n, _) := read_digits 0 0 r1 in
        if (n =? 0)%Z then 0%Z else if neg then (- v)%Z else v
      else 0%Z
  | EmptyString => 0%Z
  end.

(** [parseFloat] on a string: leading white space is skipped, then the
    longest prefix that is a decimal literal is read; [NaN] when there is
    none.  Strings are taken to be ASCII text, as the cells of the data file
    are. *)
Definition parseFloat_string (s : string) : float :=
  let '(neg, s1) := read_sign (trim_start s) in
  if String.prefix "Infinity" s1 then signed neg infinity
  else
    let '(ip, ni, s2) := read_digits 0 0 s1 in
    let '(mant, nf, s3) :=
      match s2 with
      | String "." r => read_digits ip 0 r
      | _ => (ip, 0%Z, s2)
      end in
    if (ni + nf =? 0)%Z then nan
    else signed neg (of_decimal mant (read_exponent s3 - nf)).

(** [parseInt] on a string with no radix argument: white space, a sign, an
    optional [0x] prefix, then the longest run of digits. *)
Definition parseInt_string (s : string) : float :=
  let '(neg, s1) := read_sign (trim_start s) in
  match s1 with
  | String "0" (String x r) =>
      if (Ascii.eqb x "x" || Ascii.eqb x "X")%bool then
        let '(v, n) := read_hex 0 0 r in
        if (n =? 0)%Z then nan else signed neg (of_Z v)
      else
        let '(v, _, _) := read_digits 0 0 s1 in signed neg (of_Z v)
  | _ =>
      let '(v, n, _) := read_digits 0 0 s1 in
      if (n =? 0)%Z then nan else signed neg (of_Z v)
  end.

(** [parseFloat(v)] first converts [v] to a string.  [undefined] and [null]
    print as words with no digits; a number prints as its shortest decimal
    form, which reads back as the same number (the sign of zero is lost). *)
Definition parseFloat (v : value) : float :=
  match v with
  | Undefined | Null => nan
  | Num x => if x =? 0 then zero else x
  | Str s => parseFloat_string s
  end.

(** A CSV cell: the text of the column, or nothing when the column is absent. *)
Definition cell (c : option string) : value :=
  match c with Some s => Str s | None => Undefined end.

Definition parseInt (c : option string) : float :=
  match c with Some s => parseInt_string s | None => nan end.

(** ** Truthiness and [x || 0] on numbers *)

Definition truthy (x : float) : bool := negb (is_nan x || (x =? 0)).

Definition or_zero (x : float) : float := if truthy x then x else 0.

(** ** [Math.min(...args)] and [Array.prototype.indexOf] on numbers *)

Fixpoint Math_min_from (lowest : float) (args : list float) : float :=
  match args with
  | [] => lowest
  | x :: rest =>
      if is_nan x then nan
      else
        let lowest :=
          if (Leibniz.eqb x neg_zero && Leibniz.eqb lowest zero)%bool then x
          else if x <? lowest then x else lowest in
        Math_min_from lowest rest
  end.

Definition Math_min (args : list float) : float := Math_min_from infinity args.

(** Strict equality [===] on numbers is the IEEE comparison. *)
Fixpoint indexOf_from (i : Z) (l : list float) (x : float) : Z :=
  match l with
  | [] => (-1)%Z
  | y :: r => if y =? x then i else indexOf_from (i + 1)%Z r x
  end.

Definition indexOf (l : list float) (x : float) : Z := indexOf_from 0 l x.

(** ** The transcendental functions of [Math]

    ECMAScript leaves their values to the implementation, so the model takes
    them as a parameter. *)
Record MathLib : Type := {
  Math_sin : float -> float;
  Math_cos : float -> float;
  Math_atan2 : float -> float -> float
}.

(** What ECMAScript fixes for them on NaN and infinite arguments. *)
Record conforming (M : MathLib) : Prop := {
  sin_not_finite : forall x, is_finite x = false -> Math_sin M x = nan;
  cos_not_finite : forall x, is_finite x = false -> Math_cos M x = nan;
  atan2_nan_l : forall x, Math_atan2 M nan x = nan;
  atan2_nan_r : forall x, Math_atan2 M x nan = nan
}.

Definition Math_PI : float := 3.141592653589793.

End JS.

(* ===================================================================== *)
(** * scripts/importData.js *)
(* ===================================================================== *)

Module ImportData.

Import JS.
Local Open Scope float_scope.

Record bounds : Type := {
  minLat : float;
  maxLat : float;
  minLon : float;
  maxLon : float
}.

(** NYC bounds for coordinate validation *)
Definition NYC_BOUNDS : bounds :=
  {| minLat := 40.4774; maxLat := 40.9176; minLon := -74.2591; maxLon := -73.7004 |}.

(** Borough boundaries (simplified).  [Object.entries] walks the keys in the
    order they were written. *)
Definition BOROUGHS : list (string * bounds) :=
  [ ("Manhattan"%string,
      {| minLat := 40.7000; maxLat := 40.8000; minLon := -74.0500; maxLon := -73.9000 |});
    ("Brooklyn"%string,
      {| minLat := 40.5700; maxLat := 40.7400; minLon := -74.0500; maxLon := -73.8000 |});
    ("Queens"%string,
      {| minLat := 40.5400; maxLat := 40.8000; minLon := -74.0000; maxLon := -73.7000 |});
    ("Bronx"%string,
      {| minLat := 40.7800; maxLat := 40.9200; minLon := -73.9500; maxLon := -73.7500 |});
    ("Staten Island"%string,
      {| minLat := 40.5000; maxLat := 40.6500; minLon := -74.3000; maxLon := -74.0000 |}) ].

(** [lat >= b.minLat && lat <= b.maxLat && lon >= b.minLon && lon <= b.maxLon] *)
Definition within (b : bounds) (lat lon : float) : bool :=
  (minLat b <=? lat) && (lat <=? maxLat b) &&
  (minLon b <=? lon) && (lon <=? maxLon b).

(** A row of the CSV file, as [csv-parser] hands it over: every cell is
    text; a column the file does not have reads as [undefined]. *)
Record RawTripRecord : Type := {
  pickup_latitude : option string;
  pickup_longitude : option string;
  dropoff_latitude : option string;
  dropoff_longitude : option string;
  trip_duration : option string;
  passenger_count : option string
}.

(** The derived fields of an enriched record.  The three numeric ones are
    kept as numbers, before [toFixed] prints them; the calendar fields read
    off the pickup time are not part of the model. *)
Record EnrichedFields : Type := {
  distance_km : float;
  speed_kmh : float;
  fare_per_km : float;
  pickup_borough : string;
  dropoff_borough : string;
  trip_type : string
}.

Section WithMath.

Variable M : MathLib.

Definition calculateDistance (lat1 lon1 lat2 lon2 : float) : completion float :=
  let R := 6371 in
  let dLat := (lat2 - lat1) * Math_PI / 180 in
  let dLon := (lon2 - lon1) * Math_PI / 180 in
  let a := Math_sin M (dLat / 2) * Math_sin M (dLat / 2) +
           Math_cos M (lat1 * Math_PI / 180) * Math_cos M (lat2 * Math_PI / 180) *
           Math_sin M (dLon / 2) * Math_sin M (dLon / 2) in
  let c := 2 * Math_atan2 M (sqrt a) (sqrt (1 - a)) in
  Return (R * c).

(** The [for ... of Object.entries(...)] loop of [getBorough], over any
    table of rectangles. *)
Fixpoint getBorough_in (entries : list (string * bounds)) (lat lon : float)
  : completion string :=
  match entries with
  | [] => Return "Unknown"%string
  | (borough, b) :: rest =>
      if within b lat lon then Return borough
      else getBorough_in rest lat lon
  end.

Definition getBorough (lat lon : float) : completion string :=
  getBorough_in BOROUGHS lat lon.

Definition isValidCoordinate_in (B : bounds) (lat lon : float) : completion bool :=
  Return (negb (lat =? 0) && negb (lon =? 0) && within B lat lon).

Definition isValidCoordinate (lat lon : float) : completion bool :=
  isValidCoordinate_in NYC_BOUNDS lat lon.

Definition isValidTrip (record : RawTripRecord) : completion bool :=
  let pickupLat := parseFloat (cell (pickup_latitude record)) in
  let pickupLon := parseFloat (cell (pickup_longitude record)) in
  let dropoffLat := parseFloat (cell (dropoff_latitude record)) in
  let dropoffLon := parseFloat (cell (dropoff_longitude record)) in
  let duration := parseInt (trip_duration record) in
  let passengers := parseInt (passenger_count record) in
  (* Basic validation *)
  let* pickupOk := isValidCoordinate pickupLat pickupLon in
  let* rejected :=
    (if negb pickupOk then Return true
     else let* dropoffOk := isValidCoordinate dropoffLat dropoffLon in
          Return (negb dropoffOk)) in
  if rejected then Return false
  (* Duration validation (between 30 seconds and 3 hours) *)
  else if (duration <? 30) || (10800 <? duration) then Return false
  (* Passenger count validation *)
  else if (passengers <? 1) || (6 <? passengers) then Return false
  else
    (* Distance validation (minimum 0.1km, maximum 100km) *)
    let* distance := calculateDistance pickupLat pickupLon dropoffLat dropoffLon in
    if (distance <? 0.1) || (100 <? distance) then Return false
    else Return true.

Definition enrichTripData (record : RawTripRecord) : completion EnrichedFields :=
  let pickupLat := parseFloat (cell (pickup_latitude record)) in
  let pickupLon := parseFloat (cell (pickup_longitude record)) in
  let dropoffLat := parseFloat (cell (dropoff_latitude record)) in
  let dropoffLon := parseFloat (cell (dropoff_longitude record)) in
  let duration := parseInt (trip_duration record) in
  let* distance := calculateDistance pickupLat pickupLon dropoffLat dropoffLon in
  let speed := distance / (duration / 3600) in
  let* pickupBorough := getBorough pickupLat pickupLon in
  let* dropoffBorough := getBorough dropoffLat dropoffLon in
  (* Determine trip type based on boroughs *)
  let tripType :=
    if negb (String.eqb pickupBorough dropoffBorough) &&
       negb (String.eqb pickupBorough "Unknown") &&
       negb (String.eqb dropoffBorough "Unknown")
    then "Cross Borough"%string
    else "Within Borough"%string in
  Return {| distance_km := distance;
            speed_kmh := speed;
            fare_per_km := parseFloat (cell (trip_duration record)) / distance;
            pickup_borough := pickupBorough;
            dropoff_borough := dropoffBorough;
            trip_type := tripType |}.

End WithMath.

End ImportData.

(* ===================================================================== *)
(** * The [TripClusterer] class of the server *)
(* ===================================================================== *)

Module TripClusterer.

Import JS.
Local Open Scope float_scope.

(** A feature point: an object of which the code reads the fields [lat],
    [lon] and [duration] (a field the object does not have reads as
    [undefined]). *)
Record point : Type := {
  lat : value;
  lon : value;
  duration : value
}.

(** [{ ...o }]: a copy of the fields of [o]; spreading [undefined] gives the
    object with no field. *)
Definition spread (o : option point) : point :=
  match o with
  | Some p => p
  | None => {| lat := Undefined; lon := Undefined; duration := Undefined |}
  end.

(** An argument is [None] when it is [null] or [undefined]. *)
Definition calculateDistance (point1 point2 : option point) : float :=
  match point1, point2 with
  | Some point1, Some point2 =>
      let lat1 := or_zero (parseFloat (lat point1)) in
      let lat2 := or_zero (parseFloat (lat point2)) in
      let lon1 := or_zero (parseFloat (lon point1)) in
      let lon2 := or_zero (parseFloat (lon point2)) in
      let dur1 := or_zero (parseFloat (duration point1)) in
      let dur2 := or_zero (parseFloat (duration point2)) in
      let latDiff := lat1 - lat2 in
      let lonDiff := lon1 - lon2 in
      let durationDiff := (dur1 - dur2) / 1000 in (* Normalize duration *)
      sqrt (latDiff * latDiff + lonDiff * lonDiff + durationDiff * durationDiff)
  | _, _ => infinity
  end.

Section WithRandom.

(** The random source of a run: [rnd i] is the index that the [i]-th
    evaluation of [Math.floor(Math.random() * data.length)] produces. *)
Variable rnd : nat -> nat.

(** [do { randomIndex = ... } while (usedIndices.has(randomIndex))], drawing
    from position [pos] of the source, at most [fuel] times.  The result is
    the index kept and the position after it. *)
Fixpoint sample_unused (fuel : nat) (usedIndices : gset nat) (pos : nat)
  : option (nat * nat) :=
  match fuel with
  | O => None
  | S fuel =>
      let randomIndex := rnd pos in
      if decide (randomIndex ∈ usedIndices)
      then sample_unused fuel usedIndices (S pos)
      else Some (randomIndex, S pos)
  end.

(** The [for] loop of [initializeCentroids] with [n] rounds to go. *)
Fixpoint initializeCentroids_loop (fuel : nat) (data : list point) (n : nat)
    (centroids : list point) (usedIndices : gset nat) (pos : nat)
  : option (list point * nat) :=
  match n with
  | O => Some (centroids, pos)
  | S n =>
      match sample_unused fuel usedIndices pos with
      | None => None
      | Some (randomIndex, pos) =>
          initializeCentroids_loop fuel data n
            (centroids ++ [spread (data !! randomIndex)])
            ({[randomIndex]} ∪ usedIndices) pos
      end
  end.

Definition initializeCentroids (fuel : nat) (data : list point) (k : Z) (pos : nat)
  : option (list point * nat) :=
  initializeCentroids_loop fuel data (Z.to_nat k) [] ∅ pos.

(** The body of [data.forEach]: the point joins the cluster of its nearest
    centroid, when [indexOf] finds one. *)
Definition assignPoint (centroids : list point) (clusters : list (list point))
    (p : point) : list (list point) :=
  let distances :=
    map (fun centroid => calculateDistance (Some p) (Some centroid)) centroids in
  let nearestIndex := indexOf distances (Math_min distances) in
  if (0 <=? nearestIndex)%Z && (nearestIndex <? Z.of_nat (length clusters))%Z
  then alter (fun cluster => cluster ++ [p]) (Z.to_nat nearestIndex) clusters
  else clusters.

(** [clusters = Array(k).fill().map(() => [])] followed by [data.forEach]. *)
Definition assignPoints (data centroids : list point) (k : Z) : list (list point) :=
  fold_left (assignPoint centroids) data (replicate (Z.to_nat k) []).

(** [cluster.reduce((sum, p) => sum + parseFloat(p.f), 0) / cluster.length] *)
Definition average (f : point -> value) (cluster : list point) : float :=
  fold_left (fun sum p => sum + parseFloat (f p)) cluster 0
  / of_Z (Z.of_nat (length cluster)).

(** [clusters.map(...)]: an empty cluster is reseeded with a random point. *)
Fixpoint updateCentroids (data : list point) (clusters : list (list point))
    (pos : nat) : list point * nat :=
  match clusters with
  | [] => ([], pos)
  | cluster :: rest =>
      let '(centroid, pos) :=
        if (length cluster =? 0)%nat then
          let randomIndex := rnd pos in
          (spread (data !! randomIndex), S pos)
        else
          let avgLat := average lat cluster in
          let avgLon := average lon cluster in
          let avgDuration := average duration cluster in
          ({| lat := Num avgLat; lon := Num avgLon; duration := Num avgDuration |}, pos) in
      let '(newCentroids, pos) := updateCentroids data rest pos in
      (centroid :: newCentroids, pos)
  end.

(** [centroids.every((centroid, i) => distance(centroid, newCentroids[i]) < 0.001)] *)
Definition converged (centroids newCentroids : list point) : bool :=
  forallb (fun b : bool => b)
    (imap (fun i centroid =>
             calculateDistance (Some centroid) (newCentroids !! i) <? 0.001)
          centroids).

(** The main loop with [n] iterations to go; [clusters] is the assignment of
    the previous iteration. *)
Fixpoint iterate (data : list point) (k : Z) (n : nat) (centroids : list point)
    (clusters : list (list point)) (pos : nat) : list (list point) :=
  match n with
  | O => clusters
  | S n =>
      let clusters := assignPoints data centroids k in
      let '(newCentroids, pos) := updateCentroids data clusters pos in
      if converged centroids newCentroids then clusters
      else iterate data k n newCentroids clusters pos
  end.

(** [kMeans(data, k, maxIterations)], for integer values of [k] and
    [maxIterations] and a list of objects; [None] when the sampling of the
    initial centroids runs out of [fuel]. *)
Definition kMeans (fuel : nat) (data : list point) (k : Z) (maxIterations : Z)
  : option (list (list point)) :=
  if (length data =? 0)%nat then Some []
  else if (k <=? 0)%Z || (Z.of_nat (length data) <? k)%Z then Some [data]
  else
    match initializeCentroids fuel data k 0 with
    | None => None
    | Some (centroids, pos) =>
        let clusters := iterate data k (Z.to_nat maxIterations) centroids [] pos in
        Some (List.filter (fun cluster => (0 <? length cluster)%nat) clusters)
    end.

End WithRandom.

(** The default value of the third parameter. *)
Definition default_maxIterations : Z := 100.

End TripClusterer.

(* ===================================================================== *)
(** * The routes of the server *)
(* ===================================================================== *)

(** The request handlers of the server, up to the queries they send and
    from the rows they get back. *)
Module Server.

Import JS TripClusterer.
Local Open Scope float_scope.

(** [x || d] on numbers. *)
Definition or_else (x d : float) : float := if truthy x then x else d.

(** [Math.max(...args)] *)
Fixpoint Math_max_from (highest : float) (args : list float) : float :=
  match args with
  | [] => highest
  | x :: rest =>
      if is_nan x then nan
      else
        let highest :=
          if (Leibniz.eqb x zero && Leibniz.eqb highest neg_zero)%bool then x
          else if highest <? x then x else highest in
        Math_max_from highest rest
  end.

Definition Math_max (args : list float) : float := Math_max_from neg_infinity args.

(** A parameter of the query string is text, or is absent.  With
    [const { k = 5 } = req.query] an absent parameter takes the default, a
    number, which [parseInt] prints before it reads it: [default] is that
    print. *)
Definition parseInt_param (param : option string) (default : string) : float :=
  parseInt_string (match param with Some s => s | None => default end).

(** [Math.max(1, Math.min(parseInt(k) || 5, 20))] *)
Definition kValue (k : option string) : float :=
  Math_max [1; Math_min [or_else (parseInt_param k "5") 5; 20]].

(** [Math.max(10, Math.min(parseInt(limit) || 10000, 50000))] *)
Definition limitValue (limit : option string) : float :=
  Math_max [10; Math_min [or_else (parseInt_param limit "10000") 10000; 50000]].

(** The integer a Number holds, when it holds one. *)
Definition integer_value (x : float) : option Z :=
  match Prim2SF x with
  | S754_zero _ => Some 0%Z
  | S754_finite s m e =>
      let magnitude :=
        if (0 <=? e)%Z then Some (Z.pos m * 2 ^ e)%Z
        else if (Z.pos m mod 2 ^ (- e) =? 0)%Z then Some (Z.pos m / 2 ^ (- e))%Z
        else None in
      option_map (fun v => if s then (- v)%Z else v) magnitude
  | _ => None
  end.

(** The body of the response of [/api/clusters]. *)
Record ClusterResponse : Type := {
  clusters : list (list point);
  clusterCount : nat;
  totalPoints : nat
}.

(** The handler of [/api/clusters] from the rows the query returned on:
    [rows] is [trips.rows].  [kMeans] is modelled for integer cluster
    counts, so the handler is modelled where [kValue] holds an integer,
    which it always does; the result is [None] otherwise, and when the
    sampling of the initial centroids runs out of [fuel]. *)
Definition clusters_handler (rnd : nat -> nat) (fuel : nat) (k : option string)
    (rows : list point) : option ClusterResponse :=
  let kValue := kValue k in
  if (length rows =? 0)%nat then
    Some {| clusters := []; clusterCount := 0; totalPoints := 0 |}
  else
    match integer_value kValue with
    | None => None
    | Some kValue =>
        match kMeans rnd fuel rows kValue default_maxIterations with
        | None => None
        | Some clusters =>
            Some {| clusters := clusters;
                    clusterCount := length clusters;
                    totalPoints := length rows |}
        end
    end.

End Server.

Module Queries.

Import JS Server.
Local Open Scope string_scope.

(** [`${n}`] for a count. *)
Definition show (n : nat) : string := NilEmpty.string_of_uint (Nat.to_uint n).

(** The three variables the handlers build their query in. *)
Record builder : Type := {
  whereClause : string;
  params : list value;
  paramCount : nat
}.

Definition start : builder :=
  {| whereClause := "WHERE 1=1"; params := []; paramCount := 0 |}.

(** [paramCount++; whereClause += `${condition}${paramCount}`;
    params.push(v)], where [condition] is the text of the condition up to and
    including the dollar sign. *)
Definition add_condition (condition : string) (v : value) (b : builder) : builder :=
  let paramCount := S (paramCount b) in
  {| whereClause := whereClause b ++ condition ++ show paramCount;
     params := params b ++ [v];
     paramCount := paramCount |}.

(** [paramCount++; params.push(v)] *)
Definition add_param (v : value) (b : builder) : builder :=
  {| whereClause := whereClause b;
     params := params b ++ [v];
     paramCount := S (paramCount b) |}.

(** [if (param) { ... }]: an absent parameter and the empty text are falsy. *)
Definition if_truthy (param : option string) (f : string -> builder -> builder)
    (b : builder) : builder :=
  match param with
  | Some (String _ _ as s) => f s b
  | _ => b
  end.

(** [if (param !== undefined) { ... }] *)
Definition if_defined (param : option string) (f : string -> builder -> builder)
    (b : builder) : builder :=
  match param with
  | Some s => f s b
  | None => b
  end.

(** The query string of [/api/trips]. *)
Record TripsRequest : Type := {
  limit : option string;
  offset : option string;
  borough : option string;
  hour : option string;
  minDuration : option string;
  maxDuration : option string;
  tripType : option string
}.

Definition trips_query (q : TripsRequest) : string * list value :=
  let b := start in
  let b := if_truthy (borough q)
             (fun s => add_condition " AND pickup_borough = $" (Str s)) b in
  let b := if_defined (hour q)
             (fun s => add_condition " AND hour_of_day = $" (Num (parseInt_string s))) b in
  let b := if_truthy (minDuration q)
             (fun s => add_condition " AND trip_duration >= $" (Num (parseInt_string s))) b in
  let b := if_truthy (maxDuration q)
             (fun s => add_condition " AND trip_duration <= $" (Num (parseInt_string s))) b in
  let b := if_truthy (tripType q)
             (fun s => add_condition " AND trip_type = $" (Str s)) b in
  let b := add_param (Num (parseInt_param (limit q) "1000")) b in
  let b := add_param (Num (parseInt_param (offset q) "0")) b in
  ("
            SELECT * FROM trips 
            " ++ whereClause b ++ "
            ORDER BY pickup_datetime DESC
            LIMIT $" ++ show (paramCount b - 1) ++ " OFFSET $" ++ show (paramCount b) ++ "
        ",
   params b).

(** The query string of [/api/heatmap]. *)
Record HeatmapRequest : Type := {
  heatmap_hour : option string;
  heatmap_borough : option string
}.

Definition heatmap_query (q : HeatmapRequest) : string * list value :=
  let b := start in
  let b := if_defined (heatmap_hour q)
             (fun s => add_condition " AND hour_of_day = $" (Num (parseInt_string s))) b in
  let b := if_truthy (heatmap_borough q)
             (fun s => add_condition " AND pickup_borough = $" (Str s)) b in
  ("
            SELECT 
                ROUND(pickup_latitude::numeric, 3) as lat,
                ROUND(pickup_longitude::numeric, 3) as lon,
                COUNT(*) as intensity,
                AVG(trip_duration) as avg_duration,
                AVG(speed_kmh) as avg_speed
            FROM trips 
            " ++ whereClause b ++ "
            GROUP BY ROUND(pickup_latitude::numeric, 3), ROUND(pickup_longitude::numeric, 3)
            HAVING COUNT(*) > 5
            ORDER BY intensity DESC
            LIMIT 1000
        ",
   params b).

End Queries.

(* ===================================================================== *)
(** * The import loop of [scripts/importData.js] *)
(* ===================================================================== *)

Module ImportStream.

Import JS ImportData.

(** An element of [batch]: [{ ...record, <derived fields> }]. *)
Definition EnrichedRecord : Type := RawTripRecord * EnrichedFields.

(** The variables of [importData] that its two stream handlers share, and
    [inserted], the batches handed to [insertBatch] so far. *)
Record state : Type := {
  processedCount : nat;
  validCount : nat;
  invalidCount : nat;
  batch : list EnrichedRecord;
  isProcessing : bool;
  inserted : list (list EnrichedRecord)
}.

Definition batchSize : nat := 500.

Definition initial : state :=
  {| processedCount := 0; validCount := 0; invalidCount := 0;
     batch := []; isProcessing := false; inserted := [] |}.

(** What happens to the stream handlers: the parser delivers a record, the
    database answers the insert a ['data'] handler is waiting for, or the
    parser reaches the end of the file.  The parser does not wait for a
    handler, so the three can come in any order; inserts are taken to
    succeed. *)
Inductive event : Type :=
  | Data (record : RawTripRecord)
  | InsertDone
  | End.

Section WithMath.

Variable M : MathLib.

(** The ['data'] handler up to its [await], or to its end when it does not
    wait.  While it waits, [isProcessing] stays set. *)
Definition on_data (record : RawTripRecord) (s : state) : completion state :=
  if isProcessing s then Return s (* Prevent overlapping processing *)
  else
    let processedCount := S (processedCount s) in
    let* valid := isValidTrip M record in
    if valid then
      let* enriched := enrichTripData M record in
      let batch := batch s ++ [(record, enriched)] in
      let validCount := S (validCount s) in
      if (batchSize <=? length batch)%nat then
        Return {| processedCount := processedCount; validCount := validCount;
                  invalidCount := invalidCount s; batch := batch;
                  isProcessing := true;
                  inserted := inserted s ++ [batch] |}
      else
        Return {| processedCount := processedCount; validCount := validCount;
                  invalidCount := invalidCount s; batch := batch;
                  isProcessing := false;
                  inserted := inserted s |}
    else
      Return {| processedCount := processedCount; validCount := validCount s;
                invalidCount := S (invalidCount s); batch := batch s;
                isProcessing := false;
                inserted := inserted s |}.

(** The rest of the ['data'] handler, after its [await]:
    [batch = []; isProcessing = false]. *)
Definition on_insert_done (s : state) : state :=
  if isProcessing s then
    {| processedCount := processedCount s; validCount := validCount s;
       invalidCount := invalidCount s; batch := [];
       isProcessing := false;
       inserted := inserted s |}
  else s.

(** The ['end'] handler: [if (batch.length > 0) await insertBatch(client, batch)]. *)
Definition on_end (s : state) : state :=
  if (0 <? length (batch s))%nat then
    {| processedCount := processedCount s; validCount := validCount s;
       invalidCount := invalidCount s; batch := batch s;
       isProcessing := isProcessing s;
       inserted := inserted s ++ [batch s] |}
  else s.

Definition step (s : state) (e : event) : completion state :=
  match e with
  | Data record => on_data record s
  | InsertDone => Return (on_insert_done s)
  | End => Return (on_end s)
  end.

Fixpoint run (s : state) (events : list event) : completion state :=
  match events with
  | [] => Return s
  | e :: rest => let* s := step s e in run s rest
  end.

End WithMath.

End ImportStream.

(* ===================================================================== *)
(** * Facts about the built-ins *)
(* ===================================================================== *)

Module JSFacts.

Import JS Ieee.
Local Open Scope float_scope.

Lemma truthy_not_nan x : truthy x = true -> is_nan x = false.
Proof.
  unfold truthy. destruct (is_nan x); simpl; [discriminate|reflexivity].
Qed.

(** [x || 0] is never NaN. *)
Lemma or_zero_not_nan x : is_nan (or_zero x) = false.
Proof.
  unfold or_zero. destruct (truthy x) eqn:E; [|reflexivity].
  apply truthy_not_nan, E.
Qed.

Lemma or_zero_finite x : is_finite x = true -> is_finite (or_zero x) = true.
Proof.
  unfold or_zero. destruct (truthy x); [trivial|reflexivity].
Qed.

(** A falsy number ([NaN], [+0] or [-0]) is replaced by [0]. *)
Lemma or_zero_falsy x : truthy x = false -> or_zero x = 0.
Proof. unfold or_zero. intros ->. reflexivity. Qed.

Lemma or_zero_truthy x : truthy x = true -> or_zero x = x.
Proof. unfold or_zero. intros ->. reflexivity. Qed.

Definition not_nan (x : float) : Prop := is_nan x = false.

(** On numbers, [Math.min] returns (a number equal to) one of its arguments,
    unless no argument is below the starting value. *)
Lemma Math_min_from_witness l : forall lowest,
  Forall not_nan l ->
  (exists e, In e l /\ (e =? Math_min_from lowest l) = true) \/
  (Math_min_from lowest l = lowest /\ Forall (fun x => (x <? lowest) = false) l).
Proof.
  induction l as [|x rest IH]; intros lowest Hl; simpl.
  - right. split; [reflexivity|constructor].
  - inversion Hl as [|? ? Hx Hrest]; subst. rewrite Hx.
    set (lowest' := if (Leibniz.eqb x neg_zero && Leibniz.eqb lowest zero)%bool
                    then x else if x <? lowest then x else lowest).
    assert (Hcase : lowest' = x \/ (lowest' = lowest /\ (x <? lowest) = false)).
    { unfold lowest'. destruct (_ && _)%bool; [now left|].
      destruct (x <? lowest); [now left|now right]. }
    destruct (IH lowest' Hrest) as [(e & He & Heq)|[Hres Hall]].
    + left. exists e. split; [now right|exact Heq].
    + destruct Hcase as [Hl'|[Hl' Hlt]].
      * left. exists x. split; [now left|].
        rewrite Hres, Hl'. apply eqb_refl, Hx.
      * right. split; [congruence|].
        constructor; [exact Hlt|]. rewrite <- Hl'. exact Hall.
Qed.

Lemma Math_min_attained l :
  l <> [] -> Forall not_nan l ->
  exists e, In e l /\ (e =? Math_min l) = true.
Proof.
  intros Hne Hl. unfold Math_min.
  destruct (Math_min_from_witness l infinity Hl) as [H|[Hres Hall]]; [exact H|].
  destruct l as [|x rest]; [congruence|].
  inversion Hl; inversion Hall; subst.
  exists x. split; [now left|].
  rewrite Hres. now apply not_ltb_infinity.
Qed.

Lemma indexOf_from_found l x : forall i,
  (exists e, In e l /\ (e =? x) = true) ->
  (i <= indexOf_from i l x < i + Z.of_nat (length l))%Z.
Proof.
  induction l as [|y r IH]; intros i (e & He & Heq); simpl in *; [tauto|].
  destruct (y =? x) eqn:Ey; [lia|].
  destruct He as [->|He]; [congruence|].
  specialize (IH (i + 1)%Z (ex_intro _ e (conj He Heq))). lia.
Qed.

(** [indexOf] answers [-1] or a position of the array. *)
Lemma indexOf_from_range l x : forall i,
  indexOf_from i l x = (-1)%Z \/
  (i <= indexOf_from i l x < i + Z.of_nat (length l))%Z.
Proof.
  induction l as [|y r IH]; intros i; simpl; [now left|].
  destruct (y =? x); [right; lia|].
  destruct (IH (i + 1)%Z) as [H|H]; [now left|right; lia].
Qed.

(** The nearest-index computation succeeds on distances that are numbers. *)
Lemma indexOf_Math_min_range l :
  l <> [] -> Forall not_nan l ->
  (0 <= indexOf l (Math_min l) < Z.of_nat (length l))%Z.
Proof.
  intros Hne Hl. apply (indexOf_from_found l (Math_min l) 0%Z).
  now apply Math_min_attained.
Qed.

(** ** The coercion [parseFloat(x) || 0] *)

(** On a field that holds a number the coercion only loses the sign of a
    zero. *)
Lemma or_zero_parseFloat_Num x :
  is_nan x = false ->
  Prim2SF (or_zero (parseFloat (Num x))) = sf_unsign_zero (Prim2SF x).
Proof.
  intros Hx. unfold parseFloat.
  pose proof (is_zero_spec x) as Hz.
  destruct (x =? 0) eqn:E.
  - destruct (Prim2SF x); try discriminate. reflexivity.
  - unfold or_zero, truthy. rewrite Hx, E. simpl.
    destruct (Prim2SF x); try discriminate; reflexivity.
Qed.

(** The sentinel [Infinity] never lowers a minimum. *)
Lemma Math_min_from_skip_infinity before : forall lowest after,
  Math_min_from lowest (before ++ infinity :: after)
  = Math_min_from lowest (before ++ after).
Proof.
  induction before as [|x before IH]; intros lowest after; simpl.
  - change (is_nan infinity) with false.
    change (Leibniz.eqb infinity neg_zero) with false. simpl.
    now rewrite infinity_not_ltb.
  - destruct (is_nan x); [reflexivity|]. apply IH.
Qed.

End JSFacts.

(* ===================================================================== *)
(** * Facts about [TripClusterer] *)
(* ===================================================================== *)

Module ClusterFacts.

Import JS Ieee JSFacts TripClusterer.
Local Open Scope float_scope.

(** A point whose three fields read as finite numbers. *)
Definition finite_point (p : point) : Prop :=
  is_finite (parseFloat (lat p)) = true /\
  is_finite (parseFloat (lon p)) = true /\
  is_finite (parseFloat (duration p)) = true.

Lemma Prim2SF_1000 : Prim2SF 1000 = S754_finite false 8796093022208000 (-43).
Proof. reflexivity. Qed.

Lemma square_diff_nonneg x y :
  is_finite x = true -> nonneg ((or_zero x - or_zero y) * (or_zero x - or_zero y)) = true.
Proof.
  intros Hx. apply mul_square_nonneg, sub_not_nan.
  - apply or_zero_finite, Hx.
  - apply or_zero_not_nan.
Qed.

(** The distance from a finite point to any centroid is a number. *)
Lemma calculateDistance_not_nan p c :
  finite_point p -> is_nan (calculateDistance (Some p) (Some c)) = false.
Proof.
  intros (Hlat & Hlon & Hdur). unfold calculateDistance.
  apply sqrt_not_nan. repeat apply add_nonneg.
  - apply square_diff_nonneg, Hlat.
  - apply square_diff_nonneg, Hlon.
  - apply mul_square_nonneg.
    apply (div_pos_not_nan _ _ _ _ Prim2SF_1000).
    apply sub_not_nan; [apply or_zero_finite, Hdur|apply or_zero_not_nan].
Qed.

Section Assignment.

Variable centroids : list point.

Lemma length_assignPoint clusters p :
  length (assignPoint centroids clusters p) = length clusters.
Proof.
  unfold assignPoint. destruct (_ && _)%bool; [apply length_alter|reflexivity].
Qed.

Lemma length_fold_assignPoint data : forall clusters,
  length (fold_left (assignPoint centroids) data clusters) = length clusters.
Proof.
  induction data as [|p data IH]; intros clusters; simpl; [reflexivity|].
  rewrite IH. apply length_assignPoint.
Qed.

Lemma concat_alter_push (p : point) clusters : forall i,
  (i < length clusters)%nat ->
  concat (alter (fun cluster => cluster ++ [p]) i clusters) ≡ₚ p :: concat clusters.
Proof.
  induction clusters as [|c rest IH]; intros i Hi; simpl in *; [lia|].
  destruct i as [|i]; simpl.
  - rewrite <- app_assoc. simpl.
    rewrite <- Permutation_middle. reflexivity.
  - etransitivity; [apply Permutation_app_head, (IH i); lia|].
    rewrite <- Permutation_middle. reflexivity.
Qed.

(** A finite point is pushed onto exactly one cluster. *)
Lemma assignPoint_finite clusters p :
  centroids <> [] -> length clusters = length centroids -> finite_point p ->
  concat (assignPoint centroids clusters p) ≡ₚ p :: concat clusters.
Proof.
  intros Hne Hlen Hp. unfold assignPoint.
  set (distances := map _ centroids).
  assert (Hd : Forall not_nan distances).
  { apply List.Forall_forall. intros d Hd. apply in_map_iff in Hd as (c & <- & _).
    apply calculateDistance_not_nan, Hp. }
  assert (Hdne : distances <> []).
  { unfold distances. destruct centroids; [congruence|discriminate]. }
  pose proof (indexOf_Math_min_range distances Hdne Hd) as Hr.
  assert (Hdl : length distances = length clusters).
  { unfold distances. rewrite length_map. congruence. }
  rewrite Hdl in Hr.
  replace (_ && _)%bool with true
    by (symmetry; apply andb_true_iff; split; [apply Z.leb_le|apply Z.ltb_lt]; lia).
  apply concat_alter_push. lia.
Qed.

(** In any case a point is pushed at most once. *)
Lemma assignPoint_submseteq clusters p :
  concat (assignPoint centroids clusters p) ⊆+ p :: concat clusters.
Proof.
  unfold assignPoint. destruct (_ && _)%bool eqn:E.
  - apply andb_true_iff in E as [H0 H1].
    apply Z.leb_le in H0. apply Z.ltb_lt in H1.
    rewrite concat_alter_push by lia. reflexivity.
  - apply submseteq_cons. reflexivity.
Qed.

Lemma fold_assignPoint_finite data : forall clusters,
  centroids <> [] -> length clusters = length centroids ->
  Forall finite_point data ->
  concat (fold_left (assignPoint centroids) data clusters) ≡ₚ concat clusters ++ data.
Proof.
  induction data as [|p data IH]; intros clusters Hne Hlen Hdata; simpl.
  - rewrite app_nil_r. reflexivity.
  - inversion Hdata as [|? ? Hp Hrest]; subst.
    rewrite IH; trivial.
    + rewrite assignPoint_finite by assumption.
      rewrite <- Permutation_middle. reflexivity.
    + rewrite length_assignPoint. exact Hlen.
Qed.

Lemma fold_assignPoint_submseteq data : forall clusters,
  concat (fold_left (assignPoint centroids) data clusters) ⊆+ concat clusters ++ data.
Proof.
  induction data as [|p data IH]; intros clusters; simpl.
  - rewrite app_nil_r. reflexivity.
  - etransitivity; [apply IH|].
    etransitivity; [apply submseteq_app; [apply assignPoint_submseteq|reflexivity]|].
    simpl. rewrite <- Permutation_middle. reflexivity.
Qed.

End Assignment.

Lemma concat_replicate_nil (n : nat) : concat (replicate n (@nil point)) = [].
Proof. induction n; simpl; trivial. Qed.

Lemma length_assignPoints data centroids k :
  length (assignPoints data centroids k) = Z.to_nat k.
Proof.
  unfold assignPoints. rewrite length_fold_assignPoint. apply length_replicate.
Qed.

(** With at least one centroid per slot, the assignment step partitions a
    finite data set. *)
Lemma assignPoints_partition data centroids k :
  (1 <= k)%Z -> length centroids = Z.to_nat k -> Forall finite_point data ->
  concat (assignPoints data centroids k) ≡ₚ data.
Proof.
  intros Hk Hlen Hdata. unfold assignPoints.
  rewrite fold_assignPoint_finite; trivial.
  - rewrite concat_replicate_nil. reflexivity.
  - destruct centroids; [simpl in Hlen; lia|discriminate].
  - rewrite length_replicate. congruence.
Qed.

Lemma assignPoints_submseteq data centroids k :
  concat (assignPoints data centroids k) ⊆+ data.
Proof.
  unfold assignPoints.
  etransitivity; [apply fold_assignPoint_submseteq|].
  rewrite concat_replicate_nil. reflexivity.
Qed.



(** Points used as concrete inputs below. *)
Definition far_north : point := {| lat := Num infinity; lon := Num 0; duration := Num 0 |}.
Definition downtown : point := {| lat := Num 40.70; lon := Num (-73.95); duration := Num 300 |}.
Definition uptown : point := {| lat := Num 40.80; lon := Num (-73.95); duration := Num 900 |}.
(** A point of which no field reads as a number. *)
Definition unreadable : point := {| lat := Undefined; lon := Str "abc"; duration := Num nan |}.
(** A point with one unreadable field and a latitude beyond every ordinary
    magnitude. *)
Definition far_out : point := {| lat := Num 1e200; lon := Undefined; duration := Num 0 |}.
Definition far_back : point := {| lat := Num (-1e200); lon := Num 0; duration := Num 0 |}.

(** ** The feature distance *)

(** The number the code computes with for a field: [parseFloat(x) || 0]. *)
Definition coordinate (v : value) : float := or_zero (parseFloat v).

(** The distance the specification describes: Euclidean over latitude,
    longitude and duration divided by 1000. *)
Definition euclidean3 (lat1 lon1 dur1 lat2 lon2 dur2 : float) : float :=
  sqrt ((lat1 - lat2) * (lat1 - lat2) +
        (lon1 - lon2) * (lon1 - lon2) +
        ((dur1 - dur2) / 1000) * ((dur1 - dur2) / 1000)).

(** A point given by three numbers. *)
Definition numeric (a b c : float) : point :=
  {| lat := Num a; lon := Num b; duration := Num c |}.

Lemma calculateDistance_coordinates p1 p2 :
  calculateDistance (Some p1) (Some p2)
  = euclidean3 (coordinate (lat p1)) (coordinate (lon p1)) (coordinate (duration p1))
               (coordinate (lat p2)) (coordinate (lon p2)) (coordinate (duration p2)).
Proof. reflexivity. Qed.

(** C4.  For two non-null points the distance is the Euclidean distance over
    (lat, lon, duration / 1000) of the numbers read from their fields; when
    the fields hold numbers it is that distance of the field values
    themselves.  When either argument is null or absent the result is
    [Infinity], returned instead of failing; [Infinity] is below no distance
    and never changes the minimum that [Math.min] computes, wherever it
    stands among the distances.  A point whose three numbers are finite is at
    distance 0 from itself, as are two points equal to (40.70, -73.95, 300). *)
Theorem calculateDistance_euclidean :
  (forall p1 p2,
     calculateDistance (Some p1) (Some p2)
     = euclidean3 (coordinate (lat p1)) (coordinate (lon p1)) (coordinate (duration p1))
                  (coordinate (lat p2)) (coordinate (lon p2)) (coordinate (duration p2))) /\
  (forall a b c a' b' c',
     is_nan a = false -> is_nan b = false -> is_nan c = false ->
     is_nan a' = false -> is_nan b' = false -> is_nan c' = false ->
     calculateDistance (Some (numeric a b c)) (Some (numeric a' b' c'))
     = euclidean3 a b c a' b' c') /\
  (forall p, calculateDistance None p = infinity /\
             calculateDistance p None = infinity) /\
  (forall d, (infinity <? d) = false) /\
  (forall lowest before after,
     Math_min_from lowest (before ++ infinity :: after)
     = Math_min_from lowest (before ++ after)) /\
  (forall p,
     is_finite (coordinate (lat p)) = true ->
     is_finite (coordinate (lon p)) = true ->
     is_finite (coordinate (duration p)) = true ->
     calculateDistance (Some p) (Some p) = 0) /\
  calculateDistance (Some (numeric 40.70 (-73.95) 300))
                    (Some (numeric 40.70 (-73.95) 300)) = 0.
Proof.
  split; [apply calculateDistance_coordinates|].
  split; [|split; [|split; [|split; [|split]]]].
  - intros a b c a' b' c' Ha Hb Hc Ha' Hb' Hc'.
    unfold calculateDistance, euclidean3, numeric, lat, lon, duration.
    rewrite (square_sub_eqz a _ a' _ (or_zero_parseFloat_Num a Ha)
               (or_zero_parseFloat_Num a' Ha')).
    rewrite (square_sub_eqz b _ b' _ (or_zero_parseFloat_Num b Hb)
               (or_zero_parseFloat_Num b' Hb')).
    rewrite (square_sub_div_eqz c _ c' _ 1000 _ _ _ Prim2SF_1000
               (or_zero_parseFloat_Num c Hc) (or_zero_parseFloat_Num c' Hc')).
    reflexivity.
  - intros p. split; [reflexivity|destruct p; reflexivity].
  - apply infinity_not_ltb.
  - intros lowest before after. apply Math_min_from_skip_infinity.
  - intros p Hlat Hlon Hdur.
    rewrite calculateDistance_coordinates. unfold euclidean3.
    rewrite !sub_diag_finite by assumption. reflexivity.
  - vm_compute. reflexivity.
Qed.

Lemma calculateDistance_euclidean_witness :
  calculateDistance (Some (numeric 40.70 (-73.95) 300)) (Some (numeric (-0) 0 900))
  = euclidean3 40.70 (-73.95) 300 (-0) 0 900.
Proof.
  apply (proj1 (proj2 calculateDistance_euclidean)); reflexivity.
Defined.


(** ** Fields that do not read as a number *)

(** The field as the code effectively sees it: one whose reading is falsy
    (NaN, or a zero) counts as the number 0. *)
Definition as_if_zero (v : value) : value :=
  if truthy (parseFloat v) then v else Num 0.

Definition repaired (p : point) : point :=
  {| lat := as_if_zero (lat p);
     lon := as_if_zero (lon p);
     duration := as_if_zero (duration p) |}.

Lemma coordinate_as_if_zero v : coordinate (as_if_zero v) = coordinate v.
Proof.
  unfold as_if_zero, coordinate. destruct (truthy (parseFloat v)) eqn:E; [reflexivity|].
  now rewrite (or_zero_falsy _ E).
Qed.


(** A number of ordinary size: at most 1e100 in absolute value. *)
Definition ordinary (x : float) : Prop := (abs x <=? 1e100) = true.

Lemma Prim2SF_1e100 : Prim2SF 1e100 = S754_finite false 5147557589468029 280.
Proof. reflexivity. Qed.

Lemma ordinary_below x : ordinary x -> below 333 x.
Proof. apply (leb_below x 1e100 _ _ Prim2SF_1e100). Qed.

Lemma square_diff_below x y :
  ordinary x -> ordinary y -> below 671 ((x - y) * (x - y)).
Proof.
  intros Hx Hy.
  assert (Hd : below 335 (x - y))
    by (apply (sub_below 333); try apply ordinary_below; trivial;
        unfold SpecFloat.emin, prec, emax; lia).
  apply (mul_below 335); trivial; lia.
Qed.

Lemma square_scaled_diff_below x y :
  ordinary x -> ordinary y -> below 759 ((x - y) / 1000 * ((x - y) / 1000)).
Proof.
  intros Hx Hy.
  assert (Hd : below 335 (x - y))
    by (apply (sub_below 333); try apply ordinary_below; trivial;
        unfold SpecFloat.emin, prec, emax; lia).
  assert (Hq : below 379 ((x - y) / 1000))
    by (apply (div_below 335 _ _ _ _ _ Prim2SF_1000); trivial;
        unfold SpecFloat.emin, prec, emax; lia).
  apply (mul_below 379); trivial; lia.
Qed.

(** Between two non-null points whose six numbers are of ordinary size the
    distance is finite. *)
Lemma calculateDistance_finite p1 p2 :
  ordinary (coordinate (lat p1)) -> ordinary (coordinate (lat p2)) ->
  ordinary (coordinate (lon p1)) -> ordinary (coordinate (lon p2)) ->
  ordinary (coordinate (duration p1)) -> ordinary (coordinate (duration p2)) ->
  is_finite (calculateDistance (Some p1) (Some p2)) = true.
Proof.
  intros Hlat1 Hlat2 Hlon1 Hlon2 Hdur1 Hdur2.
  unfold calculateDistance. fold (coordinate (lat p1)) (coordinate (lat p2))
    (coordinate (lon p1)) (coordinate (lon p2))
    (coordinate (duration p1)) (coordinate (duration p2)).
  pose proof (square_diff_below _ _ Hlat1 Hlat2) as Ha.
  pose proof (square_diff_below _ _ Hlon1 Hlon2) as Hb.
  pose proof (square_scaled_diff_below _ _ Hdur1 Hdur2) as Hc.
  assert (Hna : forall x, below 335 x -> nonneg (x * x) = true)
    by (intros x Hx; apply mul_square_nonneg, is_finite_not_nan, (below_finite _ _ Hx)).
  assert (Hd : forall x y, ordinary x -> ordinary y -> below 335 (x - y))
    by (intros x y Hx Hy; apply (sub_below 333); try apply ordinary_below; trivial;
        unfold SpecFloat.emin, prec, emax; lia).
  apply (sqrt_finite 763).
  - repeat apply add_nonneg.
    + apply Hna, Hd; trivial.
    + apply Hna, Hd; trivial.
    + apply mul_square_nonneg, is_finite_not_nan, (below_finite 379).
      apply (div_below 335 _ _ _ _ _ Prim2SF_1000);
        [apply Hd; trivial| |]; unfold SpecFloat.emin, prec, emax; lia.
  - assert (Ha' : below 759 ((coordinate (lat p1) - coordinate (lat p2)) *
                              (coordinate (lat p1) - coordinate (lat p2))))
      by (apply (below_mono 671); [lia|exact Ha]).
    assert (Hb' : below 759 ((coordinate (lon p1) - coordinate (lon p2)) *
                              (coordinate (lon p1) - coordinate (lon p2))))
      by (apply (below_mono 671); [lia|exact Hb]).
    pose proof (add_below 759 _ _ Ha' Hb'
                  ltac:(unfold SpecFloat.emin, prec, emax; lia) ltac:(lia)) as Hab.
    apply (add_below 761); trivial.
    + apply (below_mono 759); [lia|exact Hc].
    + unfold SpecFloat.emin, prec, emax; lia.
    + lia.
  - lia.
Qed.

(** C9 (as amended).  For two non-null points each of the six field reads
    goes through [parseFloat(x) || 0]: a field whose reading is falsy, be it
    missing, null, not numeric, NaN, or a zero, counts as the number 0, so
    the distance is that of the points with such fields replaced by 0.  It is
    a finite number whenever the six numbers read are at most 1e100 in
    absolute value; [Infinity] is what a null or absent argument gets. *)
Theorem calculateDistance_coerces_fields :
  (forall v, truthy (parseFloat v) = false -> coordinate v = 0) /\
  (truthy (parseFloat Undefined) = false /\ truthy (parseFloat Null) = false /\
   truthy (parseFloat (Str "abc")) = false /\ truthy (parseFloat (Num nan)) = false /\
   truthy (parseFloat (Str "0.0")) = false /\ truthy (parseFloat (Num (-0))) = false) /\
  (forall p1 p2,
     calculateDistance (Some p1) (Some p2)
     = calculateDistance (Some (repaired p1)) (Some (repaired p2))) /\
  (forall p1 p2,
     ordinary (coordinate (lat p1)) -> ordinary (coordinate (lat p2)) ->
     ordinary (coordinate (lon p1)) -> ordinary (coordinate (lon p2)) ->
     ordinary (coordinate (duration p1)) -> ordinary (coordinate (duration p2)) ->
     is_finite (calculateDistance (Some p1) (Some p2)) = true) /\
  (forall p, calculateDistance None p = infinity /\
             calculateDistance p None = infinity) /\
  calculateDistance (Some unreadable) (Some downtown)
  = euclidean3 0 0 0 40.70 (-73.95) 300.
Proof.
  split; [|split; [|split; [|split; [|split]]]].
  - intros v Hv. apply or_zero_falsy, Hv.
  - repeat split; reflexivity.
  - intros p1 p2. rewrite !calculateDistance_coordinates.
    cbn [repaired lat lon duration]. now rewrite !coordinate_as_if_zero.
  - apply calculateDistance_finite.
  - intros p. split; [reflexivity|destruct p; reflexivity].
  - vm_compute. reflexivity.
Qed.

Lemma calculateDistance_coerces_fields_witness :
  is_finite (calculateDistance (Some unreadable) (Some downtown)) = true.
Proof.
  apply (proj1 (proj2 (proj2 (proj2 calculateDistance_coerces_fields))));
    reflexivity.
Defined.

(** C9 (counterexample).  [far_out] has no longitude, so it is a partially
    unreadable point; its distance to [far_back] is [Infinity], the value of
    the sentinel, because the square of the latitude difference overflows. *)
Lemma calculateDistance_overflows :
  lon far_out = Undefined /\
  calculateDistance (Some far_out) (Some far_back) = infinity /\
  is_finite (calculateDistance (Some far_out) (Some far_back)) = false.
Proof. repeat split; vm_compute; reflexivity. Qed.

(** ** The main loop *)

Section Loop.

Variable rnd : nat -> nat.

Lemma length_updateCentroids data clusters : forall pos,
  length (updateCentroids rnd data clusters pos).1 = length clusters.
Proof.
  induction clusters as [|c rest IH]; intros pos; simpl; [reflexivity|].
  destruct (length c =? 0)%nat;
    match goal with |- context [updateCentroids rnd data rest ?q] =>
      specialize (IH q); destruct (updateCentroids rnd data rest q) end;
    simpl in *; congruence.
Qed.

(** After at least one iteration the clusters returned by the loop are the
    assignment of the data to some list of [k] centroids. *)
Lemma iterate_is_assignment data k : forall n centroids clusters pos,
  (0 < n)%nat -> length centroids = Z.to_nat k ->
  exists centroids', length centroids' = Z.to_nat k /\
    iterate rnd data k n centroids clusters pos = assignPoints data centroids' k.
Proof.
  induction n as [|n IH]; intros centroids clusters pos Hn Hlen; [lia|].
  simpl.
  pose proof (length_updateCentroids data (assignPoints data centroids k) pos) as Hup.
  destruct (updateCentroids rnd data (assignPoints data centroids k) pos)
    as [newCentroids pos'].
  simpl in Hup. rewrite length_assignPoints in Hup.
  destruct (converged centroids newCentroids); [now exists centroids|].
  destruct n as [|n]; [now exists centroids|].
  apply IH; [lia|exact Hup].
Qed.

Lemma initializeCentroids_loop_length fuel data : forall n centroids used pos cs pos',
  initializeCentroids_loop rnd fuel data n centroids used pos = Some (cs, pos') ->
  length cs = (length centroids + n)%nat.
Proof.
  induction n as [|n IH]; intros centroids used pos cs pos' H; simpl in H.
  - injection H as <- <-. lia.
  - destruct (sample_unused rnd fuel used pos) as [[r q]|]; [|discriminate].
    apply IH in H. rewrite length_app in H. simpl in H. lia.
Qed.

Lemma initializeCentroids_length fuel data k pos cs pos' :
  initializeCentroids rnd fuel data k pos = Some (cs, pos') ->
  length cs = Z.to_nat k.
Proof.
  intros H. apply initializeCentroids_loop_length in H. exact H.
Qed.

End Loop.

Lemma concat_filter_nonempty (l : list (list point)) :
  concat (List.filter (fun cluster => (0 <? length cluster)%nat) l) = concat l.
Proof.
  induction l as [|c l IH]; simpl; [reflexivity|].
  destruct c as [|x c]; simpl; [exact IH|]. now rewrite IH.
Qed.

Lemma filter_nonempty_Forall (l : list (list point)) :
  Forall (fun cluster => cluster <> [])
    (List.filter (fun cluster => (0 <? length cluster)%nat) l).
Proof.
  apply List.Forall_forall. intros c Hc.
  apply filter_In in Hc as [_ Hc]. destruct c; [discriminate|congruence].
Qed.


Lemma sample_unused_stuck fuel : forall pos,
  sample_unused (fun _ => 0%nat) fuel ({[0%nat]} ∪ ∅) pos = None.
Proof.
  induction fuel as [|fuel IH]; intros pos; simpl; [reflexivity|].
  destruct (decide (0%nat ∈ ({[0%nat]} ∪ ∅ : gset nat))) as [_|Hn]; [apply IH|].
  exfalso. apply Hn. set_solver.
Qed.



(** ** Sampling of the initial centroids *)


(** From every position on, the source eventually produces each index. *)
Definition fair (rnd : nat -> nat) (n : nat) : Prop :=
  forall pos r, (r < n)%nat -> exists j, (pos <= j)%nat /\ rnd j = r.

Section Sampling.

Variable rnd : nat -> nat.

(** The rejection loop stops exactly at the first draw that is not in use. *)
Lemma sample_unused_Some fuel used : forall pos r pos',
  sample_unused rnd fuel used pos = Some (r, pos') ->
  (r ∉ used) /\ (pos < pos' <= pos + fuel)%nat /\ r = rnd (pos' - 1) /\
  (forall j, (pos <= j < pos' - 1)%nat -> rnd j ∈ used).
Proof.
  induction fuel as [|fuel IH]; intros pos r pos' H; simpl in H; [discriminate|].
  destruct (decide (rnd pos ∈ used)) as [Hin|Hout].
  - apply IH in H as (Hr & Hpos & Heq & Hall).
    repeat split; trivial; try lia.
    intros j Hj. destruct (decide (j = pos)) as [->|Hne]; [exact Hin|].
    apply Hall. lia.
  - injection H as <- <-. repeat split; trivial; try lia.
    simpl. now rewrite Nat.sub_0_r.
Qed.

Lemma sample_unused_find used : forall d pos,
  rnd (pos + d) ∉ used -> forall fuel, (d < fuel)%nat ->
  is_Some (sample_unused rnd fuel used pos).
Proof.
  induction d as [|d IH]; intros pos Hfresh fuel Hfuel;
    (destruct fuel as [|fuel]; [lia|]); simpl.
  - rewrite Nat.add_0_r in Hfresh.
    destruct (decide (rnd pos ∈ used)); [contradiction|eauto].
  - destruct (decide (rnd pos ∈ used)); [|eauto].
    apply IH; [|lia]. now replace (S pos + d)%nat with (pos + S d)%nat by lia.
Qed.

Lemma sample_unused_None fuel used : forall pos,
  (forall j, (pos <= j < pos + fuel)%nat -> rnd j ∈ used) ->
  sample_unused rnd fuel used pos = None.
Proof.
  induction fuel as [|fuel IH]; intros pos Hall; simpl; [reflexivity|].
  destruct (decide (rnd pos ∈ used)) as [_|Hout].
  - apply IH. intros j Hj. apply Hall. lia.
  - exfalso. apply Hout, Hall. lia.
Qed.

Lemma sample_unused_mono fuel used : forall pos fuel' x,
  (fuel <= fuel')%nat ->
  sample_unused rnd fuel used pos = Some x ->
  sample_unused rnd fuel' used pos = Some x.
Proof.
  induction fuel as [|fuel IH]; intros pos fuel' x Hle H; simpl in H; [discriminate|].
  destruct fuel' as [|fuel']; [lia|]. simpl.
  destruct (decide (rnd pos ∈ used)); [|exact H].
  apply IH; [lia|exact H].
Qed.

Lemma initializeCentroids_loop_mono fuel fuel' data : forall n centroids used pos x,
  (fuel <= fuel')%nat ->
  initializeCentroids_loop rnd fuel data n centroids used pos = Some x ->
  initializeCentroids_loop rnd fuel' data n centroids used pos = Some x.
Proof.
  induction n as [|n IH]; intros centroids used pos x Hle H; simpl in *; [exact H|].
  destruct (sample_unused rnd fuel used pos) as [[r q]|] eqn:E; [|discriminate].
  rewrite (sample_unused_mono _ _ _ _ _ Hle E). now apply IH.
Qed.


(** Below [n] there is an index not in use as long as fewer than [n] are. *)
Lemma unused_or_full (used : gset nat) n :
  (exists r, (r < n)%nat /\ (r ∉ used)) \/ (forall r, (r < n)%nat -> r ∈ used).
Proof.
  induction n as [|n [(r & Hr & Hout)|Hall]].
  - right. intros r Hr. lia.
  - left. exists r. split; [lia|exact Hout].
  - destruct (decide (n ∈ used)) as [Hin|Hout].
    + right. intros r Hr. destruct (decide (r = n)) as [->|]; [exact Hin|].
      apply Hall. lia.
    + left. exists n. split; [lia|exact Hout].
Qed.

Lemma unused_below (used : gset nat) n :
  (size used < n)%nat -> exists r, (r < n)%nat /\ (r ∉ used).
Proof.
  intros Hsize. destruct (unused_or_full used n) as [H|Hall]; [exact H|].
  exfalso.
  assert (Hsub : (set_seq 0 n : gset nat) ⊆ used).
  { intros r Hr. apply elem_of_set_seq in Hr. apply Hall. lia. }
  apply subseteq_size in Hsub. rewrite size_set_seq in Hsub. lia.
Qed.

(** Under a fair source the sampling ends, given enough fuel, whenever fewer
    indices are asked for than the input has. *)
Lemma initializeCentroids_loop_fair data : forall n centroids used pos,
  fair rnd (length data) ->
  (size used + n <= length data)%nat ->
  exists fuel, is_Some (initializeCentroids_loop rnd fuel data n centroids used pos).
Proof.
  induction n as [|n IH]; intros centroids used pos Hfair Hsize.
  - exists 0%nat. simpl. eauto.
  - destruct (unused_below used (length data)) as (r & Hr & Hout); [lia|].
    destruct (Hfair pos r Hr) as (j & Hj & Hrj).
    destruct (sample_unused_find used (j - pos) pos) with (fuel := S (j - pos))
      as [[r' q] E].
    { replace (pos + (j - pos))%nat with j by lia. now rewrite Hrj. }
    { lia. }
    pose proof (sample_unused_Some _ _ _ _ _ E) as (Hr' & _ & _ & _).
    destruct (IH (centroids ++ [spread (data !! r')]) ({[r']} ∪ used) q Hfair)
      as (fuel2 & [x Hx]).
    { rewrite size_union by set_solver. rewrite size_singleton. lia. }
    exists (Nat.max (S (j - pos)) fuel2). simpl.
    rewrite (sample_unused_mono _ _ _ _ _ (Nat.le_max_l _ _) E).
    exists x. eapply initializeCentroids_loop_mono; [apply Nat.le_max_r|exact Hx].
Qed.

End Sampling.





(** ** The partition property of [kMeans] *)

(** What the entry point promises of its result: at most [k] clusters, none
    empty, which together hold the input as a multiset. *)
Definition partitions (data : list point) (k : Z) (clusters : list (list point)) : Prop :=
  (Z.of_nat (length clusters) <= k)%Z /\
  Forall (fun cluster => cluster <> []) clusters /\
  concat clusters ≡ₚ data.

Lemma kMeans_after_sampling (rnd : nat -> nat) (fuel : nat) (data : list point)
    (k maxIterations : Z) :
  Forall finite_point data ->
  (1 <= k <= Z.of_nat (length data))%Z ->
  (1 <= maxIterations)%Z ->
  is_Some (initializeCentroids rnd fuel data k 0) ->
  exists clusters,
    kMeans rnd fuel data k maxIterations = Some clusters /\
    partitions data k clusters.
Proof.
  intros Hdata Hk Hmax [[centroids pos] Hinit].
  unfold kMeans. rewrite Hinit.
  replace (length data =? 0)%nat with false
    by (symmetry; apply Nat.eqb_neq; lia).
  replace ((k <=? 0)%Z || (Z.of_nat (length data) <? k)%Z) with false
    by (symmetry; apply orb_false_iff; split; [apply Z.leb_gt|apply Z.ltb_ge]; lia).
  destruct (iterate_is_assignment rnd data k (Z.to_nat maxIterations)
              centroids [] pos) as (cs & Hcs & ->).
  { lia. }
  { eapply initializeCentroids_length, Hinit. }
  eexists. split; [reflexivity|]. split; [|split].
  - pose proof (List.filter_length_le
                  (fun cluster : list point => (0 <? length cluster)%nat)
                  (assignPoints data cs k)) as Hle.
    rewrite length_assignPoints in Hle. lia.
  - apply filter_nonempty_Forall.
  - rewrite concat_filter_nonempty. apply assignPoints_partition; trivial; lia.
Qed.

(** C2 (as amended).  For every list of points whose lat, lon and duration
    read as finite numbers, every integer k with 1 <= k <= pointCount and
    every maxIterations >= 1: whenever the sampling of the initial centroids
    terminates, [kMeans] returns at most k clusters, all non-empty, whose
    memberships together are the input as a multiset (no point duplicated,
    none dropped), whether the loop stopped by convergence or by exhausting
    maxIterations; and under a random source that keeps producing every
    index the sampling does terminate, so that [kMeans] returns such a
    result. *)
Theorem kMeans_partition (rnd : nat -> nat) (data : list point) (k maxIterations : Z) :
  Forall finite_point data ->
  (1 <= k <= Z.of_nat (length data))%Z ->
  (1 <= maxIterations)%Z ->
  (forall fuel,
     is_Some (initializeCentroids rnd fuel data k 0) ->
     exists clusters,
       kMeans rnd fuel data k maxIterations = Some clusters /\
       partitions data k clusters) /\
  (fair rnd (length data) ->
   exists fuel clusters,
     kMeans rnd fuel data k maxIterations = Some clusters /\
     partitions data k clusters).
Proof.
  intros Hdata Hk Hmax. split.
  - intros fuel. now apply kMeans_after_sampling.
  - intros Hfair.
    destruct (initializeCentroids_loop_fair rnd data (Z.to_nat k) [] ∅ 0 Hfair)
      as [fuel Hfuel]; [rewrite size_empty; lia|].
    exists fuel. now apply kMeans_after_sampling.
Qed.

Lemma kMeans_partition_witness :
  exists clusters,
    kMeans (fun i => (i mod 2)%nat) 2 [downtown; uptown] 2 default_maxIterations
      = Some clusters /\
    partitions [downtown; uptown] 2 clusters.
Proof.
  apply (kMeans_partition (fun i => (i mod 2)%nat) [downtown; uptown] 2
           default_maxIterations).
  - repeat constructor.
  - simpl; lia.
  - unfold default_maxIterations; lia.
  - vm_compute. eexists; reflexivity.
Defined.

(** C2 (counterexamples).  A point is dropped, and the result is empty, when
    a field is an infinity (the distance of the point to its own copy is NaN
    and [indexOf] answers -1), and when maxIterations is 0 (the loop body
    never runs); and with a random source that keeps producing index 0 the
    sampling of a second centroid never ends, so no result is returned. *)
Lemma kMeans_drops_points :
  kMeans (fun _ => 0%nat) 1 [far_north] 1 default_maxIterations = Some [] /\
  kMeans (fun _ => 0%nat) 1 [downtown] 1 0 = Some [] /\
  (forall fuel, kMeans (fun _ => 0%nat) fuel [downtown; uptown] 2
                  default_maxIterations = None).
Proof.
  split; [vm_compute; reflexivity|]. split; [vm_compute; reflexivity|].
  intros fuel. unfold kMeans, initializeCentroids. simpl.
  destruct fuel as [|fuel]; simpl; [reflexivity|].
  destruct (decide (0%nat ∈ (∅ : gset nat))) as [Hin|_]; [set_solver|].
  destruct fuel as [|fuel]; simpl; [reflexivity|].
  destruct (decide (0%nat ∈ ({[0%nat]} ∪ ∅ : gset nat))) as [_|Hn];
    [|exfalso; apply Hn; set_solver].
  now rewrite sample_unused_stuck.
Qed.

(** ** Degenerate requests *)

(** C6.  With no point the result is empty; with at least one point and
    k <= 0 or k > pointCount the result is the whole input as one cluster.
    Neither case draws from the random source or needs any fuel, whatever
    maxIterations is, and both return normally. *)
Theorem kMeans_degenerate (rnd : nat -> nat) (fuel : nat) (data : list point)
    (k maxIterations : Z) :
  data = [] \/ (k <= 0)%Z \/ (Z.of_nat (length data) < k)%Z ->
  kMeans rnd fuel data k maxIterations
    = Some (match data with [] => [] | _ :: _ => [data] end).
Proof.
  intros H. unfold kMeans. destruct data as [|p data]; [reflexivity|].
  destruct H as [H|H]; [discriminate|].
  replace (length (p :: data) =? 0)%nat with false by reflexivity.
  replace ((k <=? 0)%Z || (Z.of_nat (length (p :: data)) <? k)%Z) with true;
    [reflexivity|].
  symmetry. apply orb_true_iff.
  destruct H; [left; apply Z.leb_le|right; apply Z.ltb_lt]; assumption.
Qed.

Lemma kMeans_degenerate_witness :
  kMeans (fun _ => 0%nat) 0 [] 3 default_maxIterations = Some [] /\
  kMeans (fun _ => 0%nat) 0 [downtown; uptown] 0 default_maxIterations
    = Some [[downtown; uptown]] /\
  kMeans (fun _ => 0%nat) 0 [downtown; uptown] 3 default_maxIterations
    = Some [[downtown; uptown]].
Proof.
  split; [|split].
  - apply (kMeans_degenerate (fun _ => 0%nat) 0 [] 3 default_maxIterations).
    left; reflexivity.
  - apply (kMeans_degenerate (fun _ => 0%nat) 0 [downtown; uptown] 0
             default_maxIterations).
    right; left; lia.
  - apply (kMeans_degenerate (fun _ => 0%nat) 0 [downtown; uptown] 3
             default_maxIterations).
    right; right; simpl; lia.
Defined.

(** ** Two more properties of the entry point *)

Lemma iterate_submseteq rnd data k : forall n centroids clusters pos,
  concat clusters ⊆+ data ->
  concat (iterate rnd data k n centroids clusters pos) ⊆+ data.
Proof.
  induction n as [|n IH]; intros centroids clusters pos Hc; simpl; [exact Hc|].
  destruct (updateCentroids rnd data (assignPoints data centroids k) pos)
    as [newCentroids pos'].
  destruct (converged centroids newCentroids).
  - apply assignPoints_submseteq.
  - apply IH, assignPoints_submseteq.
Qed.

(** X3.  Whatever the points, the cluster count and the iteration budget, a
    result of [kMeans] never holds a point more often than the input does,
    and never holds an empty cluster. *)
Lemma kMeans_never_duplicates (rnd : nat -> nat) (fuel : nat) (data : list point)
    (k maxIterations : Z) (clusters : list (list point)) :
  kMeans rnd fuel data k maxIterations = Some clusters ->
  concat clusters ⊆+ data /\ Forall (fun cluster => cluster <> []) clusters.
Proof.
  unfold kMeans. destruct data as [|p data].
  - simpl. intros [= <-]. split; [reflexivity|constructor].
  - replace (length (p :: data) =? 0)%nat with false by reflexivity.
    destruct (_ || _).
    + intros [= <-]. simpl. rewrite app_nil_r.
      split; [reflexivity|]. constructor; [discriminate|constructor].
    + destruct (initializeCentroids rnd fuel (p :: data) k 0) as [[centroids pos]|];
        [|discriminate].
      intros [= <-]. split; [|apply filter_nonempty_Forall].
      rewrite concat_filter_nonempty. apply iterate_submseteq.
      apply submseteq_nil_l.
Qed.

Lemma kMeans_never_duplicates_witness :
  concat [[downtown]; [uptown]] ⊆+ [downtown; uptown] /\
  Forall (fun cluster => cluster <> []) [[downtown]; [uptown]].
Proof.
  apply (kMeans_never_duplicates (fun i => (i mod 2)%nat) 2 [downtown; uptown] 2
           default_maxIterations).
  vm_compute. reflexivity.
Defined.

(** X4.  With k = 1, finite points and at least one iteration, the result is
    one cluster holding every input point; one draw is all the sampling
    needs. *)
Lemma kMeans_single_cluster (rnd : nat -> nat) (fuel : nat) (data : list point)
    (maxIterations : Z) :
  data <> [] -> Forall finite_point data -> (1 <= maxIterations)%Z ->
  (1 <= fuel)%nat ->
  exists cluster,
    kMeans rnd fuel data 1 maxIterations = Some [cluster] /\ cluster ≡ₚ data.
Proof.
  intros Hne Hdata Hmax Hfuel.
  destruct (kMeans_after_sampling rnd fuel data 1 maxIterations)
    as (clusters & Hk & Hlen & Hnonempty & Hperm); trivial.
  - destruct data; [congruence|simpl; lia].
  - unfold initializeCentroids. simpl.
    destruct fuel as [|fuel]; [lia|]. simpl.
    destruct (decide (rnd 0%nat ∈ (∅ : gset nat))) as [Hin|_]; [set_solver|eauto].
  - destruct clusters as [|c [|c' rest]]; simpl in *.
    + apply Permutation_nil in Hperm. congruence.
    + exists c. rewrite app_nil_r in Hperm. now split.
    + lia.
Qed.

Lemma kMeans_single_cluster_witness :
  exists cluster,
    kMeans (fun _ => 0%nat) 1 [downtown; uptown] 1 default_maxIterations
      = Some [cluster] /\
    cluster ≡ₚ [downtown; uptown].
Proof.
  apply (kMeans_single_cluster (fun _ => 0%nat) 1 [downtown; uptown]
           default_maxIterations).
  - discriminate.
  - repeat constructor.
  - unfold default_maxIterations; lia.
  - lia.
Defined.

End ClusterFacts.

(* ===================================================================== *)
(** * A reference [Math] library *)
(* ===================================================================== *)

(** One implementation of the three transcendental functions, by truncated
    power series, accurate to about fifteen digits for arguments of at most
    one radian, which covers the latitudes of the city.  It serves to run
    the model on concrete records. *)
Module RefMath.

Import JS Ieee.
Local Open Scope float_scope.

Definition sin_series (x : float) : float :=
  let x2 := x * x in
  x * (1 - x2 / 6 * (1 - x2 / 20 * (1 - x2 / 42 * (1 - x2 / 72 *
      (1 - x2 / 110 * (1 - x2 / 156 * (1 - x2 / 210 * (1 - x2 / 272)))))))).

Definition cos_series (x : float) : float :=
  let x2 := x * x in
  1 - x2 / 2 * (1 - x2 / 12 * (1 - x2 / 30 * (1 - x2 / 56 *
      (1 - x2 / 90 * (1 - x2 / 132 * (1 - x2 / 182 * (1 - x2 / 240))))))).

Definition atan_series (t : float) : float :=
  let t2 := t * t in
  t * (1 - t2 * (1 / 3 - t2 * (1 / 5 - t2 * (1 / 7 - t2 * (1 / 9 -
      t2 * (1 / 11 - t2 * (1 / 13 - t2 / 15))))))).

(** [atan t = 2 * atan (halve t)] *)
Definition halve (t : float) : float := t / (1 + sqrt (1 + t * t)).

Definition atan (t : float) : float := 8 * atan_series (halve (halve (halve t))).

Definition atan2 (y x : float) : float :=
  if (is_nan y || is_nan x)%bool then nan
  else if 0 <? x then atan (y / x)
  else if x <? 0 then
    (if y <? 0 then atan (y / x) - Math_PI else atan (y / x) + Math_PI)
  else if 0 <? y then Math_PI / 2
  else if y <? 0 then - (Math_PI / 2)
  else 0.

Definition lib : MathLib := {|
  Math_sin := fun x => if is_finite x then sin_series x else nan;
  Math_cos := fun x => if is_finite x then cos_series x else nan;
  Math_atan2 := atan2
|}.

Lemma lib_conforming : conforming lib.
Proof.
  split; simpl.
  - now intros x ->.
  - now intros x ->.
  - reflexivity.
  - intros x. unfold atan2. change (is_nan nan) with true.
    now rewrite orb_true_r.
Qed.

End RefMath.

(* ===================================================================== *)
(** * Facts about [scripts/importData.js] *)
(* ===================================================================== *)

Module ImportFacts.

Import JS Ieee JSFacts ImportData.
Local Open Scope float_scope.

(** ** The haversine distance *)

Lemma Prim2SF_PI : Prim2SF Math_PI = S754_finite false 7074237752028440 (-51).
Proof. reflexivity. Qed.

Lemma Prim2SF_180 : Prim2SF 180 = S754_finite false 6333186975989760 (-45).
Proof. reflexivity. Qed.

Lemma Prim2SF_2 : Prim2SF 2 = S754_finite false 4503599627370496 (-51).
Proof. reflexivity. Qed.

(** Half an angle in radians, from a difference of degrees that is NaN or
    infinite, is NaN or infinite. *)
Lemma half_radians_not_finite x :
  is_finite x = false -> is_finite (x * Math_PI / 180 / 2) = false.
Proof.
  intros Hx.
  apply (div_finite_not_finite _ _ _ _ _ Prim2SF_2).
  apply (div_finite_not_finite _ _ _ _ _ Prim2SF_180).
  apply (mul_finite_not_finite _ _ _ _ _ Prim2SF_PI), Hx.
Qed.

Section WithMath.

Variable M : MathLib.

(** The value returned when the haversine term [a] is NaN. *)
Lemma haversine_tail_nan :
  conforming M -> 6371 * (2 * Math_atan2 M (sqrt nan) (sqrt (1 - nan))) = nan.
Proof.
  intros HM. rewrite sqrt_nan, (atan2_nan_l M HM), !mul_nan_r. reflexivity.
Qed.

(** C1 (as amended).  The haversine computation returns normally, with a
    number, on every input: it has no check and never raises, for finite and
    non-finite coordinates alike.  When any of the four coordinates is NaN or
    infinite the number returned is NaN, the bad input being propagated
    silently (for every Math implementation that follows ECMAScript on NaN
    and infinite arguments). *)
Theorem calculateDistance_returns (lat1 lon1 lat2 lon2 : float) :
  exists r,
    calculateDistance M lat1 lon1 lat2 lon2 = Return r /\
    (conforming M ->
     is_finite lat1 = false \/ is_finite lon1 = false \/
     is_finite lat2 = false \/ is_finite lon2 = false ->
     r = nan).
Proof.
  eexists. split; [reflexivity|].
  intros HM Hbad.
  assert (Hsin : Math_sin M ((lat2 - lat1) * Math_PI / 180 / 2) = nan \/
                 Math_sin M ((lon2 - lon1) * Math_PI / 180 / 2) = nan).
  { destruct Hbad as [H|[H|[H|H]]]; [left|right|left|right];
      apply (sin_not_finite M HM), half_radians_not_finite, sub_not_finite; auto. }
  destruct Hsin as [-> | ->].
  - rewrite mul_nan_l, add_nan_l. apply haversine_tail_nan, HM.
  - rewrite !mul_nan_r, add_nan_r. apply haversine_tail_nan, HM.
Qed.

End WithMath.

Lemma calculateDistance_returns_witness :
  exists r,
    calculateDistance RefMath.lib infinity (-73.98) 40.75 (-73.98) = Return r /\
    r = nan.
Proof.
  destruct (calculateDistance_returns RefMath.lib infinity (-73.98) 40.75 (-73.98))
    as (r & Hr & Hnan).
  exists r. split; [exact Hr|].
  apply Hnan; [exact RefMath.lib_conforming|left; reflexivity].
Defined.

(** C1 (counterexample).  Called with a NaN latitude, or with an infinite
    one, the function does not fail with InvalidInputError: it returns, and
    what it returns under the reference Math library is NaN. *)
Lemma calculateDistance_accepts_nan :
  is_finite nan = false /\ is_finite infinity = false /\
  (forall M, exists r,
     calculateDistance M nan (-73.98) 40.75 (-73.98) = Return r /\
     calculateDistance M nan (-73.98) 40.75 (-73.98) <> Throw InvalidInputError) /\
  calculateDistance RefMath.lib nan (-73.98) 40.75 (-73.98) = Return nan /\
  calculateDistance RefMath.lib infinity (-73.98) 40.75 (-73.98) = Return nan.
Proof.
  split; [reflexivity|]. split; [reflexivity|]. split; [|split].
  - intros M. eexists. split; [reflexivity|discriminate].
  - vm_compute. reflexivity.
  - vm_compute. reflexivity.
Qed.

(** ** Borough lookup *)

Lemma getBorough_in_returns entries lat lon :
  exists name, getBorough_in entries lat lon = Return name.
Proof.
  induction entries as [|[borough b] rest IH]; simpl; [eauto|].
  destruct (within b lat lon); [eauto|exact IH].
Qed.

(** C5.  [getBorough] walks the rectangles in the order of the table and
    answers the name of the first one that contains the point, all four
    bounds inclusive, or "Unknown" when none does; the answer is a function
    of the point, and is one of the names of the table or "Unknown".  The
    table of the program lists Manhattan first, with the rectangle
    40.70-40.80, -74.05 to -73.90; against that rectangle, whatever the
    others, (40.75, -73.98) is in Manhattan, as are the corners of the
    rectangle. *)
Theorem getBorough_first_match (entries : list (string * bounds)) (lat lon : float) :
  (exists name,
     getBorough_in entries lat lon = Return name /\
     ((exists before b after,
         entries = before ++ (name, b) :: after /\
         (minLat b <=? lat) = true /\ (lat <=? maxLat b) = true /\
         (minLon b <=? lon) = true /\ (lon <=? maxLon b) = true /\
         Forall (fun e => within (snd e) lat lon = false) before) \/
      (name = "Unknown"%string /\
       Forall (fun e => within (snd e) lat lon = false) entries)) /\
     (In name (map fst entries) \/ name = "Unknown"%string)) /\
  getBorough = getBorough_in BOROUGHS /\
  head BOROUGHS = Some ("Manhattan"%string,
    {| minLat := 40.70; maxLat := 40.80; minLon := -74.05; maxLon := -73.90 |}) /\
  (forall others,
     getBorough_in
       (("Manhattan"%string,
         {| minLat := 40.70; maxLat := 40.80; minLon := -74.05; maxLon := -73.90 |})
        :: others) 40.75 (-73.98) = Return "Manhattan"%string) /\
  getBorough 40.75 (-73.98) = Return "Manhattan"%string /\
  getBorough 40.70 (-74.05) = Return "Manhattan"%string /\
  getBorough 40.80 (-73.90) = Return "Manhattan"%string.
Proof.
  split; [|repeat split; try (vm_compute; reflexivity); intros others; reflexivity].
  induction entries as [|[borough b] rest IH]; simpl.
  - exists "Unknown"%string. split; [reflexivity|]. split; [|now right].
    right. split; [reflexivity|constructor].
  - destruct (within b lat lon) eqn:E.
    + exists borough. split; [reflexivity|]. split; [|now left; left].
      left. exists [], b, rest. unfold within in E.
      apply andb_true_iff in E as [E E4]. apply andb_true_iff in E as [E E3].
      apply andb_true_iff in E as [E1 E2].
      repeat split; trivial.
    + destruct IH as (name & Hname & Hcase & Hin).
      exists name. split; [exact Hname|]. split.
      * destruct Hcase as [(before & b' & after & -> & H1 & H2 & H3 & H4 & Hbefore)|[-> Hall]].
        -- left. exists ((borough, b) :: before), b', after.
           repeat split; trivial. constructor; [exact E|exact Hbefore].
        -- right. split; [reflexivity|]. constructor; [exact E|exact Hall].
      * destruct Hin as [Hin|Hin]; [left; now right|now right].
Qed.

(** ** Coordinate validation *)

(** C8.  (0, 0) is invalid whatever the bounding rectangle; in general a
    coordinate is valid exactly when neither value equals 0 and both lie
    within the rectangle, bounds included.  The function always returns its
    boolean and never raises.  The program uses the rectangle [NYC_BOUNDS]. *)
Theorem isValidCoordinate_spec :
  (forall B, isValidCoordinate_in B 0 0 = Return false) /\
  (forall B lat lon, exists valid,
     isValidCoordinate_in B lat lon = Return valid /\
     (valid = true <->
      (lat =? 0) = false /\ (lon =? 0) = false /\
      (minLat B <=? lat) = true /\ (lat <=? maxLat B) = true /\
      (minLon B <=? lon) = true /\ (lon <=? maxLon B) = true)) /\
  isValidCoordinate = isValidCoordinate_in NYC_BOUNDS.
Proof.
  split; [reflexivity|]. split; [|reflexivity].
  intros B lat lon. eexists. split; [reflexivity|].
  unfold within. rewrite !andb_true_iff, !negb_true_iff. tauto.
Qed.

(** ** Trip type *)

(** C7.  Enrichment always produces a record; its trip type is "Cross
    Borough" exactly when the pickup and dropoff boroughs differ and neither
    is "Unknown", and it is "Within Borough" in every other case, so also for
    Unknown against Unknown and Unknown against a known borough.  The two
    boroughs are those [getBorough] gives for the parsed coordinates. *)
Theorem enrichTripData_trip_type (M : MathLib) (record : RawTripRecord) :
  exists e,
    enrichTripData M record = Return e /\
    getBorough (parseFloat (cell (pickup_latitude record)))
               (parseFloat (cell (pickup_longitude record)))
      = Return (pickup_borough e) /\
    getBorough (parseFloat (cell (dropoff_latitude record)))
               (parseFloat (cell (dropoff_longitude record)))
      = Return (dropoff_borough e) /\
    (trip_type e = "Cross Borough"%string <->
     pickup_borough e <> dropoff_borough e /\
     pickup_borough e <> "Unknown"%string /\
     dropoff_borough e <> "Unknown"%string) /\
    (trip_type e <> "Cross Borough"%string -> trip_type e = "Within Borough"%string).
Proof.
  unfold enrichTripData, calculateDistance. cbn [bind].
  destruct (getBorough_in_returns BOROUGHS
              (parseFloat (cell (pickup_latitude record)))
              (parseFloat (cell (pickup_longitude record)))) as (pb & Hpb).
  destruct (getBorough_in_returns BOROUGHS
              (parseFloat (cell (dropoff_latitude record)))
              (parseFloat (cell (dropoff_longitude record)))) as (db & Hdb).
  unfold getBorough. rewrite Hpb. cbn [bind]. rewrite Hdb. cbn [bind].
  eexists. split; [reflexivity|].
  cbn [pickup_borough dropoff_borough trip_type].
  split; [reflexivity|]. split; [reflexivity|].
  destruct (String.eqb_spec pb db) as [Heq|Hne];
    destruct (String.eqb_spec pb "Unknown") as [Hp|Hp];
    destruct (String.eqb_spec db "Unknown") as [Hd|Hd]; simpl;
    (split; [split; [try discriminate; try tauto|tauto]|tauto]).
Qed.

(** ** Trip validation *)

(** The five parsed readings of a record. *)
Definition pickupLat (r : RawTripRecord) : float := parseFloat (cell (pickup_latitude r)).
Definition pickupLon (r : RawTripRecord) : float := parseFloat (cell (pickup_longitude r)).
Definition dropoffLat (r : RawTripRecord) : float := parseFloat (cell (dropoff_latitude r)).
Definition dropoffLon (r : RawTripRecord) : float := parseFloat (cell (dropoff_longitude r)).
Definition duration (r : RawTripRecord) : float := parseInt (trip_duration r).
Definition passengers (r : RawTripRecord) : float := parseInt (passenger_count r).

(** Whether both endpoints pass [isValidCoordinate]. *)
Definition endpoints_valid (r : RawTripRecord) : bool :=
  (negb (pickupLat r =? 0) && negb (pickupLon r =? 0) &&
   within NYC_BOUNDS (pickupLat r) (pickupLon r)) &&
  (negb (dropoffLat r =? 0) && negb (dropoffLon r =? 0) &&
   within NYC_BOUNDS (dropoffLat r) (dropoffLon r)).

(** [isValidTrip] never raises, and what it returns is the conjunction of
    its checks as the code writes them: each range check rejects a value
    that compares below the lower or above the upper bound. *)
Lemma isValidTrip_checks (M : MathLib) (r : RawTripRecord) :
  exists distance,
    calculateDistance M (pickupLat r) (pickupLon r) (dropoffLat r) (dropoffLon r)
      = Return distance /\
    isValidTrip M r
      = Return (endpoints_valid r &&
                negb ((duration r <? 30) || (10800 <? duration r)) &&
                negb ((passengers r <? 1) || (6 <? passengers r)) &&
                negb ((distance <? 0.1) || (100 <? distance))).
Proof.
  eexists. split; [reflexivity|].
  unfold isValidTrip, isValidCoordinate, isValidCoordinate_in, endpoints_valid,
    calculateDistance, pickupLat, pickupLon, dropoffLat, dropoffLon, duration,
    passengers.
  cbn [bind].
  destruct (negb _ && negb _ && within NYC_BOUNDS _ _); cbn [bind negb andb];
    [|reflexivity].
  destruct (negb _ && negb _ && within NYC_BOUNDS _ _); cbn [bind negb andb];
    [|reflexivity].
  destruct (_ || _); cbn [negb andb]; [reflexivity|].
  destruct (_ || _); cbn [negb andb]; [reflexivity|].
  destruct (_ || _); reflexivity.
Qed.

(** A row whose duration cell is empty, and is otherwise a plausible trip of
    about 1.4 km in Manhattan with one passenger. *)
Definition row_without_duration : RawTripRecord := {|
  pickup_latitude := Some "40.75"%string;
  pickup_longitude := Some "-73.98"%string;
  dropoff_latitude := Some "40.76"%string;
  dropoff_longitude := Some "-73.97"%string;
  trip_duration := Some EmptyString;
  passenger_count := Some "1"%string
|}.

(** C3 (the code at the failing input).  The duration of
    [row_without_duration] parses to NaN, which lies in no range; the
    duration check lets it through, so the row is accepted whenever the
    distance check passes, and it is accepted under the reference Math
    library. *)
Theorem isValidTrip_accepts_unparsed_duration :
  duration row_without_duration = nan /\
  (forall M d,
     calculateDistance M 40.75 (-73.98) 40.76 (-73.97) = Return d ->
     (d <? 0.1) = false -> (100 <? d) = false ->
     isValidTrip M row_without_duration = Return true) /\
  isValidTrip RefMath.lib row_without_duration = Return true.
Proof.
  split; [reflexivity|]. split; [|vm_compute; reflexivity].
  intros M d Hd Hlo Hhi.
  destruct (isValidTrip_checks M row_without_duration) as (d' & Hd' & ->).
  change (pickupLat row_without_duration) with 40.75 in Hd'.
  change (pickupLon row_without_duration) with (-73.98) in Hd'.
  change (dropoffLat row_without_duration) with 40.76 in Hd'.
  change (dropoffLon row_without_duration) with (-73.97) in Hd'.
  rewrite Hd in Hd'. injection Hd' as <-.
  rewrite Hlo, Hhi. vm_compute. reflexivity.
Qed.

(** X1.  On a record whose duration and passenger count parse to numbers,
    and whose distance is a number, [isValidTrip] is the composite check
    with inclusive ranges. *)
Lemma isValidTrip_inclusive_ranges (M : MathLib) (r : RawTripRecord) (distance : float) :
  is_nan (duration r) = false -> is_nan (passengers r) = false ->
  is_nan distance = false ->
  calculateDistance M (pickupLat r) (pickupLon r) (dropoffLat r) (dropoffLon r)
    = Return distance ->
  isValidTrip M r
    = Return (endpoints_valid r &&
              ((30 <=? duration r) && (duration r <=? 10800)) &&
              ((1 <=? passengers r) && (passengers r <=? 6)) &&
              ((0.1 <=? distance) && (distance <=? 100))).
Proof.
  intros Hdur Hpass Hdist Hcalc.
  destruct (isValidTrip_checks M r) as (d & Hd & ->).
  rewrite Hcalc in Hd. injection Hd as <-.
  rewrite !negb_orb.
  rewrite (ltb_negb_leb (duration r) 30), (ltb_negb_leb 10800 (duration r)),
    (ltb_negb_leb (passengers r) 1), (ltb_negb_leb 6 (passengers r)),
    (ltb_negb_leb distance 0.1), (ltb_negb_leb 100 distance), !negb_involutive
    by (trivial; reflexivity).
  reflexivity.
Qed.


(** A row that passes every check, and the same trip lasting 29 seconds. *)
Definition ordinary_row : RawTripRecord := {|
  pickup_latitude := Some "40.75"%string;
  pickup_longitude := Some "-73.98"%string;
  dropoff_latitude := Some "40.76"%string;
  dropoff_longitude := Some "-73.97"%string;
  trip_duration := Some "455"%string;
  passenger_count := Some "1"%string
|}.

Definition short_row : RawTripRecord := {|
  pickup_latitude := Some "40.75"%string;
  pickup_longitude := Some "-73.98"%string;
  dropoff_latitude := Some "40.76"%string;
  dropoff_longitude := Some "-73.97"%string;
  trip_duration := Some "29"%string;
  passenger_count := Some "1"%string
|}.

Lemma isValidTrip_inclusive_ranges_witness :
  isValidTrip RefMath.lib ordinary_row = Return true.
Proof.
  refine (eq_trans (isValidTrip_inclusive_ranges RefMath.lib ordinary_row _ _ _ _ _) _);
    [reflexivity|reflexivity| |vm_compute; reflexivity|vm_compute; reflexivity].
  reflexivity.
Defined.


End ImportFacts.

(* ===================================================================== *)
(** * The order of the numbers *)
(* ===================================================================== *)

Module OrderFacts.

Import JS Ieee JSFacts.
Local Open Scope float_scope.

(** The comparison of [SpecFloat] as a three-way test on non-NaN values. *)
Definition sf_le (x y : spec_float) : bool :=
  match SFcompare x y with Some (Lt | Eq) => true | _ => false end.

Ltac order_cases :=
  repeat match goal with
  | |- context [Z.compare ?a ?b] => destruct (Z.compare_spec a b)
  | H : context [Z.compare ?a ?b] |- _ => destruct (Z.compare_spec a b)
  | |- context [Pos.compare_cont ?c ?a ?b] =>
      rewrite (Pos.compare_cont_spec a b c)
  | H : context [Pos.compare_cont ?c ?a ?b] |- _ =>
      rewrite (Pos.compare_cont_spec a b c) in H
  | |- context [Pos.compare ?a ?b] => destruct (Pos.compare_spec a b)
  | H : context [Pos.compare ?a ?b] |- _ => destruct (Pos.compare_spec a b)
  end.

Lemma sf_le_trans x y z : sf_le x y = true -> sf_le y z = true -> sf_le x z = true.
Proof.
  unfold sf_le, SFcompare.
  destruct x as [[|]|[|]| |[|] mx ex], y as [[|]|[|]| |[|] my ey],
           z as [[|]|[|]| |[|] mz ez];
    try reflexivity; try discriminate; simpl;
    intros Hxy Hyz; order_cases; simpl in *;
    try reflexivity; try discriminate; subst; lia.
Qed.

Lemma leb_trans x y z : (x <=? y) = true -> (y <=? z) = true -> (x <=? z) = true.
Proof.
  rewrite !FloatAxioms.leb_spec. unfold SFleb.
  apply sf_le_trans.
Qed.

Lemma leb_refl x : is_nan x = false -> (x <=? x) = true.
Proof.
  intros Hx. rewrite FloatAxioms.leb_spec. unfold SFleb.
  rewrite is_nan_spec in Hx. unfold sf_is_nan in Hx.
  destruct (Prim2SF x) as [[|]|[|]| |[|] m e]; try reflexivity; try discriminate; simpl;
  rewrite Z.compare_refl, ?Pos.compare_cont_refl; reflexivity.
Qed.

Lemma ltb_leb x y : (x <? y) = true -> (x <=? y) = true.
Proof.
  rewrite FloatAxioms.ltb_spec, FloatAxioms.leb_spec. unfold SFltb, SFleb.
  destruct (SFcompare _ _) as [[| |]|]; congruence.
Qed.

Lemma eqb_leb x y : (x =? y) = true -> (x <=? y) = true.
Proof.
  rewrite FloatAxioms.eqb_spec, FloatAxioms.leb_spec. unfold SFeqb, SFleb.
  destruct (SFcompare _ _) as [[| |]|]; congruence.
Qed.

Lemma eqb_sym x y : (x =? y) = (y =? x).
Proof.
  rewrite !FloatAxioms.eqb_spec. unfold SFeqb.
  rewrite (SFcompare_antisym (Prim2SF x) (Prim2SF y)).
  destruct (SFcompare _ _) as [[| |]|]; reflexivity.
Qed.

(** Below or equal, and not equal, is strictly below. *)
Lemma leb_neq_ltb x y : (x <=? y) = true -> (x =? y) = false -> (x <? y) = true.
Proof.
  rewrite FloatAxioms.eqb_spec, FloatAxioms.leb_spec, FloatAxioms.ltb_spec.
  unfold SFeqb, SFleb, SFltb.
  destruct (SFcompare _ _) as [[| |]|]; congruence.
Qed.

End OrderFacts.

(* ===================================================================== *)
(** * The nearest centroid *)
(* ===================================================================== *)

Module NearestFacts.

Import JS Ieee JSFacts TripClusterer ClusterFacts OrderFacts.
Local Open Scope float_scope.


(** [Math.min] is a lower bound of its arguments and of the starting value. *)
Lemma Math_min_from_lower l : forall lowest,
  Forall not_nan l -> is_nan lowest = false ->
  (Math_min_from lowest l <=? lowest) = true /\
  Forall (fun x => (Math_min_from lowest l <=? x) = true) l.
Proof.
  induction l as [|x rest IH]; intros lowest Hl Hlow; simpl.
  - split; [now apply leb_refl|constructor].
  - inversion Hl as [|? ? Hx Hrest]; subst. rewrite Hx.
    set (lowest' := if (Leibniz.eqb x neg_zero && Leibniz.eqb lowest zero)%bool
                    then x else if x <? lowest then x else lowest).
    assert (H' : is_nan lowest' = false /\ (lowest' <=? lowest) = true /\
                 (lowest' <=? x) = true).
    { unfold lowest'. destruct (_ && _)%bool eqn:E.
      - apply andb_true_iff in E as [E1 E2].
        apply Leibniz.eqb_spec in E1, E2. subst. repeat split; reflexivity.
      - destruct (x <? lowest) eqn:Elt.
        + repeat split; [exact Hx|now apply ltb_leb|now apply leb_refl].
        + repeat split; [exact Hlow|now apply leb_refl|].
          rewrite (ltb_negb_leb x lowest Hx Hlow) in Elt.
          now destruct (lowest <=? x). }
    destruct H' as (Hn & Hle & Hlex).
    destruct (IH lowest' Hrest Hn) as [Hm Hall].
    split; [|constructor]; [eapply leb_trans; eassumption
                           |eapply leb_trans; eassumption|exact Hall].
Qed.

Lemma Math_min_lower l x :
  Forall not_nan l -> In x l -> (Math_min l <=? x) = true.
Proof.
  intros Hl Hx. unfold Math_min.
  destruct (Math_min_from_lower l infinity Hl eq_refl) as [_ Hall].
  rewrite List.Forall_forall in Hall. now apply Hall.
Qed.

(** [indexOf] answers the first position that holds an equal number. *)
Lemma indexOf_from_first l x : forall i r,
  (0 <= i)%Z -> indexOf_from i l x = r -> (i <= r)%Z ->
  exists y, l !! Z.to_nat (r - i) = Some y /\ (y =? x) = true /\
    forall j y', (j < Z.to_nat (r - i))%nat -> l !! j = Some y' -> (y' =? x) = false.
Proof.
  induction l as [|y rest IH]; intros i r; simpl.
  - intros Hi0 <-. lia.
  - intros Hi0. destruct (y =? x) eqn:E.
    + intros <- _. rewrite Z.sub_diag. exists y. repeat split; trivial.
      intros j y' Hj. simpl in Hj. lia.
    + intros Hr Hi.
      assert (Hlt : (i + 1 <= r)%Z).
      { destruct (indexOf_from_range rest x (i + 1)%Z) as [H|H]; lia. }
      destruct (IH (i + 1)%Z r ltac:(lia) Hr Hlt) as (y0 & Hy0 & Heq & Hfirst).
      replace (Z.to_nat (r - i)) with (S (Z.to_nat (r - (i + 1)))) by lia.
      exists y0. repeat split; trivial.
      intros [|j] y' Hj Hy'; simpl in Hy'.
      * now injection Hy' as <-.
      * apply (Hfirst j); [lia|exact Hy'].
Qed.


Lemma eqb_not_nan x y : (x =? y) = true -> is_nan x = false /\ is_nan y = false.
Proof.
  rewrite FloatAxioms.eqb_spec, !is_nan_spec. unfold SFeqb.
  destruct (Prim2SF x), (Prim2SF y); simpl; try discriminate; split; reflexivity.
Qed.

Lemma leb_antisym x y : (x <=? y) = true -> (y <=? x) = true -> (x =? y) = true.
Proof.
  rewrite !FloatAxioms.leb_spec, FloatAxioms.eqb_spec. unfold SFleb, SFeqb.
  rewrite (SFcompare_antisym (Prim2SF x) (Prim2SF y)).
  destruct (SFcompare _ _) as [[| |]|]; simpl; congruence.
Qed.

(** [Math.min] answers a number only when every argument is one. *)
Lemma Math_min_from_not_nan l : forall lowest,
  is_nan (Math_min_from lowest l) = false -> Forall not_nan l.
Proof.
  induction l as [|x rest IH]; intros lowest; simpl; [constructor|].
  destruct (is_nan x) eqn:Hx; [discriminate|].
  intros H. constructor; [exact Hx|]. eapply IH, H.
Qed.

(** The position [distances.indexOf(Math.min(...distances))], when there is
    one, holds a smallest distance, and no earlier position holds one as
    small. *)
Lemma indexOf_Math_min_nearest l r :
  indexOf l (Math_min l) = r -> (0 <= r)%Z ->
  exists y, l !! Z.to_nat r = Some y /\
    (forall j z, l !! j = Some z -> (y <=? z) = true) /\
    (forall j z, (j < Z.to_nat r)%nat -> l !! j = Some z -> (y <? z) = true).
Proof.
  intros Hr H0.
  destruct (indexOf_from_first l (Math_min l) 0 r ltac:(lia) Hr H0)
    as (y & Hy & Heq & Hfirst).
  rewrite Z.sub_0_r in Hy, Hfirst.
  destruct (eqb_not_nan _ _ Heq) as [Hyn Hmn].
  pose proof (Math_min_from_not_nan l infinity Hmn) as Hl.
  assert (Hlow : forall j z, l !! j = Some z -> (Math_min l <=? z) = true).
  { intros j z Hz. apply Math_min_lower; [exact Hl|].
    apply list_elem_of_In. eapply list_elem_of_lookup_2, Hz. }
  exists y. split; [exact Hy|]. split.
  - intros j z Hz. eapply leb_trans; [apply eqb_leb, Heq|eapply Hlow, Hz].
  - intros j z Hj Hz.
    assert (Hzn : is_nan z = false).
    { rewrite List.Forall_forall in Hl. apply Hl, list_elem_of_In.
      eapply list_elem_of_lookup_2, Hz. }
    rewrite (ltb_negb_leb y z Hyn Hzn).
    destruct (z <=? y) eqn:Ezy; [|reflexivity].
    assert (Hzm : (z =? Math_min l) = true).
    { apply leb_antisym; [|eapply Hlow, Hz].
      eapply leb_trans; [exact Ezy|apply eqb_leb, Heq]. }
    rewrite (Hfirst j z Hj Hz) in Hzm. discriminate.
Qed.

Definition distance (p c : point) : float := calculateDistance (Some p) (Some c).

(** Centroid [i] is the nearest one to [p], and the first among equally near
    ones. *)
Definition nearest (centroids : list point) (p : point) (i : nat) : Prop :=
  exists c, centroids !! i = Some c /\
    (forall j c', centroids !! j = Some c' -> (distance p c <=? distance p c') = true) /\
    (forall j c', (j < i)%nat -> centroids !! j = Some c' ->
       (distance p c <? distance p c') = true).

Lemma assignPoint_nearest centroids clusters p :
  (forall i cluster q, clusters !! i = Some cluster -> In q cluster ->
     nearest centroids q i) ->
  forall i cluster q, assignPoint centroids clusters p !! i = Some cluster ->
    In q cluster -> nearest centroids q i.
Proof.
  intros Hinv i cluster q. unfold assignPoint.
  set (distances := map _ centroids).
  destruct (_ && _)%bool eqn:E; [|apply Hinv].
  apply andb_true_iff in E as [H0 _]. apply Z.leb_le in H0.
  destruct (indexOf_Math_min_nearest distances _ eq_refl H0) as (y & Hy & Hle & Hlt).
  set (r := Z.to_nat (indexOf distances (Math_min distances))) in *.
  destruct (decide (i = r)) as [->|Hne].
  - rewrite list_lookup_alter, decide_True by reflexivity.
    destruct (clusters !! r) as [old|] eqn:Hold; simpl; [|discriminate].
    intros [= <-] Hq. apply in_app_or in Hq as [Hq|[<-|[]]]; [now apply (Hinv r old)|].
    unfold distances in Hy. rewrite list_lookup_fmap in Hy.
    destruct (centroids !! r) as [c|] eqn:Hc; [|discriminate].
    assert (Hyc : y = distance p c).
    { change (Some (distance p c) = Some y) in Hy. congruence. }
    clear Hy. subst y. exists c. split; [exact Hc|]. split.
    + intros j c' Hc'. apply (Hle j). unfold distances.
      now rewrite list_lookup_fmap, Hc'.
    + intros j c' Hj Hc'. apply (Hlt j); [exact Hj|]. unfold distances.
      now rewrite list_lookup_fmap, Hc'.
  - rewrite list_lookup_alter_ne by congruence. apply Hinv.
Qed.

Lemma fold_assignPoint_nearest centroids data : forall clusters,
  (forall i cluster q, clusters !! i = Some cluster -> In q cluster ->
     nearest centroids q i) ->
  forall i cluster q,
    fold_left (assignPoint centroids) data clusters !! i = Some cluster ->
    In q cluster -> nearest centroids q i.
Proof.
  induction data as [|p data IH]; intros clusters Hinv; simpl; [exact Hinv|].
  apply IH. now apply assignPoint_nearest.
Qed.

(** X5.  The assignment step puts a point only into the cluster of a centroid
    at the smallest distance from it, and among centroids at that distance
    into the cluster of the first one. *)
Theorem assignPoints_nearest (data centroids : list point) (k : Z)
    (i : nat) (cluster : list point) (p : point) :
  assignPoints data centroids k !! i = Some cluster -> In p cluster ->
  nearest centroids p i.
Proof.
  unfold assignPoints. apply fold_assignPoint_nearest.
  intros j cl q Hcl Hq. apply lookup_replicate in Hcl as [-> _]. destruct Hq.
Qed.

Lemma assignPoints_nearest_witness : nearest [downtown; uptown; downtown] downtown 0.
Proof.
  apply (assignPoints_nearest [uptown; downtown] [downtown; uptown; downtown] 3 0
           [downtown] downtown).
  - vm_compute. reflexivity.
  - simpl. left. reflexivity.
Defined.

End NearestFacts.

(* ===================================================================== *)
(** * Integers as numbers *)
(* ===================================================================== *)

Module IntegerFacts.

Import JS Ieee JSFacts OrderFacts.
Local Open Scope Z_scope.

Lemma Zdigits2_mono a b : 0 <= a <= b -> Zdigits2 a <= Zdigits2 b.
Proof.
  intros [Ha Hab]. apply Zdigits2_bound; [apply Zdigits2_nonneg|].
  rewrite Z.abs_eq by lia.
  destruct b as [|p|p]; [simpl; lia| |lia].
  pose proof (pos_lt_pow_digits p). simpl Zdigits2. lia.
Qed.

Lemma round_nearest_even_ge m l : m <= round_nearest_even m l.
Proof.
  destruct l as [|[]]; simpl; try lia. destruct (Z.even m); lia.
Qed.

(** A rounded result in canonical form, or an overflow, of magnitude at least
    [2 ^ (D - 1)]. *)
Definition sf_rounded (s : bool) (D : Z) (x : spec_float) : Prop :=
  x = S754_infinity s \/
  exists m e, x = S754_finite s m e /\ valid_binary x = true /\
    D <= Z.pos (digits2_pos m) + e.

Lemma binary_round_aux_rounded s m e l :
  0 < m -> e <= fexp prec emax (Zdigits2 m + e) -> emin < Zdigits2 m + e ->
  sf_rounded s (Zdigits2 m + e) (binary_round_aux prec emax s m e l).
Proof.
  intros Hm He Hmin. unfold binary_round_aux.
  assert (Hm0 : 0 <= m) by lia.
  pose proof (shr_fexp_digits m e l Hm0) as [He1 Hd1].
  pose proof (shr_fexp_nonneg m e l Hm0) as Hm1.
  destruct (shr_fexp prec emax m e l) as [mrs1 e1]. simpl in He1, Hd1, Hm1.
  set (m2 := round_nearest_even (shr_m mrs1) (loc_of_shr_record mrs1)).
  pose proof (round_nearest_even_digits (shr_m mrs1) (loc_of_shr_record mrs1) Hm1) as Hd2.
  pose proof (round_nearest_even_ge (shr_m mrs1) (loc_of_shr_record mrs1)) as Hge.
  fold m2 in Hd2, Hge.
  assert (Hm2 : 0 <= m2) by lia.
  pose proof (Zdigits2_mono (shr_m mrs1) m2 ltac:(lia)) as Hd2'.
  pose proof (shr_fexp_digits m2 e1 loc_Exact Hm2) as [He2 Hd3].
  pose proof (shr_fexp_nonneg m2 e1 loc_Exact Hm2) as Hm3.
  destruct (shr_fexp prec emax m2 e1 loc_Exact) as [mrs2 e2]. simpl in He2, Hd3, Hm3.
  unfold fexp, SpecFloat.emin, prec, emax in *.
  destruct (shr_m mrs2) as [|m3|m3]; [simpl in Hd3; lia| |lia].
  simpl Zdigits2 in Hd3.
  destruct (e2 <=? 1024 - 53) eqn:Ele; [right|now left].
  exists m3, e2. split; [reflexivity|]. split; [|lia].
  unfold SpecFloat.valid_binary, bounded, canonical_mantissa, fexp, SpecFloat.emin,
    prec, emax.
  rewrite Ele, andb_true_r. apply Z.eqb_eq. lia.
Qed.

Lemma binary_round_rounded s m e :
  emin < Z.pos (digits2_pos m) + e ->
  sf_rounded s (Z.pos (digits2_pos m) + e) (binary_round prec emax s m e).
Proof.
  intros Hmin. unfold binary_round.
  pose proof (shl_align_digits m e (fexp prec emax (Z.pos (digits2_pos m) + e)))
    as [Hd He].
  destruct (shl_align m e _) as [mz ez]; simpl in Hd, He.
  rewrite <- Hd. apply binary_round_aux_rounded; simpl Zdigits2; try lia.
  rewrite Hd. lia.
Qed.

(** The Number nearest to a positive integer. *)
Lemma of_Z_rounded z :
  0 < z -> sf_rounded false (Zdigits2 z) (Prim2SF (of_Z z)).
Proof.
  intros Hz. destruct z as [|p|p]; try lia.
  assert (H : sf_rounded false (Z.pos (digits2_pos p)) (binary_round prec emax false p 0)).
  { rewrite <- (Z.add_0_r (Z.pos (digits2_pos p))) at 1.
    apply binary_round_rounded. unfold SpecFloat.emin, prec, emax. lia. }
  unfold of_Z. simpl binary_normalize. simpl Zdigits2.
  destruct H as [H|(m & e & H & Hv & Hd)]; rewrite H.
  - left. reflexivity.
  - right. exists m, e. rewrite Prim2SF_SF2Prim by (rewrite <- H; exact Hv).
    rewrite <- H. repeat split; trivial.
Qed.

Lemma digits_lt_pos a b :
  Z.pos (digits2_pos a) < Z.pos (digits2_pos b) -> (a < b)%positive.
Proof.
  intros H. pose proof (pos_lt_pow_digits a). pose proof (pow_digits_le_pos b).
  assert (2 ^ (Z.pos (digits2_pos a) + 1) <= 2 ^ Z.pos (digits2_pos b))
    by (apply Z.pow_le_mono_r; lia).
  rewrite Z.pow_add_r in * by lia. lia.
Qed.

(** A rounded value of larger magnitude compares above a finite positive
    number. *)
Lemma sf_rounded_above D x mc ec :
  sf_rounded false D x ->
  valid_binary (S754_finite false mc ec) = true ->
  Z.pos (digits2_pos mc) + ec < D ->
  SFcompare (S754_finite false mc ec) x = Some Lt.
Proof.
  intros [->|(m & e & -> & Hv & Hd)] Hc Hlt; [reflexivity|].
  unfold SpecFloat.valid_binary, bounded, canonical_mantissa in Hv, Hc.
  apply andb_true_iff in Hv as [Hv _]. apply andb_true_iff in Hc as [Hc _].
  apply Z.eqb_eq in Hv, Hc. unfold fexp, SpecFloat.emin, prec, emax in Hv, Hc.
  simpl. destruct (Z.compare_spec ec e) as [Heq| |]; [|reflexivity|lia].
  rewrite Pos.compare_cont_spec.
  assert (Hm : (mc < m)%positive) by (apply digits_lt_pos; lia).
  apply Pos.compare_lt_iff in Hm. now rewrite Hm.
Qed.

Local Open Scope float_scope.

(** An integer with more binary digits than a positive constant has reads as
    a Number above that constant. *)
Lemma of_Z_above c mc ec z :
  Prim2SF c = S754_finite false mc ec ->
  (0 < z)%Z -> (Z.pos (digits2_pos mc) + ec < Zdigits2 z)%Z ->
  (c <? of_Z z) = true.
Proof.
  intros Hc Hz Hlt.
  rewrite FloatAxioms.ltb_spec, Hc. unfold SFltb.
  rewrite (sf_rounded_above (Zdigits2 z) _ mc ec (of_Z_rounded z Hz)); trivial.
  rewrite <- Hc. apply Prim2SF_valid.
Qed.

(** The Number of a non-negative integer is not NaN and not negative. *)
Lemma of_Z_nonneg z : (0 <= z)%Z -> nonneg (of_Z z) = true.
Proof.
  intros Hz. unfold nonneg.
  destruct (Z.eq_dec z 0%Z) as [->|Hne]; [reflexivity|].
  destruct (of_Z_rounded z ltac:(lia)) as [H|(m & e & H & _)]; rewrite H; reflexivity.
Qed.

End IntegerFacts.

(* ===================================================================== *)
(** * Facts about the routes of the server *)
(* ===================================================================== *)

Module ServerFacts.

Import JS Ieee JSFacts TripClusterer ClusterFacts OrderFacts IntegerFacts Server.
Local Open Scope float_scope.

(** ** What [parseInt] reads *)

Lemma digit_val_nonneg c : is_digit c = true -> (0 <= digit_val c)%Z.
Proof.
  unfold is_digit, digit_val. intros H.
  apply andb_true_iff in H as [H _]. apply Nat.leb_le in H. lia.
Qed.

Lemma read_digits_nonneg s : forall acc n,
  (0 <= acc)%Z -> (0 <= fst (fst (read_digits acc n s)))%Z.
Proof.
  induction s as [|c r IH]; intros acc n Hacc; simpl; [exact Hacc|].
  destruct (is_digit c) eqn:E; [|exact Hacc].
  apply IH. pose proof (digit_val_nonneg c E). lia.
Qed.

Lemma hex_val_nonneg c d : hex_val c = Some d -> (0 <= d)%Z.
Proof.
  unfold hex_val. intros H.
  repeat match type of H with
  | context [if ?b then _ else _] => destruct b eqn:?
  end; try discriminate; injection H as <-;
  match goal with
  | E : (_ && _)%bool = true |- _ =>
      apply andb_true_iff in E as [E _]; apply Nat.leb_le in E; lia
  end.
Qed.

Lemma read_hex_nonneg s : forall acc n,
  (0 <= acc)%Z -> (0 <= fst (read_hex acc n s))%Z.
Proof.
  induction s as [|c r IH]; intros acc n Hacc; simpl; [exact Hacc|].
  destruct (hex_val c) as [d|] eqn:E; [|exact Hacc].
  apply IH. pose proof (hex_val_nonneg c d E). lia.
Qed.

(** [parseInt] answers NaN, or the Number nearest to an integer, with its
    sign. *)
Lemma parseInt_string_integer s :
  parseInt_string s = nan \/
  exists neg v, (0 <= v)%Z /\ parseInt_string s = signed neg (of_Z v).
Proof.
  unfold parseInt_string.
  destruct (read_sign (trim_start s)) as [neg s1].
  pose proof (read_digits_nonneg s1 0 0 ltac:(lia)) as Hd.
  assert (Hdec : (let '(v, n, _) := read_digits 0 0 s1 in
                  if (n =? 0)%Z then nan else signed neg (of_Z v)) = nan \/
                 exists sg z, (0 <= z)%Z /\
                   (let '(v, n, _) := read_digits 0 0 s1 in
                    if (n =? 0)%Z then nan else signed neg (of_Z v))
                   = signed sg (of_Z z)).
  { destruct (read_digits 0 0 s1) as [[v n] r]. simpl in Hd.
    destruct (n =? 0)%Z; [now left|right; eauto]. }
  destruct s1 as [|c [|x r]]; [exact Hdec| |].
  - destruct c as [[] [] [] [] [] [] [] []]; exact Hdec.
  - destruct (Ascii.eqb c "0") eqn:Ec.
    + apply Ascii.eqb_eq in Ec. subst c.
      destruct (Ascii.eqb x "x" || Ascii.eqb x "X")%bool.
      * pose proof (read_hex_nonneg r 0 0 ltac:(lia)) as Hh.
        destruct (read_hex 0 0 r) as [v n]. simpl in Hh.
        destruct (n =? 0)%Z; [now left|right; eauto].
      * destruct (read_digits 0 0 (String "0" (String x r))) as [[v n] r'].
        simpl in Hd. right; eauto.
    + destruct c as [[] [] [] [] [] [] [] []]; try exact Hdec. discriminate Ec.
Qed.

(** ** Clamping a parsed integer between two bounds *)

Lemma eqb_infinity x : (x =? infinity) = true -> x = infinity.
Proof.
  rewrite FloatAxioms.eqb_spec, Prim2SF_infinity. unfold SFeqb. intros H.
  apply Prim2SF_inj. rewrite Prim2SF_infinity.
  destruct (Prim2SF x) as [s|[]| |s m e]; try discriminate; reflexivity.
Qed.

Lemma Math_min_pair x c :
  is_nan x = false -> is_nan c = false -> Leibniz.eqb c neg_zero = false ->
  Math_min [x; c] = if c <? x then c else x.
Proof.
  intros Hx Hc Hz. unfold Math_min. cbn [Math_min_from]. rewrite Hx, Hc, Hz.
  change (Leibniz.eqb infinity zero) with false. rewrite andb_false_r. cbn [andb].
  destruct (x <? infinity) eqn:E; [reflexivity|].
  rewrite (eqb_infinity x (not_ltb_infinity x Hx E)). reflexivity.
Qed.

Lemma Math_max_pair c y :
  is_nan c = false -> (neg_infinity <? c) = true -> Leibniz.eqb c neg_zero = false ->
  is_nan y = false ->
  Math_max [c; y] = if c <? y then y else c.
Proof.
  intros Hc Hlt Hz Hy. unfold Math_max. cbn [Math_max_from]. rewrite Hc, Hy.
  change (Leibniz.eqb neg_infinity neg_zero) with false.
  rewrite andb_false_r, Hlt, Hz, andb_false_r. reflexivity.
Qed.

Lemma pow_le_digits D v : (0 <= D)%Z -> (2 ^ D <= v)%Z -> (D < Zdigits2 v)%Z.
Proof.
  intros HD Hv. destruct v as [|p|p]; try lia.
  simpl. pose proof (pos_lt_pow_digits p) as Hp.
  destruct (Z_lt_le_dec D (Z.pos (digits2_pos p))) as [|Hle]; [assumption|].
  pose proof (Z.pow_le_mono_r 2 _ _ ltac:(lia) Hle). lia.
Qed.

(** The integers [a, a + 1, ...], [n] of them. *)
Fixpoint count_from (n : nat) (a : Z) : list Z :=
  match n with
  | O => []
  | S n => a :: count_from n (a + 1)
  end.

Lemma in_count_from n : forall a v,
  (a <= v < a + Z.of_nat n)%Z -> In v (count_from n a).
Proof.
  induction n as [|n IH]; intros a v Hv; [lia|]. simpl.
  destruct (Z.eq_dec a v) as [->|Hne]; [now left|right].
  apply IH. lia.
Qed.

(** A positive finite constant, as the bounds of the clamps are. *)
Definition positive_finite (c : float) : Prop :=
  exists m e, Prim2SF c = S754_finite false m e.

Lemma positive_finite_facts c :
  positive_finite c ->
  is_nan c = false /\ (neg_infinity <? c) = true /\ Leibniz.eqb c neg_zero = false.
Proof.
  intros (m & e & Hc). split; [|split].
  - now rewrite is_nan_spec, Hc.
  - rewrite FloatAxioms.ltb_spec, Hc. reflexivity.
  - destruct (Leibniz.eqb c neg_zero) eqn:E; [|reflexivity].
    apply Leibniz.eqb_spec in E. subst c. discriminate Hc.
Qed.

(** What a parsed integer other than zero looks like. *)
Lemma of_Z_positive v :
  (0 < v)%Z ->
  Prim2SF (of_Z v) = S754_infinity false \/
  exists m e, Prim2SF (of_Z v) = S754_finite false m e.
Proof.
  intros Hv. destruct (of_Z_rounded v Hv) as [H|(m & e & H & _)]; eauto.
Qed.

Lemma truthy_signed_of_Z neg v : (0 < v)%Z -> truthy (signed neg (of_Z v)) = true.
Proof.
  intros Hv. unfold truthy. rewrite is_nan_spec, is_zero_spec.
  destruct neg; simpl; rewrite ?opp_spec;
    destruct (of_Z_positive v Hv) as [H|(m & e & H)]; rewrite H; reflexivity.
Qed.

(** [Math.max(lo, Math.min(x || dflt, hi))] *)
Definition clamp (lo hi dflt x : float) : float :=
  Math_max [lo; Math_min [or_else x dflt; hi]].

(** The constants of a clamp: positive integers [zlo <= zdflt <= zhi] below
    [2 ^ D], with the behaviour of the clamp on the integers below [2 ^ D]
    checked by evaluation. *)
Record clamp_constants (lo hi dflt : float) (zlo zhi zdflt D : Z) : Prop := {
  lo_positive : positive_finite lo;
  hi_positive : exists m e,
    Prim2SF hi = S754_finite false m e /\ (Z.pos (digits2_pos m) + e <= D)%Z;
  lo_integer : lo = of_Z zlo;
  hi_integer : hi = of_Z zhi;
  dflt_kept : Math_max [lo; Math_min [dflt; hi]] = of_Z zdflt;
  hi_kept : Math_max [lo; hi] = hi;
  constants_ordered : (0 <= D /\ zlo <= zdflt <= zhi /\ zhi < 2 ^ D)%Z;
  small_checked :
    forallb (fun v => Leibniz.eqb (clamp lo hi dflt (of_Z v))
                        (of_Z (Z.max zlo (Z.min v zhi))))
      (count_from (Z.to_nat (2 ^ D) - 1) 1) = true
}.

Section Clamp.

Variables lo hi dflt : float.
Variables zlo zhi zdflt D : Z.
Hypothesis constants : clamp_constants lo hi dflt zlo zhi zdflt D.

Lemma clamp_falsy x : truthy x = false -> clamp lo hi dflt x = of_Z zdflt.
Proof using constants. unfold clamp, or_else. intros ->. apply constants. Qed.

Lemma hi_facts :
  is_nan hi = false /\ (neg_infinity <? hi) = true /\ Leibniz.eqb hi neg_zero = false.
Proof using constants.
  destruct (hi_positive _ _ _ _ _ _ _ constants) as (m & e & H & _).
  apply positive_finite_facts. now exists m, e.
Qed.

Lemma clamp_negative v : (0 < v)%Z -> clamp lo hi dflt (- of_Z v) = of_Z zlo.
Proof using constants.
  intros Hv. unfold clamp, or_else.
  pose proof (truthy_signed_of_Z true v Hv) as Ht.
  change (signed true (of_Z v)) with (- of_Z v) in Ht. rewrite Ht.
  destruct hi_facts as (Hn & _ & Hz).
  pose proof (lo_positive _ _ _ _ _ _ _ constants) as Hlo.
  destruct (positive_finite_facts lo Hlo) as (Hln & Hlinf & Hlz).
  destruct Hlo as (ml & el & Hl).
  destruct (hi_positive _ _ _ _ _ _ _ constants) as (mh & eh & Hh & _).
  assert (Hx : exists x, Prim2SF (- of_Z v) = x /\ sf_nonneg x = false /\
                         sf_is_nan x = false).
  { eexists. split; [reflexivity|]. rewrite opp_spec.
    destruct (of_Z_positive v Hv) as [H|(m & e & H)]; rewrite H; repeat split. }
  destruct Hx as (x & Hx & Hneg & Hnan).
  assert (Hbelow : forall c m e, Prim2SF c = S754_finite false m e ->
                     (c <? - of_Z v) = false).
  { intros c m e Hc. rewrite FloatAxioms.ltb_spec, Hc, Hx.
    destruct x as [[]|[]| |[] mx ex]; try discriminate; reflexivity. }
  rewrite Math_min_pair; trivial; [|now rewrite is_nan_spec, Hx].
  rewrite (Hbelow hi mh eh Hh).
  rewrite Math_max_pair; trivial; [|now rewrite is_nan_spec, Hx].
  rewrite (Hbelow lo ml el Hl). apply constants.
Qed.

Lemma clamp_positive v :
  (0 < v)%Z -> clamp lo hi dflt (of_Z v) = of_Z (Z.max zlo (Z.min v zhi)).
Proof using constants.
  intros Hv. destruct (constants_ordered _ _ _ _ _ _ _ constants) as (HD & Hz & Hlt).
  destruct (Z_lt_le_dec v (2 ^ D)) as [Hsm|Hbig].
  - pose proof (small_checked _ _ _ _ _ _ _ constants) as Hsmall.
    rewrite forallb_forall in Hsmall.
    apply Leibniz.eqb_spec, Hsmall, in_count_from. lia.
  - replace (Z.max zlo (Z.min v zhi)) with zhi by lia.
    unfold clamp, or_else.
    pose proof (truthy_signed_of_Z false v Hv) as Ht.
    change (signed false (of_Z v)) with (of_Z v) in Ht. rewrite Ht.
    destruct hi_facts as (Hn & _ & Hzero).
    destruct (hi_positive _ _ _ _ _ _ _ constants) as (mh & eh & Hh & Hd).
    assert (Habove : (hi <? of_Z v) = true).
    { apply (of_Z_above hi mh eh v Hh Hv).
      pose proof (pow_le_digits D v HD Hbig). lia. }
    rewrite Math_min_pair, Habove; trivial.
    + rewrite (hi_kept _ _ _ _ _ _ _ constants). apply constants.
    + apply nonneg_not_nan, of_Z_nonneg. lia.
Qed.

(** Whatever [parseInt] read, the clamp answers an integer between the
    bounds. *)
Lemma clamp_parsed s :
  exists n, (zlo <= n <= zhi)%Z /\ clamp lo hi dflt (parseInt_string s) = of_Z n.
Proof using constants.
  destruct (constants_ordered _ _ _ _ _ _ _ constants) as (HD & Hz & Hlt).
  destruct (parseInt_string_integer s) as [->|(neg & v & Hv & ->)].
  - exists zdflt. split; [lia|]. now apply clamp_falsy.
  - destruct (Z.eq_dec v 0%Z) as [->|Hne].
    + exists zdflt. split; [lia|]. apply clamp_falsy. now destruct neg.
    + destruct neg; simpl.
      * exists zlo. split; [lia|]. apply clamp_negative. lia.
      * exists (Z.max zlo (Z.min v zhi)). split; [lia|]. apply clamp_positive. lia.
Qed.

End Clamp.

(** ** The parameters of [/api/clusters] *)

Definition holds_integer (x : float) (n : Z) : bool :=
  match integer_value x with Some m => (m =? n)%Z | None => false end.

Lemma holds_integer_spec x n : holds_integer x n = true -> integer_value x = Some n.
Proof.
  unfold holds_integer. destruct (integer_value x) as [m|]; [|discriminate].
  intros H. apply Z.eqb_eq in H. now subst.
Qed.

Lemma integer_value_of_Z n :
  (0 <= n <= 20)%Z -> integer_value (of_Z n) = Some n.
Proof.
  intros Hn.
  assert (H : forallb (fun n => holds_integer (of_Z n) n)
                (count_from 21 0) = true) by (vm_compute; reflexivity).
  rewrite forallb_forall in H. apply holds_integer_spec, H, in_count_from. lia.
Qed.

Lemma kValue_clamp k : kValue k = clamp 1 20 5 (parseInt_param k "5").
Proof. reflexivity. Qed.

Lemma limitValue_clamp limit :
  limitValue limit = clamp 10 50000 10000 (parseInt_param limit "10000").
Proof. reflexivity. Qed.

Lemma kValue_constants : clamp_constants 1 20 5 1 20 5 5.
Proof.
  split; [| |reflexivity|reflexivity|reflexivity|reflexivity|lia
         |vm_compute; reflexivity].
  - exists 4503599627370496%positive, (-52)%Z. reflexivity.
  - exists 5629499534213120%positive, (-48)%Z. split; [reflexivity|simpl; lia].
Qed.

Lemma limitValue_constants : clamp_constants 10 50000 10000 10 50000 10000 16.
Proof.
  split; [| |reflexivity|reflexivity|reflexivity|reflexivity|lia
         |vm_compute; reflexivity].
  - exists 5629499534213120%positive, (-49)%Z. reflexivity.
  - exists 6871947673600000%positive, (-37)%Z. split; [reflexivity|simpl; lia].
Qed.

Lemma kValue_integer k : exists n, (1 <= n <= 20)%Z /\ kValue k = of_Z n.
Proof.
  rewrite kValue_clamp. exact (clamp_parsed _ _ _ _ _ _ _ kValue_constants _).
Qed.

Lemma limitValue_integer limit :
  exists n, (10 <= n <= 50000)%Z /\ limitValue limit = of_Z n.
Proof.
  rewrite limitValue_clamp. exact (clamp_parsed _ _ _ _ _ _ _ limitValue_constants _).
Qed.

(** X6.  Whatever the query string carries for [k] and [limit], the cluster
    count handed to [kMeans] is an integer from 1 to 20 and the row limit
    handed to the database an integer from 10 to 50000; absent parameters
    give 5 and 10000. *)
Theorem clusters_parameters_clamped (k limit : option string) :
  (exists n, (1 <= n <= 20)%Z /\ kValue k = of_Z n /\
             integer_value (kValue k) = Some n) /\
  (exists n, (10 <= n <= 50000)%Z /\ limitValue limit = of_Z n) /\
  kValue None = 5 /\ limitValue None = 10000 /\
  (truthy (parseInt_param k "5") = false -> kValue k = 5) /\
  (forall v, (0 < v)%Z -> parseInt_param k "5" = - of_Z v -> kValue k = 1) /\
  (forall v, (0 < v)%Z -> parseInt_param k "5" = of_Z v ->
     kValue k = of_Z (Z.max 1 (Z.min v 20))).
Proof.
  split; [|split; [|split; [|split; [|split; [|split]]]]]; try reflexivity.
  3: { intros Hf. rewrite kValue_clamp.
       exact (clamp_falsy _ _ _ _ _ _ _ kValue_constants _ Hf). }
  3: { intros v Hv Hx. rewrite kValue_clamp, Hx.
       exact (clamp_negative _ _ _ _ _ _ _ kValue_constants v Hv). }
  3: { intros v Hv Hx. rewrite kValue_clamp, Hx.
       exact (clamp_positive _ _ _ _ _ _ _ kValue_constants v Hv). }
  - destruct (kValue_integer k) as (n & Hn & Hk). exists n.
    repeat split; try lia; [exact Hk|]. rewrite Hk. apply integer_value_of_Z. lia.
  - apply limitValue_integer.
Qed.

(** ** The response of [/api/clusters] *)

(** X7.  When the query returned rows whose lat, lon and duration read as
    finite numbers, and the random source keeps producing every index, the
    handler answers, whatever [k] the request carries: with between 1 and 20
    clusters, none of them empty, which together hold each returned row
    exactly once; [clusterCount] is the number of clusters and [totalPoints]
    the number of rows. *)
Theorem clusters_handler_partition (rnd : nat -> nat) (k : option string)
    (rows : list point) :
  rows <> [] -> Forall finite_point rows -> fair rnd (length rows) ->
  exists fuel response,
    clusters_handler rnd fuel k rows = Some response /\
    clusterCount response = length (clusters response) /\
    (1 <= clusterCount response <= 20)%nat /\
    totalPoints response = length rows /\
    Forall (fun cluster => cluster <> []) (clusters response) /\
    concat (clusters response) ≡ₚ rows.
Proof.
  intros Hne Hrows Hfair. unfold clusters_handler.
  destruct (kValue_integer k) as (n & Hn & Hk).
  rewrite Hk, integer_value_of_Z by lia.
  replace (length rows =? 0)%nat with false
    by (symmetry; apply Nat.eqb_neq; destruct rows; [congruence|discriminate]).
  destruct (Z_le_gt_dec n (Z.of_nat (length rows))) as [Hle|Hgt].
  - destruct (initializeCentroids_loop_fair rnd rows (Z.to_nat n) [] ∅ 0 Hfair)
      as [fuel Hfuel]; [rewrite size_empty; lia|].
    destruct (kMeans_after_sampling rnd fuel rows n default_maxIterations)
      as (cs & Hcs & Hlen & Hnonempty & Hperm); trivial;
      [lia|unfold default_maxIterations; lia|].
    exists fuel. rewrite Hcs. eexists. split; [reflexivity|]. simpl.
    repeat split; trivial; [|lia].
    destruct cs; [|simpl; lia].
    apply Permutation_nil in Hperm. congruence.
  - exists 0%nat. unfold kMeans.
    replace (length rows =? 0)%nat with false
      by (symmetry; apply Nat.eqb_neq; destruct rows; [congruence|discriminate]).
    replace ((n <=? 0)%Z || (Z.of_nat (length rows) <? n)%Z) with true
      by (symmetry; apply orb_true_iff; right; apply Z.ltb_lt; lia).
    eexists. split; [reflexivity|]. simpl.
    repeat split; try lia.
    + constructor; [exact Hne|constructor].
    + now rewrite app_nil_r.
Qed.

Lemma clusters_handler_partition_witness :
  exists fuel response,
    clusters_handler (fun i => (i mod 2)%nat) fuel (Some "2"%string)
      [downtown; uptown] = Some response /\
    clusterCount response = length (clusters response) /\
    (1 <= clusterCount response <= 20)%nat /\
    totalPoints response = length [downtown; uptown] /\
    Forall (fun cluster => cluster <> []) (clusters response) /\
    concat (clusters response) ≡ₚ [downtown; uptown].
Proof.
  apply (clusters_handler_partition (fun i => (i mod 2)%nat) (Some "2"%string)
           [downtown; uptown]).
  - discriminate.
  - repeat constructor.
  - intros i x Hx. simpl in Hx.
    exists (if Nat.eqb (i mod 2) x then i else S i)%nat.
    pose proof (Nat.mod_upper_bound i 2 ltac:(lia)) as Hm.
    destruct (Nat.eqb_spec (i mod 2) x) as [He|Hne]; [split; [lia|exact He]|].
    split; [lia|].
    replace (S i) with (1 + i)%nat by reflexivity.
    rewrite Nat.Div0.add_mod by lia.
    destruct (i mod 2)%nat as [|[|?]] eqn:E; destruct x as [|[|?]]; simpl in *; lia.
Defined.

End ServerFacts.

Module QueryFacts.

Import JS Server Queries.
Local Open Scope string_scope.

(** The placeholders [$n] of a query text, in the order they occur:
    [pending] is the number being read after a dollar sign. *)
Fixpoint placeholders_from (pending : option nat) (text : string) : list nat :=
  let flush := match pending with Some n => [n] | None => [] end in
  match text with
  | EmptyString => flush
  | String c rest =>
      if Ascii.eqb c "$" then flush ++ placeholders_from (Some 0%nat) rest
      else
        match pending with
        | Some n =>
            if is_digit c
            then placeholders_from (Some (10 * n + Z.to_nat (digit_val c))%nat) rest
            else n :: placeholders_from None rest
        | None => placeholders_from None rest
        end
  end.

Definition placeholders (text : string) : list nat := placeholders_from None text.

Definition truthy_text (param : option string) : bool :=
  match param with Some (String _ _) => true | _ => false end.

Definition defined (param : option string) : bool :=
  match param with Some _ => true | None => false end.

(** Which of the optional conditions a request selects. *)
Definition trips_shape (q : TripsRequest) : list bool :=
  [ truthy_text (borough q); defined (hour q); truthy_text (minDuration q);
    truthy_text (maxDuration q); truthy_text (tripType q) ].

Definition heatmap_shape (q : HeatmapRequest) : list bool :=
  [ defined (heatmap_hour q); truthy_text (heatmap_borough q) ].

(** A request with the same conditions and fixed values. *)
Definition mark (selected : bool) : option string :=
  if selected then Some "x" else None.

Definition trips_skeleton (q : TripsRequest) : TripsRequest :=
  {| limit := None; offset := None;
     borough := mark (truthy_text (borough q));
     hour := mark (defined (hour q));
     minDuration := mark (truthy_text (minDuration q));
     maxDuration := mark (truthy_text (maxDuration q));
     tripType := mark (truthy_text (tripType q)) |}.

Definition heatmap_skeleton (q : HeatmapRequest) : HeatmapRequest :=
  {| heatmap_hour := mark (defined (heatmap_hour q));
     heatmap_borough := mark (truthy_text (heatmap_borough q)) |}.

Ltac by_conditions q :=
  destruct q as [l o b h mi ma t];
  destruct b as [[|? ?]|], h as [?|], mi as [[|? ?]|], ma as [[|? ?]|], t as [[|? ?]|].

Lemma trips_query_skeleton q :
  fst (trips_query q) = fst (trips_query (trips_skeleton q)).
Proof. by_conditions q; reflexivity. Qed.

Lemma trips_skeleton_shape q q' :
  trips_shape q = trips_shape q' -> trips_skeleton q = trips_skeleton q'.
Proof. unfold trips_shape, trips_skeleton. intros [= -> -> -> -> ->]. reflexivity. Qed.

(** X8.  The statement [/api/trips] sends: its placeholders are [$1] to
    [$n] in this order for the [n] values sent with it, of which the last two
    are the limit and the offset; and its text depends only on which filters
    the request selects, never on a value of the request. *)
Theorem trips_query_parameterised (q : TripsRequest) :
  placeholders (fst (trips_query q)) = seq 1 (length (snd (trips_query q))) /\
  (exists filters,
     snd (trips_query q)
     = (filters ++ [Num (parseInt_param (limit q) "1000");
                    Num (parseInt_param (offset q) "0")])%list /\
     length filters = length (List.filter (fun selected : bool => selected)
                                (trips_shape q))) /\
  (forall q', trips_shape q' = trips_shape q ->
     fst (trips_query q') = fst (trips_query q)).
Proof.
  split; [|split].
  - by_conditions q; reflexivity.
  - exists (removelast (removelast (snd (trips_query q)))).
    by_conditions q; split; reflexivity.
  - intros q' Hshape.
    now rewrite (trips_query_skeleton q'), (trips_query_skeleton q),
      (trips_skeleton_shape q' q Hshape).
Qed.

(** X9.  The same for the statement [/api/heatmap] sends, which carries the
    values of its filters only. *)
Theorem heatmap_query_parameterised (q : HeatmapRequest) :
  placeholders (fst (heatmap_query q)) = seq 1 (length (snd (heatmap_query q))) /\
  length (snd (heatmap_query q))
    = length (List.filter (fun selected : bool => selected) (heatmap_shape q)) /\
  (forall q', heatmap_shape q' = heatmap_shape q ->
     fst (heatmap_query q') = fst (heatmap_query q)).
Proof.
  split; [|split].
  - destruct q as [[?|] [[|? ?]|]]; reflexivity.
  - destruct q as [[?|] [[|? ?]|]]; reflexivity.
  - intros q' Hshape.
    assert (Hsk : forall r, fst (heatmap_query r) = fst (heatmap_query (heatmap_skeleton r)))
      by (intros [[?|] [[|? ?]|]]; reflexivity).
    rewrite (Hsk q'), (Hsk q). unfold heatmap_skeleton.
    unfold heatmap_shape in Hshape. injection Hshape as -> ->. reflexivity.
Qed.

End QueryFacts.

(* ===================================================================== *)
(** * Magnitudes of quotients *)
(* ===================================================================== *)

Module RangeFacts.

Import JS Ieee JSFacts OrderFacts IntegerFacts.
Local Open Scope Z_scope.

(** The reference semantics writes its integer operations through their
    defining module; the arithmetic tactics want them in the usual form. *)
Ltac usual_Z :=
  change IntDef.Z.add with Z.add in *; change IntDef.Z.sub with Z.sub in *;
  change IntDef.Z.max with Z.max in *; change IntDef.Z.min with Z.min in *.

(** A positive finite number in canonical form, of magnitude between
    [2 ^ (L - 1)] and [2 ^ E]. *)
Definition sf_between (L E : Z) (x : spec_float) : Prop :=
  exists m e, x = S754_finite false m e /\ valid_binary x = true /\
    L <= Z.pos (digits2_pos m) + e <= E.

Lemma valid_exponent m e :
  valid_binary (S754_finite false m e) = true ->
  e = Z.max (Z.pos (digits2_pos m) + e - 53) (-1074).
Proof.
  unfold SpecFloat.valid_binary, bounded, canonical_mantissa.
  intros H. apply andb_true_iff in H as [H _]. apply Z.eqb_eq in H.
  unfold fexp, SpecFloat.emin, prec, emax in H. lia.
Qed.

Lemma digits_le_pos a b :
  (a <= b)%positive -> Z.pos (digits2_pos a) <= Z.pos (digits2_pos b).
Proof.
  intros H. destruct (Z_le_gt_dec (Z.pos (digits2_pos a)) (Z.pos (digits2_pos b)))
    as [|Hgt]; [assumption|].
  pose proof (digits_lt_pos b a ltac:(lia)). lia.
Qed.

(** Of two positive numbers in canonical form, the smaller has the smaller
    magnitude. *)
Lemma SFleb_magnitude mx ex my ey :
  valid_binary (S754_finite false mx ex) = true ->
  valid_binary (S754_finite false my ey) = true ->
  SFleb (S754_finite false mx ex) (S754_finite false my ey) = true ->
  Z.pos (digits2_pos mx) + ex <= Z.pos (digits2_pos my) + ey.
Proof.
  intros Hx Hy. apply valid_exponent in Hx, Hy.
  unfold SFleb. simpl.
  destruct (Z.compare_spec ex ey) as [Heq|Hlt|Hgt]; [|lia|discriminate].
  rewrite Pos.compare_cont_spec. subst ey.
  destruct (Pos.compare_spec mx my) as [->|Hm|Hm]; simpl; try discriminate; intros _.
  - lia.
  - pose proof (digits_le_pos mx my ltac:(lia)). lia.
Qed.

(** The quotient of two positive numbers, away from underflow and
    overflow. *)
Lemma SF64div_between L1 E1 L2 E2 x y :
  sf_between L1 E1 x -> sf_between L2 E2 y ->
  -1000 < L1 - E2 -> E1 - L2 < 900 -> -1000 < E1 -> E2 < 1000 ->
  sf_between (L1 - E2) (E1 - L2 + 54) (SF64div x y).
Proof.
  intros (mx & ex & -> & Hvx & Hx) (my & ey & -> & Hvy & Hy) H1 H2 H3 H4.
  pose proof (valid_exponent mx ex Hvx) as Hex.
  pose proof (valid_exponent my ey Hvy) as Hey.
  assert (Hup : sf_below (E1 - ey + 1)
                  (SF64div (S754_finite false mx ex) (S754_finite false my ey))).
  { apply SF64div_below; [exact (proj2 Hx)| |]; unfold SpecFloat.emin, prec, emax; lia. }
  revert Hup. unfold SF64div. simpl SFdiv. unfold SFdiv_core_binary.
  simpl Zdigits2. unfold fexp, SpecFloat.emin. usual_Z.
  set (d1 := Z.pos (digits2_pos mx)) in *. set (d2 := Z.pos (digits2_pos my)) in *.
  set (e' := Z.min _ (ex - ey)).
  assert (Hs : 0 <= ex - ey - e') by (unfold e'; lia).
  assert (HK : 53 <= d1 + (ex - ey - e') - d2 /\
               e' <= Z.max (d1 + ex - (d2 + ey) - prec) (3 - emax - prec)).
  { unfold e', prec, emax. lia. }
  destruct HK as [HK Hal].
  assert (Hm' : exists m', match ex - ey - e' with
                           | 0 => Z.pos mx
                           | Z.pos _ => Z.shiftl (Z.pos mx) (ex - ey - e')
                           | Z.neg _ => 0
                           end = m' /\ m' = Z.pos mx * 2 ^ (ex - ey - e')).
  { eexists. split; [reflexivity|].
    destruct (ex - ey - e') as [|p|p] eqn:E; [lia| |lia].
    now rewrite Z.shiftl_mul_pow2 by lia. }
  destruct Hm' as (m' & -> & Hm').
  pose proof (pow_digits_le_pos mx) as Hmx. pose proof (pos_lt_pow_digits my) as Hmy.
  fold d1 in Hmx. fold d2 in Hmy.
  set (K := d1 + (ex - ey - e') - d2) in *.
  assert (Hq : 2 ^ (K - 1) <= m' / Z.pos my).
  { apply Z.div_le_lower_bound; [lia|].
    assert (Hpow : 2 ^ (K - 1) * 2 ^ d2 * 2 = 2 ^ d1 * 2 ^ (ex - ey - e')).
    { assert (0 <= d2) by (unfold d2; lia).
      rewrite <- (Z.pow_add_r 2 d1) by (unfold d1; lia).
      replace (d1 + (ex - ey - e')) with (K - 1 + d2 + 1) by (unfold K; lia).
      rewrite !Z.pow_add_r by lia. reflexivity. }
    assert (0 < 2 ^ (K - 1)) by (apply Z.pow_pos_nonneg; lia).
    assert (0 < 2 ^ (ex - ey - e')) by (apply Z.pow_pos_nonneg; lia).
    assert (F1 : Z.pos my * 2 ^ (K - 1) <= 2 ^ d2 * 2 ^ (K - 1))
      by (apply Z.mul_le_mono_nonneg_r; lia).
    assert (F2 : 2 ^ d1 * 2 ^ (ex - ey - e') <= 2 * Z.pos mx * 2 ^ (ex - ey - e'))
      by (apply Z.mul_le_mono_nonneg_r; lia).
    rewrite Hm'. lia. }
  unfold Z.div in Hq.
  destruct (Z.div_eucl m' (Z.pos my)) as [q r].
  assert (Hq0 : 0 < q).
  { assert (0 < 2 ^ (K - 1)) by (apply Z.pow_pos_nonneg; lia). lia. }
  assert (Hdq : K <= Zdigits2 q).
  { destruct q as [|pq|pq]; try lia. simpl.
    pose proof (pos_lt_pow_digits pq) as Hpq.
    destruct (Z_le_gt_dec K (Z.pos (digits2_pos pq))) as [|Hgt]; [assumption|].
    pose proof (Z.pow_le_mono_r 2 (Z.pos (digits2_pos pq)) (K - 1) ltac:(lia)
                  ltac:(lia)). lia. }
  destruct (binary_round_aux_rounded false q e' (new_location (Z.pos my) r))
    as [Hinf|(m & e & Hres & Hv & Hd)]; trivial.
  - revert Hal. unfold fexp, SpecFloat.emin. usual_Z. unfold prec, emax, K in *. lia.
  - unfold SpecFloat.emin, prec, emax, K in *. lia.
  - rewrite Hinf. contradiction.
  - rewrite Hres. simpl. intros Hup. exists m, e.
    split; [reflexivity|]. split; [now rewrite <- Hres|].
    unfold K in *. lia.
Qed.

Local Open Scope float_scope.

Definition between (L E : Z) (x : float) : Prop := sf_between L E (Prim2SF x).

Lemma between_facts L E x :
  between L E x -> (E <= 1024)%Z ->
  is_finite x = true /\ (0 <? x) = true.
Proof.
  intros (m & e & Hx & _) _. rewrite is_finite_spec, FloatAxioms.ltb_spec, Hx.
  split; reflexivity.
Qed.

(** A number between two positive constants. *)
Lemma leb_between lo hi x ml el mh eh :
  Prim2SF lo = S754_finite false ml el ->
  Prim2SF hi = S754_finite false mh eh ->
  (lo <=? x) = true -> (x <=? hi) = true ->
  between (Z.pos (digits2_pos ml) + el) (Z.pos (digits2_pos mh) + eh) x.
Proof.
  intros Hlo Hhi. rewrite !FloatAxioms.leb_spec, Hlo, Hhi.
  pose proof (Prim2SF_valid lo) as Hvlo. pose proof (Prim2SF_valid hi) as Hvhi.
  pose proof (Prim2SF_valid x) as Hvx. rewrite Hlo in Hvlo. rewrite Hhi in Hvhi.
  unfold between.
  destruct (Prim2SF x) as [s|[]| |[] m e]; try discriminate.
  intros H1 H2. exists m, e. split; [reflexivity|]. split; [exact Hvx|].
  split; now apply SFleb_magnitude.
Qed.

Lemma div_between L1 E1 L2 E2 x y :
  between L1 E1 x -> between L2 E2 y ->
  (-1000 < L1 - E2)%Z -> (E1 - L2 < 900)%Z -> (-1000 < E1)%Z -> (E2 < 1000)%Z ->
  between (L1 - E2) (E1 - L2 + 54) (x / y).
Proof. unfold between. rewrite div_spec. apply SF64div_between. Qed.

End RangeFacts.

(* ===================================================================== *)
(** * Signs and symmetry *)
(* ===================================================================== *)

Module SignFacts.

Import Ieee.
Local Open Scope Z_scope.

Lemma binary_round_aux_opp s m e l :
  binary_round_aux prec emax (negb s) m e l
  = SFopp (binary_round_aux prec emax s m e l).
Proof.
  unfold binary_round_aux.
  destruct (shr_fexp prec emax m e l) as [mrs1 e1].
  destruct (shr_fexp prec emax _ e1 loc_Exact) as [mrs2 e2].
  destruct (shr_m mrs2); [reflexivity| |reflexivity].
  destruct (e2 <=? emax - prec); reflexivity.
Qed.

Lemma binary_round_opp s m e :
  binary_round prec emax (negb s) m e = SFopp (binary_round prec emax s m e).
Proof.
  unfold binary_round. destruct (shl_align m e _) as [mz ez].
  apply binary_round_aux_opp.
Qed.

Lemma binary_normalize_opp z e :
  z <> 0 ->
  binary_normalize prec emax (- z) e false
  = SFopp (binary_normalize prec emax z e false).
Proof.
  destruct z as [|p|p]; [congruence| |]; intros _; simpl.
  - apply (binary_round_opp false).
  - apply (binary_round_opp true).
Qed.

Lemma SF64mul_opp_l x y : SF64mul (SFopp x) y = SFopp (SF64mul x y).
Proof.
  destruct x as [sx|sx| |sx mx ex], y as [sy|sy| |sy my ey]; simpl;
    try reflexivity; try (now destruct sx, sy).
  rewrite <- binary_round_aux_opp. now destruct sx, sy.
Qed.

Lemma SF64mul_comm x y : SF64mul x y = SF64mul y x.
Proof.
  destruct x as [sx|sx| |sx mx ex], y as [sy|sy| |sy my ey]; simpl;
    try reflexivity; try (now rewrite xorb_comm).
  now rewrite xorb_comm, Pos.mul_comm, Z.add_comm.
Qed.

Lemma SF64div_opp_l x y : SF64div (SFopp x) y = SFopp (SF64div x y).
Proof.
  destruct x as [sx|sx| |sx mx ex], y as [sy|sy| |sy my ey]; simpl;
    try reflexivity; try (now destruct sx, sy).
  destruct (SFdiv_core_binary prec emax (Z.pos mx) ex (Z.pos my) ey) as [[mz ez] lz].
  rewrite <- binary_round_aux_opp. now destruct sx, sy.
Qed.

(** Swapping the operands of a subtraction negates the result, or leaves it
    as it is (a zero difference, or no number). *)
Lemma SF64sub_swap x y :
  SF64sub y x = SFopp (SF64sub x y) \/ SF64sub y x = SF64sub x y.
Proof.
  destruct x as [sx|sx| |sx mx ex], y as [sy|sy| |sy my ey]; simpl;
    try (left; reflexivity); try (right; reflexivity);
    try (destruct sx, sy; simpl; auto; fail).
  rewrite (Z.min_comm ey ex).
  set (a := cond_Zopp sx _). set (b := cond_Zopp sy _).
  destruct (Z.eq_dec (a - b) 0) as [H0|Hne].
  - right. replace (b - a) with 0 by lia. now rewrite H0.
  - left. replace (b - a) with (- (a - b)) by lia.
    now apply binary_normalize_opp.
Qed.

Local Open Scope float_scope.

Lemma opp_involutive x : - - x = x.
Proof.
  apply Prim2SF_inj. rewrite !opp_spec. now destruct (Prim2SF x) as [[]|[]| |[] m e].
Qed.

Lemma mul_opp_l x y : (- x) * y = - (x * y).
Proof.
  apply Prim2SF_inj. rewrite opp_spec, !mul_spec, opp_spec. apply SF64mul_opp_l.
Qed.

Lemma mul_comm x y : x * y = y * x.
Proof. apply Prim2SF_inj. rewrite !mul_spec. apply SF64mul_comm. Qed.

Lemma mul_opp_opp x y : (- x) * (- y) = x * y.
Proof.
  rewrite mul_opp_l, (mul_comm x (- y)), mul_opp_l, opp_involutive. apply mul_comm.
Qed.

Lemma div_opp_l x y : (- x) / y = - (x / y).
Proof.
  apply Prim2SF_inj. rewrite opp_spec, !div_spec, opp_spec. apply SF64div_opp_l.
Qed.

Lemma sub_swap x y : y - x = - (x - y) \/ y - x = x - y.
Proof.
  destruct (SF64sub_swap (Prim2SF x) (Prim2SF y)) as [H|H]; [left|right];
    apply Prim2SF_inj; rewrite ?opp_spec, !sub_spec; exact H.
Qed.

(** A finite square times [+0] is [+0]. *)
Lemma square_mul_zero x : is_finite (x * x) = true -> x * x * 0 = 0.
Proof.
  rewrite is_finite_spec. intros Hf.
  apply Prim2SF_inj. rewrite mul_spec. change (Prim2SF 0) with (S754_zero false).
  assert (Hs : sf_sign (Prim2SF (x * x)) = Some false).
  { rewrite mul_spec in *. destruct (Prim2SF x) as [sx|sx| |sx mx ex]; try discriminate.
    - now destruct sx.
    - simpl. rewrite xorb_nilpotent. apply binary_round_aux_sign. lia. }
  destruct (Prim2SF (x * x)) as [[]|[]| |[] m e]; try discriminate; reflexivity.
Qed.

End SignFacts.

(* ===================================================================== *)
(** * More facts about [scripts/importData.js] *)
(* ===================================================================== *)

Module DistanceFacts.

Import JS Ieee JSFacts ImportData ImportFacts SignFacts OrderFacts RangeFacts.
Local Open Scope float_scope.

(** ** Symmetry of the haversine distance *)

(** The sine of the library is an odd function, as the sine is. *)
Definition odd_sin (M : MathLib) : Prop :=
  forall x, Math_sin M (- x) = - Math_sin M x.

Lemma RefMath_odd_sin : odd_sin RefMath.lib.
Proof.
  intros x. simpl.
  assert (Hf : is_finite (- x) = is_finite x).
  { rewrite !is_finite_spec, opp_spec. now destruct (Prim2SF x). }
  rewrite Hf. destruct (is_finite x); [|reflexivity].
  unfold RefMath.sin_series. cbv zeta. rewrite mul_opp_opp. apply mul_opp_l.
Qed.

Section WithMath.

Variable M : MathLib.

(** [Math.sin(d * Math.PI / 180 / 2)] *)
Definition half_sin (d : float) : float := Math_sin M (d * Math_PI / 180 / 2).

Lemma half_sin_opp d : odd_sin M -> half_sin (- d) = - half_sin d.
Proof.
  intros Hodd. unfold half_sin. now rewrite mul_opp_l, !div_opp_l, Hodd.
Qed.

Lemma half_sin_swap c x y :
  odd_sin M ->
  c * half_sin (y - x) * half_sin (y - x) = c * half_sin (x - y) * half_sin (x - y).
Proof.
  intros Hodd. destruct (sub_swap x y) as [-> | ->]; [|reflexivity].
  rewrite (half_sin_opp _ Hodd).
  rewrite (mul_comm c (- _)), mul_opp_l, mul_opp_opp, (mul_comm _ c). reflexivity.
Qed.

Lemma half_sin_square_swap x y :
  odd_sin M ->
  half_sin (y - x) * half_sin (y - x) = half_sin (x - y) * half_sin (x - y).
Proof.
  intros Hodd. destruct (sub_swap x y) as [-> | ->]; [|reflexivity].
  rewrite (half_sin_opp _ Hodd). apply mul_opp_opp.
Qed.

Lemma haversine_swap (lat1 lon1 lat2 lon2 : float) :
  odd_sin M ->
  calculateDistance M lat1 lon1 lat2 lon2 = calculateDistance M lat2 lon2 lat1 lon1.
Proof.
  intros Hodd. unfold calculateDistance. cbv zeta.
  fold (half_sin (lat2 - lat1)) (half_sin (lon2 - lon1))
       (half_sin (lat1 - lat2)) (half_sin (lon1 - lon2)).
  rewrite (half_sin_square_swap lat1 lat2 Hodd).
  rewrite (half_sin_swap _ lon1 lon2 Hodd).
  rewrite (mul_comm (Math_cos M (lat1 * Math_PI / 180))). reflexivity.
Qed.

(** X13.  With a sine that is odd, the haversine distance from A to B is the
    distance from B to A, bit for bit, for all coordinates. *)
Theorem calculateDistance_symmetric (lat1 lon1 lat2 lon2 : float) :
  odd_sin M ->
  calculateDistance M lat1 lon1 lat2 lon2 = calculateDistance M lat2 lon2 lat1 lon1.
Proof. apply haversine_swap. Qed.

(** ** A trip and the trip back *)

(** The record with pickup and dropoff cells exchanged. *)
Definition reverse (r : RawTripRecord) : RawTripRecord :=
  {| pickup_latitude := dropoff_latitude r;
     pickup_longitude := dropoff_longitude r;
     dropoff_latitude := pickup_latitude r;
     dropoff_longitude := pickup_longitude r;
     trip_duration := trip_duration r;
     passenger_count := passenger_count r |}.

(** X21.  With a sine that is odd, a record and the record of the trip back
    are validated alike, and are enriched with the same distance, speed and
    trip type, the two boroughs exchanged. *)
Theorem reverse_trip (r : RawTripRecord) :
  odd_sin M ->
  isValidTrip M (reverse r) = isValidTrip M r /\
  exists e e',
    enrichTripData M r = Return e /\
    enrichTripData M (reverse r) = Return e' /\
    distance_km e' = distance_km e /\
    speed_kmh e' = speed_kmh e /\
    fare_per_km e' = fare_per_km e /\
    pickup_borough e' = dropoff_borough e /\
    dropoff_borough e' = pickup_borough e /\
    trip_type e' = trip_type e.
Proof.
  intros Hodd. split.
  - destruct (isValidTrip_checks M r) as (d & Hd & ->).
    destruct (isValidTrip_checks M (reverse r)) as (d' & Hd' & ->).
    change (calculateDistance M (dropoffLat r) (dropoffLon r) (pickupLat r)
              (pickupLon r) = Return d') in Hd'.
    rewrite (haversine_swap _ _ _ _ Hodd), Hd in Hd'. injection Hd' as <-.
    change (duration (reverse r)) with (duration r).
    change (passengers (reverse r)) with (passengers r).
    replace (endpoints_valid (reverse r)) with (endpoints_valid r)
      by (unfold endpoints_valid; apply andb_comm).
    reflexivity.
  - unfold enrichTripData. cbn [reverse pickup_latitude pickup_longitude
      dropoff_latitude dropoff_longitude trip_duration].
    rewrite (haversine_swap (parseFloat (cell (dropoff_latitude r))) _ _ _ Hodd).
    unfold calculateDistance at 1 2. cbn [bind].
    destruct (getBorough_in_returns BOROUGHS
                (parseFloat (cell (pickup_latitude r)))
                (parseFloat (cell (pickup_longitude r)))) as (pb & Hpb).
    destruct (getBorough_in_returns BOROUGHS
                (parseFloat (cell (dropoff_latitude r)))
                (parseFloat (cell (dropoff_longitude r)))) as (db & Hdb).
    unfold getBorough. rewrite Hpb, Hdb. cbn [bind].
    eexists _, _. split; [reflexivity|]. split; [reflexivity|].
    cbn [distance_km speed_kmh fare_per_km pickup_borough dropoff_borough trip_type].
    repeat split.
    rewrite (String.eqb_sym db pb).
    destruct (String.eqb pb db), (String.eqb pb "Unknown"), (String.eqb db "Unknown");
      reflexivity.
Qed.

(** ** The distance from a point to itself *)

Lemma Prim2SF_1 : Prim2SF 1 = S754_finite false 4503599627370496 (-52).
Proof. reflexivity. Qed.

Lemma haversine_same_point (lat lon : float) :
  is_finite lat = true -> is_finite lon = true ->
  Math_sin M 0 = 0 -> Math_atan2 M 0 1 = 0 ->
  (abs (Math_cos M (lat * Math_PI / 180)) <=? 1) = true ->
  calculateDistance M lat lon lat lon = Return 0.
Proof.
  intros Hlat Hlon Hsin Hatan Hcos. unfold calculateDistance. cbv zeta.
  rewrite (sub_diag_finite lat Hlat), (sub_diag_finite lon Hlon).
  change (0 * Math_PI / 180 / 2) with 0. rewrite Hsin.
  change (0 * 0) with 0.
  set (c := Math_cos M (lat * Math_PI / 180)) in *.
  assert (Hc : below 1 c) by exact (leb_below c 1 _ _ Prim2SF_1 Hcos).
  assert (Hcc : is_finite (c * c) = true).
  { eapply below_finite, (mul_below 1 c c); trivial; lia. }
  rewrite (square_mul_zero c Hcc).
  change (0 * 0) with 0. change (0 + 0) with 0.
  change (sqrt 0) with 0. change (sqrt (1 - 0)) with 1.
  rewrite Hatan. reflexivity.
Qed.

(** X14.  For a finite point, with [Math.sin(0) = 0] and
    [Math.atan2(0, 1) = 0] as ECMAScript requires and a cosine of the
    latitude no larger than 1, the distance from the point to itself is
    exactly 0. *)
Theorem calculateDistance_same_point (lat lon : float) :
  is_finite lat = true -> is_finite lon = true ->
  Math_sin M 0 = 0 -> Math_atan2 M 0 1 = 0 ->
  (abs (Math_cos M (lat * Math_PI / 180)) <=? 1) = true ->
  calculateDistance M lat lon lat lon = Return 0.
Proof. apply haversine_same_point. Qed.

(** ** The speed of a valid trip *)

(** The distance an enriched record carries is the one that was validated,
    and its speed is that distance over the hours the trip lasted. *)
Lemma enrichTripData_fields r e :
  enrichTripData M r = Return e ->
  calculateDistance M (pickupLat r) (pickupLon r) (dropoffLat r) (dropoffLon r)
    = Return (distance_km e) /\
  speed_kmh e = distance_km e / (duration r / 3600).
Proof.
  unfold enrichTripData, calculateDistance. cbn [bind].
  destruct (getBorough_in_returns BOROUGHS
              (parseFloat (cell (pickup_latitude r)))
              (parseFloat (cell (pickup_longitude r)))) as (pb & Hpb).
  destruct (getBorough_in_returns BOROUGHS
              (parseFloat (cell (dropoff_latitude r)))
              (parseFloat (cell (dropoff_longitude r)))) as (db & Hdb).
  unfold getBorough. rewrite Hpb. cbn [bind]. rewrite Hdb. cbn [bind].
  intros [= <-]. split; reflexivity.
Qed.

Lemma range_checked lo hi x :
  is_nan x = false -> is_nan lo = false -> is_nan hi = false ->
  (x <? lo) || (hi <? x) = false ->
  (lo <=? x) = true /\ (x <=? hi) = true.
Proof.
  intros Hx Hlo Hhi H. apply orb_false_iff in H as [H1 H2].
  rewrite (ltb_negb_leb x lo Hx Hlo) in H1.
  rewrite (ltb_negb_leb hi x Hhi Hx) in H2.
  now destruct (lo <=? x), (x <=? hi).
Qed.

(** X23.  A record that [isValidTrip] accepts, whose duration and distance
    are numbers, is enriched with a speed that is a finite positive number:
    the division by the hours never overflows and never gives zero. *)
Theorem enriched_speed_finite (r : RawTripRecord) (e : EnrichedFields) :
  isValidTrip M r = Return true -> enrichTripData M r = Return e ->
  is_nan (duration r) = false -> is_nan (distance_km e) = false ->
  is_finite (speed_kmh e) = true /\ (0 <? speed_kmh e) = true.
Proof.
  intros Hvalid Henrich Hdur Hdist.
  destruct (enrichTripData_fields r e Henrich) as [Hd ->].
  destruct (isValidTrip_checks M r) as (d & Hd' & Hchecks).
  rewrite Hd in Hd'. injection Hd' as <-.
  rewrite Hvalid in Hchecks. injection Hchecks as Hchecks. symmetry in Hchecks.
  apply andb_true_iff in Hchecks as [Hchecks Hcd].
  apply andb_true_iff in Hchecks as [Hchecks _].
  apply andb_true_iff in Hchecks as [_ Hct].
  apply negb_true_iff in Hcd, Hct.
  destruct (range_checked 30 10800 _ Hdur eq_refl eq_refl Hct) as [Ht1 Ht2].
  destruct (range_checked 0.1 100 _ Hdist eq_refl eq_refl Hcd) as [Hd1 Hd2].
  assert (Bt : between 5 14 (duration r)).
  { exact (leb_between 30 10800 _ 8444249301319680 (-48) 5937362789990400 (-39)
             eq_refl eq_refl Ht1 Ht2). }
  assert (Bd : between (-3) 7 (distance_km e)).
  { exact (leb_between 0.1 100 _ 7205759403792794 (-56) 7036874417766400 (-46)
             eq_refl eq_refl Hd1 Hd2). }
  assert (Bh : between 12 12 3600).
  { exists 7916483719987200%positive, (-41)%Z. repeat split; simpl; lia. }
  pose proof (div_between 5 14 12 12 _ _ Bt Bh) as Bq.
  specialize (Bq ltac:(lia) ltac:(lia) ltac:(lia) ltac:(lia)).
  pose proof (div_between (-3) 7 (5 - 12) (14 - 12 + 54) _ _ Bd Bq) as Bs.
  specialize (Bs ltac:(lia) ltac:(lia) ltac:(lia) ltac:(lia)).
  apply (between_facts _ _ _ Bs). lia.
Qed.

(** ** Trips that go nowhere *)

Lemma within_NYC_finite lat lon :
  within NYC_BOUNDS lat lon = true -> is_finite lat = true /\ is_finite lon = true.
Proof.
  unfold within. rewrite !andb_true_iff, !FloatAxioms.leb_spec, !is_finite_spec.
  intros [[[H1 H2] H3] H4]. split.
  - destruct (Prim2SF lat) as [s|[]| |s m e]; try reflexivity;
      [vm_compute in H1; discriminate|vm_compute in H2; discriminate
      |vm_compute in H1; discriminate].
  - destruct (Prim2SF lon) as [s|[]| |s m e]; try reflexivity;
      [vm_compute in H3; discriminate|vm_compute in H4; discriminate
      |vm_compute in H3; discriminate].
Qed.

(** X15.  A record whose dropoff cells repeat its pickup cells is never
    valid: either the point is outside the city bounds, or the distance is 0,
    below the minimum of 0.1 km. *)
Theorem isValidTrip_rejects_zero_length (r : RawTripRecord) :
  dropoff_latitude r = pickup_latitude r ->
  dropoff_longitude r = pickup_longitude r ->
  Math_sin M 0 = 0 -> Math_atan2 M 0 1 = 0 ->
  (abs (Math_cos M (pickupLat r * Math_PI / 180)) <=? 1) = true ->
  isValidTrip M r = Return false.
Proof.
  intros Hlat Hlon Hsin Hatan Hcos.
  destruct (isValidTrip_checks M r) as (d & Hd & ->). f_equal.
  destruct (endpoints_valid r) eqn:Hv; [|reflexivity].
  unfold endpoints_valid in Hv.
  apply andb_true_iff in Hv as [Hv _]. apply andb_true_iff in Hv as [_ Hv].
  destruct (within_NYC_finite _ _ Hv) as [Hflat Hflon].
  assert (Hd0 : d = 0).
  { unfold dropoffLat, dropoffLon in Hd. rewrite Hlat, Hlon in Hd.
    fold (pickupLat r) (pickupLon r) in Hd.
    rewrite (haversine_same_point _ _ Hflat Hflon Hsin Hatan Hcos) in Hd.
    congruence. }
  subst d. change (0 <? 0.1) with true. cbn [orb negb]. now rewrite andb_false_r.
Qed.

End WithMath.

(** ** The zero test of [isValidCoordinate] *)

Lemma within_NYC_nonzero lat lon :
  within NYC_BOUNDS lat lon = true -> (lat =? 0) = false /\ (lon =? 0) = false.
Proof.
  unfold within. rewrite !andb_true_iff, !FloatAxioms.leb_spec, !is_zero_spec.
  intros [[[H1 _] _] H4]. split.
  - destruct (Prim2SF lat) as [s|s| |s m e]; try reflexivity.
    destruct s; vm_compute in H1; discriminate H1.
  - destruct (Prim2SF lon) as [s|s| |s m e]; try reflexivity.
    destruct s; vm_compute in H4; discriminate H4.
Qed.

(** X16.  With the bounds of the program, which leave out latitude 0 and
    longitude 0, a coordinate is valid exactly when it lies within the
    bounds: the two comparisons with 0 never decide. *)
Theorem isValidCoordinate_within_bounds (lat lon : float) :
  isValidCoordinate lat lon = Return (within NYC_BOUNDS lat lon).
Proof.
  unfold isValidCoordinate, isValidCoordinate_in. f_equal.
  destruct (within NYC_BOUNDS lat lon) eqn:Hw; [|now rewrite andb_false_r].
  destruct (within_NYC_nonzero lat lon Hw) as [-> ->]. reflexivity.
Qed.

(** ** The borough rectangles against the city bounds *)

Lemma within_inside (inner outer : bounds) lat lon :
  within outer (minLat inner) (minLon inner) = true ->
  within outer (maxLat inner) (maxLon inner) = true ->
  within inner lat lon = true -> within outer lat lon = true.
Proof.
  unfold within. rewrite !andb_true_iff.
  intros [[[A1 A2] A3] A4] [[[B1 B2] B3] B4] [[[H1 H2] H3] H4].
  repeat split.
  - exact (leb_trans _ _ _ A1 H1).
  - exact (leb_trans _ _ _ H2 B2).
  - exact (leb_trans _ _ _ A3 H3).
  - exact (leb_trans _ _ _ H4 B4).
Qed.

(** X22.  The rectangles of Manhattan and Brooklyn lie within the city
    bounds: a point that [getBorough] places in one of them is a valid
    coordinate.  Those of Queens, the Bronx and Staten Island do not: each
    holds points that [isValidCoordinate] rejects. *)
Theorem boroughs_against_city_bounds :
  (forall lat lon name,
     getBorough lat lon = Return name ->
     name = "Manhattan"%string \/ name = "Brooklyn"%string ->
     isValidCoordinate lat lon = Return true) /\
  (getBorough 40.6 (-73.7002) = Return "Queens"%string /\
   isValidCoordinate 40.6 (-73.7002) = Return false) /\
  (getBorough 40.919 (-73.85) = Return "Bronx"%string /\
   isValidCoordinate 40.919 (-73.85) = Return false) /\
  (getBorough 40.55 (-74.28) = Return "Staten Island"%string /\
   isValidCoordinate 40.55 (-74.28) = Return false).
Proof.
  split; [|repeat split; vm_compute; reflexivity].
  intros lat lon name Hname Hinner.
  assert (Hw : within NYC_BOUNDS lat lon = true).
  { unfold getBorough, BOROUGHS in Hname. cbn [getBorough_in] in Hname.
    match type of Hname with
    | context [within ?b lat lon] => destruct (within b lat lon) eqn:E1
    end.
    - apply (within_inside _ NYC_BOUNDS) in E1; trivial; reflexivity.
    - match type of Hname with
      | context [within ?b lat lon] => destruct (within b lat lon) eqn:E2
      end.
      + apply (within_inside _ NYC_BOUNDS) in E2; trivial; reflexivity.
      + repeat match type of Hname with
        | context [within ?b lat lon] => destruct (within b lat lon)
        end; injection Hname as <-; destruct Hinner; discriminate. }
  unfold isValidCoordinate, isValidCoordinate_in.
  destruct (within_NYC_nonzero lat lon Hw) as [-> ->]. now rewrite Hw.
Qed.

Lemma isValidTrip_rejects_zero_length_witness :
  isValidTrip RefMath.lib
    {| pickup_latitude := Some "40.75"%string;
       pickup_longitude := Some "-73.98"%string;
       dropoff_latitude := Some "40.75"%string;
       dropoff_longitude := Some "-73.98"%string;
       trip_duration := Some "455"%string;
       passenger_count := Some "1"%string |} = Return false.
Proof.
  apply (isValidTrip_rejects_zero_length RefMath.lib); vm_compute; reflexivity.
Defined.

Lemma enriched_speed_finite_witness :
  exists e,
    enrichTripData RefMath.lib ordinary_row = Return e /\
    is_finite (speed_kmh e) = true /\ (0 <? speed_kmh e) = true.
Proof.
  eexists. split; [vm_compute; reflexivity|].
  apply (enriched_speed_finite RefMath.lib ordinary_row); vm_compute; reflexivity.
Defined.

Lemma reverse_trip_witness :
  isValidTrip RefMath.lib (reverse ordinary_row) = isValidTrip RefMath.lib ordinary_row.
Proof.
  exact (proj1 (reverse_trip RefMath.lib ordinary_row RefMath_odd_sin)).
Defined.

Lemma calculateDistance_symmetric_witness :
  calculateDistance RefMath.lib 40.75 (-73.98) 40.76 (-73.97)
  = calculateDistance RefMath.lib 40.76 (-73.97) 40.75 (-73.98).
Proof.
  apply (calculateDistance_symmetric RefMath.lib 40.75 (-73.98) 40.76 (-73.97)).
  exact RefMath_odd_sin.
Defined.

Lemma calculateDistance_same_point_witness :
  calculateDistance RefMath.lib 40.75 (-73.98) 40.75 (-73.98) = Return 0.
Proof.
  apply (calculateDistance_same_point RefMath.lib 40.75 (-73.98));
    vm_compute; reflexivity.
Defined.

End DistanceFacts.

(* ===================================================================== *)
(** * Facts about the import loop *)
(* ===================================================================== *)

Module StreamFacts.

Import JS Ieee JSFacts ImportData ImportFacts ImportStream.

Section WithMath.

Variable M : MathLib.

Lemma isValidTrip_returns r : exists valid, isValidTrip M r = Return valid.
Proof. destruct (isValidTrip_checks M r) as (d & _ & H). eauto. Qed.

Lemma enrichTripData_returns r : exists e, enrichTripData M r = Return e.
Proof.
  unfold enrichTripData, calculateDistance. cbn [bind].
  destruct (getBorough_in_returns BOROUGHS
              (parseFloat (cell (pickup_latitude r)))
              (parseFloat (cell (pickup_longitude r)))) as (pb & Hpb).
  destruct (getBorough_in_returns BOROUGHS
              (parseFloat (cell (dropoff_latitude r)))
              (parseFloat (cell (dropoff_longitude r)))) as (db & Hdb).
  unfold getBorough. rewrite Hpb. cbn [bind]. rewrite Hdb. cbn [bind]. eauto.
Qed.

(** What a record contributes to the table: itself with its derived fields
    when it is valid, and nothing otherwise. *)
Definition accepted (r : RawTripRecord) : list EnrichedRecord :=
  match isValidTrip M r, enrichTripData M r with
  | Return true, Return e => [(r, e)]
  | _, _ => []
  end.

Definition records_of (events : list event) : list RawTripRecord :=
  flat_map (fun e => match e with Data r => [r] | _ => [] end) events.

(** The ['data'] handler on a record, when no insert is pending. *)
Lemma on_data_idle r s :
  isProcessing s = false ->
  exists s',
    on_data M r s = Return s' /\
    processedCount s' = S (processedCount s) /\
    validCount s' = (validCount s + length (accepted r))%nat /\
    invalidCount s' = (invalidCount s + (1 - length (accepted r)))%nat /\
    batch s' = batch s ++ accepted r /\
    isProcessing s' = (batchSize <=? length (batch s'))%nat && (0 <? length (accepted r))%nat /\
    inserted s' = inserted s ++ (if isProcessing s' then [batch s'] else []).
Proof.
  intros Hidle. unfold on_data, accepted. rewrite Hidle.
  destruct (isValidTrip_returns r) as ([|] & ->); cbn [bind].
  - destruct (enrichTripData_returns r) as (e & ->); cbn [bind].
    destruct (batchSize <=? length (batch s ++ [(r, e)]))%nat eqn:E;
      eexists; (split; [reflexivity|]);
      cbn [processedCount validCount invalidCount batch isProcessing inserted length];
      rewrite ?E, ?app_nil_r; repeat split; lia.
  - eexists. split; [reflexivity|].
    cbn [processedCount validCount invalidCount batch isProcessing inserted length].
    rewrite andb_false_r, !app_nil_r. repeat split; lia.
Qed.

Lemma on_data_busy r s : isProcessing s = true -> on_data M r s = Return s.
Proof. unfold on_data. now intros ->. Qed.

(** ** The counters *)




(** ** What reaches the database *)

Lemma accepted_spec r x :
  In x (accepted r) ->
  exists e, x = (r, e) /\ isValidTrip M r = Return true /\
            enrichTripData M r = Return e.
Proof.
  unfold accepted.
  destruct (isValidTrip M r) as [[|]|]; try contradiction.
  destruct (enrichTripData M r) as [e|]; try contradiction.
  intros [<-|[]]. eauto.
Qed.

(** Every record of the pending batch and of the batches sent was accepted
    from a record the parser delivered. *)
Definition sourced (s : state) (delivered : list RawTripRecord) : Prop :=
  forall x, In x (batch s) \/ In x (concat (inserted s)) ->
    In (fst x) delivered /\ In x (accepted (fst x)).

Lemma sourced_mono s delivered more :
  sourced s delivered -> sourced s (delivered ++ more).
Proof.
  intros Hs x Hx. destruct (Hs x Hx) as [Hin Hacc].
  split; [apply in_or_app; now left|exact Hacc].
Qed.

Lemma step_sourced s e delivered :
  sourced s delivered ->
  exists s', step M s e = Return s' /\ sourced s' (delivered ++ records_of [e]).
Proof.
  intros Hs. destruct e as [r| |]; cbn [step].
  - destruct (isProcessing s) eqn:Hp.
    + rewrite on_data_busy by exact Hp. exists s.
      split; [reflexivity|now apply sourced_mono].
    + destruct (on_data_idle r s Hp) as (s' & -> & _ & _ & _ & Hb & _ & Hi).
      exists s'. split; [reflexivity|].
      assert (Hnew : forall x, In x (batch s') ->
                In (fst x) (delivered ++ records_of [Data r]) /\
                In x (accepted (fst x))).
      { intros x Hx. rewrite Hb in Hx. apply in_app_or in Hx as [Hx|Hx].
        - apply (sourced_mono s delivered _ Hs). now left.
        - destruct (accepted_spec r x Hx) as (e & -> & _).
          split; [apply in_or_app; right; now left|exact Hx]. }
      intros x [Hx|Hx]; [now apply Hnew|].
      rewrite Hi, concat_app in Hx. apply in_app_or in Hx as [Hx|Hx].
      * apply (sourced_mono s delivered _ Hs). now right.
      * apply Hnew. destruct (isProcessing s'); simpl in Hx; [|contradiction].
        now rewrite app_nil_r in Hx.
  - exists (on_insert_done s). split; [reflexivity|].
    apply sourced_mono. unfold on_insert_done.
    destruct (isProcessing s); [|exact Hs].
    intros x [[]|Hx]. apply Hs. now right.
  - exists (on_end s). split; [reflexivity|].
    apply sourced_mono. unfold on_end.
    destruct (0 <? length (batch s))%nat; [|exact Hs].
    intros x [Hx|Hx]; simpl in Hx; [apply Hs; now left|].
    rewrite concat_app in Hx. apply in_app_or in Hx as [Hx|Hx].
    + apply Hs. now right.
    + simpl in Hx. rewrite app_nil_r in Hx. apply Hs. now left.
Qed.

Lemma run_sourced events : forall s delivered,
  sourced s delivered ->
  exists s', run M s events = Return s' /\
             sourced s' (delivered ++ records_of events).
Proof.
  induction events as [|e rest IH]; intros s delivered Hs; simpl.
  - exists s. split; [reflexivity|now apply sourced_mono].
  - destruct (step_sourced s e delivered Hs) as (s1 & -> & Hs1). cbn [bind].
    destruct (IH s1 _ Hs1) as (s' & Hrun & Hs').
    exists s'. split; [exact Hrun|].
    rewrite <- app_assoc in Hs'. destruct e; simpl in Hs' |- *; exact Hs'.
Qed.

(** The distance an enriched record carries is the one that was validated. *)
Lemma enrichTripData_distance r e :
  enrichTripData M r = Return e ->
  calculateDistance M (pickupLat r) (pickupLon r) (dropoffLat r) (dropoffLon r)
  = Return (distance_km e).
Proof.
  unfold enrichTripData, calculateDistance. cbn [bind].
  destruct (getBorough_in_returns BOROUGHS
              (parseFloat (cell (pickup_latitude r)))
              (parseFloat (cell (pickup_longitude r)))) as (pb & Hpb).
  destruct (getBorough_in_returns BOROUGHS
              (parseFloat (cell (dropoff_latitude r)))
              (parseFloat (cell (dropoff_longitude r)))) as (db & Hdb).
  unfold getBorough. rewrite Hpb. cbn [bind]. rewrite Hdb. cbn [bind].
  intros [= <-]. reflexivity.
Qed.

(** ** A run in which the parser waits for the database *)

(** No record and no end of file arrives while an insert is pending. *)
Fixpoint paced (s : state) (events : list event) : Prop :=
  match events with
  | [] => True
  | e :: rest =>
      match e with InsertDone => True | _ => isProcessing s = false end /\
      match step M s e with Return s' => paced s' rest | Throw _ => False end
  end.

(** The records delivered so far are all counted, and the valid ones among
    them are in the batches sent or in the pending one. *)
Definition tracks (s : state) (records : list RawTripRecord) : Prop :=
  concat (inserted s) ++ (if isProcessing s then [] else batch s)
    = flat_map accepted records /\
  processedCount s = length records /\
  validCount s = length (flat_map accepted records).

Lemma run_paced events : forall s records,
  tracks s records -> Forall (fun e => e <> End) events -> paced s events ->
  exists s', run M s events = Return s' /\ tracks s' (records ++ records_of events).
Proof.
  induction events as [|e rest IH]; intros s records Hs Hne Hpaced.
  - exists s. rewrite app_nil_r. now split.
  - inversion Hne as [|? ? He Hrest]; subst.
    destruct Hpaced as [Hidle Hpaced]. simpl.
    assert (Hstep : exists s1, step M s e = Return s1 /\
                      tracks s1 (records ++ records_of [e])).
    { destruct Hs as (Hall & Hpc & Hvc). destruct e as [r| |]; [| |congruence].
      - destruct (on_data_idle r s Hidle)
          as (s1 & Hs1 & Hpc1 & Hvc1 & _ & Hb1 & _ & Hi1).
        exists s1. split; [exact Hs1|]. rewrite Hidle in Hall.
        change (records_of [Data r]) with [r]. unfold tracks.
        rewrite flat_map_app, !length_app.
        change (flat_map accepted [r]) with (accepted r ++ []).
        rewrite app_nil_r. simpl length.
        split; [|split; lia]. rewrite <- Hall, Hi1.
        destruct (isProcessing s1).
        + rewrite concat_app. simpl. rewrite !app_nil_r, Hb1.
          now rewrite app_assoc.
        + now rewrite !app_nil_r, Hb1, app_assoc.
      - exists (on_insert_done s). split; [reflexivity|].
        change (records_of [InsertDone]) with (@nil RawTripRecord).
        rewrite app_nil_r. unfold tracks, on_insert_done.
        destruct (isProcessing s) eqn:Hp; repeat split; simpl; trivial.
        now rewrite Hp. }
    destruct Hstep as (s1 & Hs1 & Htracks). rewrite Hs1 in Hpaced |- *.
    cbn [bind].
    destruct (IH s1 _ Htracks Hrest Hpaced) as (s' & Hrun & Hs').
    exists s'. split; [exact Hrun|].
    rewrite <- app_assoc in Hs'. destruct e; simpl in Hs' |- *; exact Hs'.
Qed.

Lemma run_app a : forall b s,
  run M s (a ++ b) = let* s' := run M s a in run M s' b.
Proof.
  induction a as [|e a IH]; intros b s; simpl; [reflexivity|].
  destruct (step M s e) as [s1|]; cbn [bind]; [apply IH|reflexivity].
Qed.

Lemma paced_app a : forall b s,
  paced s (a ++ b) ->
  paced s a /\ forall s', run M s a = Return s' -> paced s' b.
Proof.
  induction a as [|e a IH]; intros b s; simpl.
  - intros Hb. split; [trivial|]. now intros s' [= <-].
  - intros [Hidle Hp]. destruct (step M s e) as [s1|]; [|contradiction].
    cbn [bind]. destruct (IH b s1 Hp) as [Ha Hb]. repeat split; trivial.
Qed.

(** ** A run in which the database does not answer in time *)

Lemma run_busy records : forall s,
  isProcessing s = true ->
  run M s (map Data records ++ [End]) = Return (on_end s).
Proof.
  induction records as [|r rest IH]; intros s Hp; simpl; [reflexivity|].
  rewrite on_data_busy by exact Hp. cbn [bind]. now apply IH.
Qed.

Lemma run_unanswered records : forall s,
  isProcessing s = false -> inserted s = [] -> (length (batch s) < batchSize)%nat ->
  let all := batch s ++ flat_map accepted records in
  exists s',
    run M s (map Data records ++ [End]) = Return s' /\
    ((length all < batchSize)%nat ->
     inserted s' = if (0 <? length all)%nat then [all] else []) /\
    ((batchSize <= length all)%nat ->
     inserted s' = [take batchSize all; take batchSize all]).
Proof.
  induction records as [|r rest IH]; intros s Hidle Hins Hlen all.
  - exists (on_end s). split; [reflexivity|]. subst all. simpl.
    rewrite app_nil_r. unfold on_end. split; [|lia]. intros _.
    destruct (0 <? length (batch s))%nat; simpl; now rewrite Hins.
  - simpl map. simpl app. cbn [run step].
    destruct (on_data_idle r s Hidle) as (s1 & -> & _ & _ & _ & Hb1 & Hp1 & Hi1).
    cbn [bind].
    assert (Hall : all = batch s1 ++ flat_map accepted rest).
    { subst all. simpl. now rewrite Hb1, app_assoc. }
    destruct (isProcessing s1) eqn:Hp.
    + rewrite run_busy by exact Hp. exists (on_end s1). split; [reflexivity|].
      symmetry in Hp1. apply andb_true_iff in Hp1 as [Hfull Hnew].
      apply Nat.leb_le in Hfull. apply Nat.ltb_lt in Hnew.
      assert (Hbatch : length (batch s1) = batchSize).
      { assert (length (accepted r) <= 1)%nat.
        { unfold accepted. destruct (isValidTrip M r) as [[|]|]; simpl; try lia.
          destruct (enrichTripData M r); simpl; lia. }
        rewrite Hb1, length_app in *. lia. }
      rewrite Hall. rewrite length_app. split; [lia|]. intros _.
      rewrite take_app_length' by (symmetry; exact Hbatch).
      unfold on_end. replace (0 <? length (batch s1))%nat with true
        by (symmetry; apply Nat.ltb_lt; unfold batchSize in *; lia).
      simpl. now rewrite Hi1, Hins.
    + assert (Hins1 : inserted s1 = []) by (rewrite Hi1, Hins; reflexivity).
      rewrite Hall. apply IH; trivial.
      symmetry in Hp1. apply andb_false_iff in Hp1 as [Hp1|Hp1].
      * now apply Nat.leb_gt in Hp1.
      * apply Nat.ltb_ge in Hp1. rewrite Hb1, length_app. lia.
Qed.

End WithMath.


(** X17.  Whatever the parser and the database do, a record in a batch sent
    to the database, or in the pending batch, is the enrichment of a record
    the parser delivered and [isValidTrip] accepted: both its endpoints lie
    within the city bounds and its distance is neither below 0.1 km nor
    above 100 km. *)
Theorem import_inserts_only_valid (M : MathLib) (events : list event) (s : state)
    (r : RawTripRecord) (e : EnrichedFields) :
  run M initial events = Return s ->
  In (r, e) (batch s) \/ In (r, e) (concat (inserted s)) ->
  In r (records_of events) /\
  isValidTrip M r = Return true /\
  enrichTripData M r = Return e /\
  within NYC_BOUNDS (pickupLat r) (pickupLon r) = true /\
  within NYC_BOUNDS (dropoffLat r) (dropoffLon r) = true /\
  (distance_km e <? 0.1)%float = false /\
  (100 <? distance_km e)%float = false.
Proof.
  intros Hrun Hin.
  destruct (run_sourced M events initial []) as (s' & Hrun' & Hs').
  { intros x [[]|[]]. }
  rewrite Hrun in Hrun'. injection Hrun' as <-.
  destruct (Hs' (r, e) Hin) as [Hdel Hacc]. simpl in Hdel, Hacc.
  destruct (accepted_spec M r _ Hacc) as (e' & [= <-] & Hvalid & Henrich).
  split; [exact Hdel|]. split; [exact Hvalid|]. split; [exact Henrich|].
  destruct (isValidTrip_checks M r) as (d & Hd & Hchecks).
  rewrite (enrichTripData_distance M r e Henrich) in Hd. injection Hd as <-.
  rewrite Hvalid in Hchecks. injection Hchecks as Hchecks. symmetry in Hchecks.
  apply andb_true_iff in Hchecks as [Hchecks Hdist].
  apply andb_true_iff in Hchecks as [Hchecks _].
  apply andb_true_iff in Hchecks as [Hends _].
  unfold endpoints_valid in Hends.
  apply andb_true_iff in Hends as [Hp Hd].
  apply andb_true_iff in Hp as [_ Hp]. apply andb_true_iff in Hd as [_ Hd].
  apply negb_true_iff, orb_false_iff in Hdist as [Hlo Hhi].
  now repeat split.
Qed.

Lemma import_inserts_only_valid_witness :
  In ordinary_row (records_of [Data short_row; Data ordinary_row; End]) /\
  isValidTrip RefMath.lib ordinary_row = Return true.
Proof.
  refine (let H := import_inserts_only_valid RefMath.lib
                     [Data short_row; Data ordinary_row; End] _ ordinary_row _ _ _ in
          conj (proj1 H) (proj1 (proj2 H))).
  - vm_compute. reflexivity.
  - right. vm_compute. left. reflexivity.
Defined.

(** X11.  When no record and no end of file arrives while an insert is
    pending, the import counts every record delivered, and the batches it
    has sent by the end of the file hold the valid records, enriched, each
    once and in the order of the file. *)
Theorem import_paced_run (M : MathLib) (events : list event) :
  Forall (fun e => e <> End) events ->
  paced M initial (events ++ [End]) ->
  exists s,
    run M initial (events ++ [End]) = Return s /\
    concat (inserted s) = flat_map (accepted M) (records_of events) /\
    processedCount s = length (records_of events) /\
    validCount s = length (flat_map (accepted M) (records_of events)).
Proof.
  intros Hne Hpaced.
  apply paced_app in Hpaced as [Hbody Hend].
  destruct (run_paced M events initial [] ltac:(repeat split) Hne Hbody)
    as (s1 & Hrun & Hall & Hpc & Hvc).
  destruct (Hend s1 Hrun) as [Hidle _]. rewrite Hidle in Hall.
  simpl in Hall, Hpc, Hvc.
  exists (on_end s1). split; [now rewrite run_app, Hrun|].
  unfold on_end. destruct (0 <? length (batch s1))%nat eqn:Hb; simpl.
  - rewrite concat_app. simpl. rewrite app_nil_r. now repeat split.
  - apply Nat.ltb_ge in Hb. destruct (batch s1); [|simpl in Hb; lia].
    rewrite app_nil_r in Hall. now repeat split.
Qed.

Lemma import_paced_run_witness :
  exists s,
    run RefMath.lib initial
      ([Data ordinary_row; Data short_row; InsertDone; Data ordinary_row] ++ [End])
      = Return s /\
    concat (inserted s)
      = flat_map (accepted RefMath.lib) [ordinary_row; short_row; ordinary_row] /\
    processedCount s = 3%nat /\
    validCount s = length (flat_map (accepted RefMath.lib)
                             [ordinary_row; short_row; ordinary_row]).
Proof.
  apply (import_paced_run RefMath.lib
           [Data ordinary_row; Data short_row; InsertDone; Data ordinary_row]).
  - repeat constructor; discriminate.
  - vm_compute. repeat split.
Defined.

(** X12.  When the database answers no insert before the file ends, and the
    file holds at least 500 valid records, the first 500 of them are sent,
    twice, and the import sends nothing else; with fewer than 500 valid
    records it sends them all at the end, in one batch. *)
Theorem import_unanswered_run (M : MathLib) (records : list RawTripRecord) :
  let all := flat_map (accepted M) records in
  exists s,
    run M initial (map Data records ++ [End]) = Return s /\
    ((length all < 500)%nat ->
     inserted s = if (0 <? length all)%nat then [all] else []) /\
    ((500 <= length all)%nat -> inserted s = [take 500 all; take 500 all]).
Proof.
  apply (run_unanswered M records initial); trivial. simpl. unfold batchSize. lia.
Qed.

End StreamFacts.

(* ===================================================================== *)
(** * The metric and the loop of [TripClusterer] *)
(* ===================================================================== *)

Module LoopFacts.

Import JS Ieee JSFacts TripClusterer ClusterFacts SignFacts.
Local Open Scope float_scope.

(** ** The feature distance as a metric *)

Lemma square_swap x y : (y - x) * (y - x) = (x - y) * (x - y).
Proof.
  destruct (sub_swap x y) as [-> | ->]; [apply mul_opp_opp|reflexivity].
Qed.

Lemma scaled_square_swap x y c :
  (y - x) / c * ((y - x) / c) = (x - y) / c * ((x - y) / c).
Proof.
  destruct (sub_swap x y) as [-> | ->]; [|reflexivity].
  rewrite div_opp_l. apply mul_opp_opp.
Qed.

Lemma calculateDistance_self p :
  finite_point p -> calculateDistance (Some p) (Some p) = 0.
Proof.
  intros (Hlat & Hlon & Hdur). unfold calculateDistance.
  rewrite !sub_diag_finite by now apply or_zero_finite.
  reflexivity.
Qed.

(** X18.  The feature distance does not depend on the order of its two
    arguments, whatever the fields hold, and the distance of a point with
    finite fields to itself is 0. *)
Theorem calculateDistance_metric (p q : option point) :
  calculateDistance p q = calculateDistance q p /\
  (forall x, p = Some x -> finite_point x -> calculateDistance p p = 0).
Proof.
  split.
  - destruct p as [p|], q as [q|]; try reflexivity. unfold calculateDistance.
    now rewrite (square_swap (or_zero (parseFloat (lat p)))),
      (square_swap (or_zero (parseFloat (lon p)))),
      (scaled_square_swap (or_zero (parseFloat (duration p)))).
  - intros x -> Hx. now apply calculateDistance_self.
Qed.

(** ** Convergence *)

Lemma forallb_imap_true {A} (l : list A) : forall f : nat -> A -> bool,
  (forall i x, l !! i = Some x -> f i x = true) ->
  forallb (fun b : bool => b) (imap f l) = true.
Proof.
  induction l as [|x l IH]; intros f Hf; [reflexivity|].
  cbn [imap forallb]. rewrite (Hf 0%nat x eq_refl). cbn [andb].
  apply IH. intros i y Hy. apply (Hf (S i) y Hy).
Qed.

(** X19.  An update that leaves every centroid where it was, all of them
    with finite fields, passes the convergence test, so the loop stops
    there. *)
Theorem converged_unmoved (centroids : list point) :
  Forall finite_point centroids -> converged centroids centroids = true.
Proof.
  intros Hfin. unfold converged. apply forallb_imap_true.
  intros i c Hc. rewrite Hc.
  rewrite calculateDistance_self.
  - reflexivity.
  - rewrite List.Forall_forall in Hfin. apply Hfin, list_elem_of_In.
    eapply list_elem_of_lookup_2, Hc.
Qed.

Lemma converged_unmoved_witness : converged [downtown; uptown] [downtown; uptown] = true.
Proof. apply (converged_unmoved [downtown; uptown]). repeat constructor. Defined.

(** ** The iteration budget *)

Section Budget.

Variable rnd : nat -> nat.
Variable data : list point.
Variable k : Z.

(** The loop leaves by [break] within [n] iterations. *)
Fixpoint breaks_within (n : nat) (centroids : list point) (pos : nat) : bool :=
  match n with
  | O => false
  | S n =>
      let clusters := assignPoints data centroids k in
      let '(newCentroids, pos) := updateCentroids rnd data clusters pos in
      if converged centroids newCentroids then true
      else breaks_within n newCentroids pos
  end.

Lemma iterate_budget n : forall m centroids clusters clusters' pos,
  breaks_within n centroids pos = true -> (n <= m)%nat ->
  iterate rnd data k m centroids clusters pos
  = iterate rnd data k n centroids clusters' pos.
Proof.
  induction n as [|n IH]; intros m centroids clusters clusters' pos Hb Hm;
    [discriminate|].
  destruct m as [|m]; [lia|]. simpl in *.
  destruct (updateCentroids rnd data (assignPoints data centroids k) pos)
    as [newCentroids pos'].
  destruct (converged centroids newCentroids); [reflexivity|].
  apply IH; [exact Hb|lia].
Qed.

End Budget.

(** X20.  Once the loop has stopped by convergence within the iteration
    budget, a larger budget gives the same clusters. *)
Theorem kMeans_budget (rnd : nat -> nat) (fuel : nat) (data : list point)
    (k maxIterations maxIterations' : Z) :
  (maxIterations <= maxIterations')%Z ->
  (forall centroids pos,
     initializeCentroids rnd fuel data k 0 = Some (centroids, pos) ->
     breaks_within rnd data k (Z.to_nat maxIterations) centroids pos = true) ->
  kMeans rnd fuel data k maxIterations' = kMeans rnd fuel data k maxIterations.
Proof.
  intros Hle Hbreak. unfold kMeans.
  destruct (length data =? 0)%nat; [reflexivity|].
  destruct (_ || _)%bool; [reflexivity|].
  destruct (initializeCentroids rnd fuel data k 0) as [[centroids pos]|];
    [|reflexivity].
  rewrite (iterate_budget rnd data k (Z.to_nat maxIterations)
             (Z.to_nat maxIterations') centroids [] [] pos); trivial.
  - now apply Hbreak.
  - lia.
Qed.

Lemma kMeans_budget_witness :
  kMeans (fun i => (i mod 2)%nat) 2 [downtown; uptown] 2 1000
  = kMeans (fun i => (i mod 2)%nat) 2 [downtown; uptown] 2 default_maxIterations.
Proof.
  apply (kMeans_budget (fun i => (i mod 2)%nat) 2 [downtown; uptown] 2
           default_maxIterations 1000).
  - unfold default_maxIterations. lia.
  - intros centroids pos H. vm_compute in H. injection H as <- <-.
    vm_compute. reflexivity.
Defined.

End LoopFacts.
